(** * The push path of the distributor (pkg/distributor/distributor.go)

    A shallow embedding of [Push], [truncateLines], [parseStreamLabels] and
    [sendToIngester], with the collaborators the file calls but does not
    define (validator, ring, rate limiter, RPC client) taken as an interface.

    Go values are modelled as follows.  [int] lengths and counts are [nat];
    the [atomic.Int32] budgets are [Z] with the 32-bit wrap-around written
    out; strings are [string]; slices are lists, and an assignment through an
    index is a list insert; [map[string]...] is a [gmap string ...]; a pointer
    is an address into an explicit store of cells. *)

From Stdlib Require Import ZArith List Ascii String Lia Bool.
From stdpp Require Import base option list strings gmap sorting.

Local Open Scope nat_scope.

(** ** logproto *)

Record Entry := mkEntry { Timestamp : Z; Line : string }.

Record Stream := mkStream { Labels : string; Entries : list Entry }.

Definition PushRequest := list Stream.

(** [logproto.PushResponse] has no fields. *)
Inductive PushResponse := EmptyResponse.

(** [len(e.Line)] *)
Definition len (s : string) : nat := String.length s.

(** [e.Line[:n]], used only with [n <= len(e.Line)]. *)
Definition slice_to (n : nat) (s : string) : string := String.substring 0 n s.

(** ** Errors

    [httpgrpc.Errorf(code, format, args...)] keeps the status code, the
    format and its arguments; every other error value is identified by its
    message. *)
Inductive error :=
  | Err (msg : string)
  | Errorf (code : Z) (format : string) (args : list fmtArg)
with fmtArg :=
  | ArgString (s : string)
  | ArgInt (n : Z)
  | ArgError (e : error).

Definition StatusBadRequest : Z := 400.
Definition StatusTooManyRequests : Z := 429.

(** ** Metrics (package validation)

    A counter vector is indexed by the reason and the tenant;
    [WithLabelValues(reason, tenant).Add(n)] is [counter_add]. *)
Inductive metric := DiscardedSamples | DiscardedBytes | MutatedSamples | MutatedBytes.

Global Instance metric_eq_dec : EqDecision metric.
Proof. solve_decision. Defined.

Definition counters := metric -> string -> string -> nat.

Definition counters_zero : counters := fun _ _ _ => 0.

Definition counter_add (m : metric) (reason tenant : string) (n : nat)
    (c : counters) : counters :=
  fun m' r' t' =>
    if decide (m = m' /\ reason = r' /\ tenant = t') then c m' r' t' + n
    else c m' r' t'.

(** Modelled from the spec: the reason labels are constants of package
    validation, which is not part of the sources at hand; the spec lists them
    as [invalid_labels], [rate_limited] and [line_too_long]. *)
Definition InvalidLabels : string := "invalid_labels".
Definition RateLimited : string := "rate_limited".
Definition LineTooLong : string := "line_too_long".

(** Modelled from the spec: [validationContext] is declared in validator.go,
    which is not part of the sources at hand; it is the snapshot of a tenant's
    limits that the spec enumerates, of which this file reads
    [maxLineSize], [maxLineSizeTruncate] and [userID]. *)
Record validationContext := mkValidationContext {
  rejectOldSampleMaxAge : Z;
  creationGracePeriod : Z;
  maxLineSize : nat;
  maxLineSizeTruncate : bool;
  maxLabelNamesPerSeries : nat;
  maxLabelNameLength : nat;
  maxLabelValueLength : nat;
  userID : string
}.

(** ** truncateLines *)

Definition set_Line (l : string) (e : Entry) : Entry :=
  {| Timestamp := Timestamp e; Line := l |}.

(** The state of the loop of [truncateLines]: the entries of the stream (the
    array written through [stream.Entries[i]]), [truncatedSamples] and
    [truncatedBytes]. *)
Record truncState := mkTruncState {
  t_entries : list Entry;
  truncatedSamples : nat;
  truncatedBytes : nat
}.

(** One iteration of [for i, e := range stream.Entries]. *)
Definition truncateLines_body (maxSize : nat) (i : nat) (e : Entry)
    (st : truncState) : truncState :=
  if negb (maxSize =? 0) && (maxSize <? len (Line e)) then
    {| t_entries := <[i := set_Line (slice_to maxSize (Line e)) e]> (t_entries st);
       truncatedSamples := S (truncatedSamples st);
       truncatedBytes := len (Line e) - maxSize |}
  else st.

(** The [range] loop: the length is fixed on entry, and iteration [i] reads
    element [i] of the array as it is then. *)
Fixpoint truncateLines_loop (maxSize : nat) (todo i : nat) (st : truncState)
    : truncState :=
  match todo with
  | 0 => st
  | S todo' =>
      match t_entries st !! i with
      | Some e => truncateLines_loop maxSize todo' (S i) (truncateLines_body maxSize i e st)
      | None => st
      end
  end.

(** [truncateLines(vContext, stream)]: the stream is updated through the
    pointer, the two counters through the registry. *)
Definition truncateLines (vContext : validationContext) (stream : Stream)
    (m : counters) : Stream * counters :=
  if negb (maxLineSizeTruncate vContext) then (stream, m)
  else
    let st := truncateLines_loop (maxLineSize vContext) (length (Entries stream)) 0
                (mkTruncState (Entries stream) 0 0) in
    ({| Labels := Labels stream; Entries := t_entries st |},
     counter_add MutatedBytes LineTooLong (userID vContext) (truncatedBytes st)
       (counter_add MutatedSamples LineTooLong (userID vContext) (truncatedSamples st) m)).

(** ** The label cache (github.com/hashicorp/golang-lru)

    The cache is the list of its entries, the most recently used first.
    [Get] moves a hit to the front; [Add] puts the entry at the front and,
    when the size is exceeded, evicts the oldest one. *)
Definition lruCache := list (string * string).

Definition lru_remove (key : string) (c : lruCache) : lruCache :=
  filter (fun kv => kv.1 <> key) c.

Definition lru_lookup (key : string) (c : lruCache) : option string :=
  snd <$> List.find (fun kv => bool_decide (kv.1 = key)) c.

Definition lru_Get (key : string) (c : lruCache) : option string * lruCache :=
  match lru_lookup key c with
  | Some v => (Some v, (key, v) :: lru_remove key c)
  | None => (None, c)
  end.

Definition lru_Add (size : N) (key val : string) (c : lruCache) : lruCache :=
  let c' := (key, val) :: lru_remove key c in
  if (size <? N.of_nat (length c'))%N then removelast c' else c'.

Definition maxLabelCacheSize : N := 100000.

(** ** The ring (github.com/grafana/dskit/ring) *)

Record InstanceDesc := mkInstanceDesc { Addr : string; Zone : string }.

Record ReplicationSet := mkReplicationSet {
  Instances : list InstanceDesc;
  MaxErrors : Z
}.

(** ** Collaborators

    What [Push] calls and this file does not define.  The validator, the
    label parser and the token function are pure; the rate limiter has a
    state of its own. *)
Class Collaborators := {
  context : Type;
  (** [tenant.TenantID(ctx)] *)
  TenantID : context -> string + error;
  (** [d.validator.getValidationContextForTime(now, userID)] *)
  getValidationContextForTime : Z -> string -> validationContext;
  (** [labels.Labels], [logql.ParseLabels(key)] and [ls.String()] *)
  labelSet : Type;
  ParseLabels : string -> labelSet + error;
  labelsString : labelSet -> string;
  (** [d.validator.ValidateLabels(vContext, ls, stream)] *)
  ValidateLabels : validationContext -> labelSet -> Stream -> option error;
  (** [d.validator.ValidateEntry(vContext, labels, entry)] *)
  ValidateEntry : validationContext -> string -> Entry -> option error;
  (** [util.TokenFor(userID, labels)], a [uint32] *)
  TokenFor : string -> string -> Z;
  (** the formats of package validation *)
  InvalidLabelsErrorMsg : string;
  RateLimitedErrorMsg : string;
  (** [limiter.RateLimiter]: [AllowN(now, tenant, n)] and
      [int(Limit(now, tenant))] *)
  rateLimiter : Type;
  AllowN : rateLimiter -> Z -> string -> nat -> bool * rateLimiter;
  Limit : rateLimiter -> Z -> string -> Z
}.

(** ** 32-bit atomics (go.uber.org/atomic) *)

Definition int32 (z : Z) : Z := ((z + 2 ^ 31) mod 2 ^ 32 - 2 ^ 31)%Z.

(** [Dec] returns the new value. *)
Definition Int32_Dec (v : Z) : Z := int32 (v - 1).

(** ** Trackers *)

(** A pointer to a [logproto.Stream] is the address of a cell of the store. *)
Definition addr := nat.

Record streamTracker := mkStreamTracker {
  stream : addr;
  successBucket : Z;
  failureBucket : Z
}.

(** A channel of capacity 1, as both channels of the tracker are made;
    [sends] counts the values ever sent on it. *)
Record chan (A : Type) := mkChan { buf : list A; sends : nat }.
Arguments mkChan {A} _ _.
Arguments buf {A} _.
Arguments sends {A} _.

Definition make_chan {A : Type} : chan A := mkChan [] 0.

(** [ch <- v]: [None] when the buffer is full and the sender blocks. *)
Definition chan_send {A : Type} (v : A) (ch : chan A) : option (chan A) :=
  if length (buf ch) <? 1 then Some (mkChan (buf ch ++ [v]) (S (sends ch)))
  else None.

(** [<-ch]: [None] when there is nothing to receive. *)
Definition chan_recv {A : Type} (ch : chan A) : option (A * chan A) :=
  match buf ch with
  | v :: rest => Some (v, mkChan rest (sends ch))
  | [] => None
  end.

Record pushTracker := mkPushTracker {
  done : chan unit;
  err : chan error;
  pending : Z;
  failed : bool
}.

(** ** The calls [Push] makes to the validator, in order, with their results.
    This log is not a variable of the program: it records which values reach
    the validator and what comes back. *)
Inductive call :=
  | CallParseStreamLabels (key : string) (labels : string) (r : option error)
  | CallValidateEntry (labels : string) (entry : Entry) (r : option error).

Definition call_error (c : call) : option error :=
  match c with
  | CallParseStreamLabels _ _ r => r
  | CallValidateEntry _ _ r => r
  end.

(** The validation errors met, in the order they were met. *)
Definition validation_errors (log : list call) : list error :=
  omap call_error log.

(** The entries handed to [ValidateEntry], in order. *)
Definition validated_entries (log : list call) : list Entry :=
  omap (fun c => match c with CallValidateEntry _ e _ => Some e | _ => None end) log.

(** Whether the range variable of a [for ... range] statement is one variable
    for the whole loop (the language up to Go 1.21, which this code base is
    written in) or a new one at each iteration (from Go 1.22 on). *)
Inductive rangeVar := PerLoop | PerIteration.

(** ** The state of [Push] up to the fan-out: the distributor's label cache,
    rate limiter and counters, the store of [logproto.Stream] cells, the local
    variables, and the log of validator calls. *)
Record pushState `{Collaborators} := mkPushState {
  labelCache : lruCache;
  ingestionRateLimiter : rateLimiter;
  metrics : counters;
  store : gmap addr Stream;
  next_addr : addr;
  streams : list streamTracker;
  keys : list Z;
  validatedSamplesSize : nat;
  validatedSamplesCount : nat;
  validationErr : option error;
  calls : list call
}.

Section Push.
Context `{C : Collaborators}.

(** *** parseStreamLabels *)
Definition parseStreamLabels (vContext : validationContext) (key : string)
    (stream : Stream) (cache : lruCache) : (string * option error) * lruCache :=
  match lru_Get key cache with
  | (Some labelVal, cache') => ((labelVal, None), cache')
  | (None, cache') =>
      match ParseLabels key with
      | inr e =>
          (("", Some (Errorf StatusBadRequest InvalidLabelsErrorMsg
                        [ArgString key; ArgError e])), cache')
      | inl ls =>
          match ValidateLabels vContext ls stream with
          | Some e => (("", Some e), cache')
          | None =>
              let lsVal := labelsString ls in
              ((lsVal, None), lru_Add maxLabelCacheSize key lsVal cache')
          end
      end
  end.

(** *** The entry loop of [Push] (lines 266-277) *)

Record entryState := mkEntryState {
  e_entries : list Entry;      (* the array behind [stream.Entries] *)
  e_n : nat;
  e_size : nat;                (* validatedSamplesSize *)
  e_count : nat;               (* validatedSamplesCount *)
  e_err : option error;        (* validationErr *)
  e_calls : list call
}.

Definition entry_body (vContext : validationContext) (labels : string)
    (entry : Entry) (st : entryState) : entryState :=
  match ValidateEntry vContext labels entry with
  | Some e =>
      {| e_entries := e_entries st; e_n := e_n st; e_size := e_size st;
         e_count := e_count st; e_err := Some e;
         e_calls := e_calls st ++ [CallValidateEntry labels entry (Some e)] |}
  | None =>
      {| e_entries := <[e_n st := entry]> (e_entries st);
         e_n := S (e_n st);
         e_size := e_size st + len (Line entry);
         e_count := S (e_count st);
         e_err := e_err st;
         e_calls := e_calls st ++ [CallValidateEntry labels entry None] |}
  end.

Fixpoint entry_loop (vContext : validationContext) (labels : string)
    (todo i : nat) (st : entryState) : entryState :=
  match todo with
  | 0 => st
  | S todo' =>
      match e_entries st !! i with
      | Some entry => entry_loop vContext labels todo' (S i) (entry_body vContext labels entry st)
      | None => st
      end
  end.

(** [bytes := 0; for _, e := range stream.Entries { bytes += len(e.Line) }] *)
Definition entries_bytes (es : list Entry) : nat :=
  fold_left (fun bytes e => bytes + len (Line e)) es 0.

(** *** One iteration of [for _, stream := range req.Streams] (lines 245-281)

    [iteration] works on the value of the range variable and returns the value
    the variable is left with; [a] is the address of the variable, which is
    what [&stream] evaluates to. *)
Definition iteration (vContext : validationContext) (tenant : string) (a : addr)
    (stream0 : Stream) (st : pushState) : Stream * pushState :=
  if (length (Entries stream0) =? 0) then (stream0, st)
  else
    let '(stream1, m1) := truncateLines vContext stream0 (metrics st) in
    let '((labels, perr), cache') :=
      parseStreamLabels vContext (Labels stream1) stream1 (labelCache st) in
    let stream2 := {| Labels := labels; Entries := Entries stream1 |} in
    let log1 := calls st ++ [CallParseStreamLabels (Labels stream1) labels perr] in
    match perr with
    | Some e =>
        (stream2,
         {| labelCache := cache';
            ingestionRateLimiter := ingestionRateLimiter st;
            metrics :=
              counter_add DiscardedBytes InvalidLabels tenant (entries_bytes (Entries stream2))
                (counter_add DiscardedSamples InvalidLabels tenant (length (Entries stream2)) m1);
            store := store st; next_addr := next_addr st;
            streams := streams st; keys := keys st;
            validatedSamplesSize := validatedSamplesSize st;
            validatedSamplesCount := validatedSamplesCount st;
            validationErr := Some e;
            calls := log1 |})
    | None =>
        let es := entry_loop vContext labels (length (Entries stream2)) 0
                    (mkEntryState (Entries stream2) 0 (validatedSamplesSize st)
                       (validatedSamplesCount st) (validationErr st) log1) in
        let stream3 := {| Labels := labels; Entries := take (e_n es) (e_entries es) |} in
        (stream3,
         {| labelCache := cache';
            ingestionRateLimiter := ingestionRateLimiter st;
            metrics := m1;
            store := store st; next_addr := next_addr st;
            streams := streams st ++ [mkStreamTracker a 0 0];
            keys := keys st ++ [TokenFor tenant (Labels stream3)];
            validatedSamplesSize := e_size es;
            validatedSamplesCount := e_count es;
            validationErr := e_err es;
            calls := e_calls es |})
    end.

Definition write_cell (a : addr) (v : Stream) (st : pushState) : pushState :=
  {| labelCache := labelCache st;
     ingestionRateLimiter := ingestionRateLimiter st;
     metrics := metrics st;
     store := <[a := v]> (store st); next_addr := next_addr st;
     streams := streams st; keys := keys st;
     validatedSamplesSize := validatedSamplesSize st;
     validatedSamplesCount := validatedSamplesCount st;
     validationErr := validationErr st;
     calls := calls st |}.

(** A new cell. *)
Definition alloc (st : pushState) : addr * pushState :=
  (next_addr st,
   {| labelCache := labelCache st;
      ingestionRateLimiter := ingestionRateLimiter st;
      metrics := metrics st;
      store := store st; next_addr := S (next_addr st);
      streams := streams st; keys := keys st;
      validatedSamplesSize := validatedSamplesSize st;
      validatedSamplesCount := validatedSamplesCount st;
      validationErr := validationErr st;
      calls := calls st |}).

(** The loop over [req.Streams]: each iteration assigns the next element to
    the range variable, runs the body, and leaves its value in the cell. *)
Fixpoint prepare_loop (mode : rangeVar) (vContext : validationContext)
    (tenant : string) (a : addr) (req : list Stream) (st : pushState) : pushState :=
  match req with
  | [] => st
  | s :: req' =>
      let '(a', st1) := match mode with
                        | PerLoop => (a, st)
                        | PerIteration => alloc st
                        end in
      let '(v, st2) := iteration vContext tenant a' s st1 in
      prepare_loop mode vContext tenant a' req' (write_cell a' v st2)
  end.

(** *** The ring loop of [Push] (lines 296-313)

    [&streams[i]] is the index [i]: the slice [streams] is not appended to
    any more once the loop over the request has ended. *)
Record ringState := mkRingState {
  r_streams : list streamTracker;
  streamsByIngester : gmap string (list nat);
  descByIngester : gmap string InstanceDesc
}.

Definition store_buckets (rs : ReplicationSet) (t : streamTracker) : streamTracker :=
  {| stream := stream t;
     successBucket := int32 (Z.of_nat (length (Instances rs)) - MaxErrors rs);
     failureBucket := int32 (MaxErrors rs) |}.

(** The body of [for _, ingester := range replicationSet.Instances]. *)
Definition add_ingester (i : nat) (st : ringState) (ingester : InstanceDesc) : ringState :=
  {| r_streams := r_streams st;
     streamsByIngester :=
       <[Addr ingester := default [] (streamsByIngester st !! Addr ingester) ++ [i]]>
         (streamsByIngester st);
     descByIngester := <[Addr ingester := ingester]> (descByIngester st) |}.

Fixpoint ring_loop (ring : Z -> ReplicationSet + error) (i : nat) (ks : list Z)
    (st : ringState) : ringState + error :=
  match ks with
  | [] => inl st
  | key :: ks' =>
      match ring key with
      | inr e => inr e
      | inl replicationSet =>
          let st1 := {| r_streams := alter (store_buckets replicationSet) i (r_streams st);
                        streamsByIngester := streamsByIngester st;
                        descByIngester := descByIngester st |} in
          ring_loop ring (S i) ks' (fold_left (add_ingester i) (Instances replicationSet) st1)
      end
  end.

(** *** The fan-out (lines 315-341 and [sendToIngester]) *)

(** Where a task stands.  A task is the goroutine started for one address;
    every step below is one atomic operation, one channel operation, or the
    RPC.  [i] is the index of the loop over the task's [streams]. *)
Inductive pc :=
  | PcCall                                  (* before [executePushRequest] *)
  | PcBucket (e : option error) (i : nat)   (* head of [for i := range streams] *)
  | PcPending (i : nat)                     (* before [pushTracker.pending.Dec()] *)
  | PcSendDone (i : nat)                    (* before [pushTracker.done <- struct{}{}] *)
  | PcSwap (e : error) (i : nat)            (* before [pushTracker.failed.Swap(true)] *)
  | PcSendErr (e : error) (i : nat)         (* before [pushTracker.err <- err] *)
  | PcExit.

Record task := mkTask {
  t_ingester : InstanceDesc;
  t_streams : list nat;
  t_pc : pc
}.

(** What [executePushRequest] meets: no client for the address, or the reply
    of the ingester to the [Push] RPC. *)
Inductive rpcOutcome :=
  | NoClient (e : error)
  | Replied (e : option error).

Definition rpc_error (o : rpcOutcome) : option error :=
  match o with NoClient e => Some e | Replied e => e end.

Record fanout := mkFanout {
  f_store : gmap addr Stream;
  f_streams : list streamTracker;
  f_tracker : pushTracker;
  f_tasks : gmap string task;
  f_rpcs : list (string * list Stream);     (* the RPCs issued, in order *)
  f_appends : gmap string nat;              (* ingester_appends_total *)
  f_append_failures : gmap string nat;      (* ingester_append_failures_total *)
  f_validationErr : option error;
  f_result : option (option PushResponse * option error)   (* what [Push] returned *)
}.

Definition zero_Stream : Stream := mkStream "" [].

(** [payload[i] = *s.stream] *)
Definition payload_of (st : gmap addr Stream) (trackers : list streamTracker)
    (ptrs : list nat) : list Stream :=
  (fun i => match trackers !! i with
            | Some s => default zero_Stream (st !! stream s)
            | None => zero_Stream
            end) <$> ptrs.

Definition bump (k : string) (m : gmap string nat) : gmap string nat :=
  <[k := S (default 0 (m !! k))]> m.

Definition set_task (a : string) (t : task) (p : pc) (f : fanout) : fanout :=
  {| f_store := f_store f; f_streams := f_streams f; f_tracker := f_tracker f;
     f_tasks := <[a := mkTask (t_ingester t) (t_streams t) p]> (f_tasks f);
     f_rpcs := f_rpcs f; f_appends := f_appends f;
     f_append_failures := f_append_failures f;
     f_validationErr := f_validationErr f; f_result := f_result f |}.

Definition set_streams (l : list streamTracker) (f : fanout) : fanout :=
  {| f_store := f_store f; f_streams := l; f_tracker := f_tracker f;
     f_tasks := f_tasks f; f_rpcs := f_rpcs f; f_appends := f_appends f;
     f_append_failures := f_append_failures f;
     f_validationErr := f_validationErr f; f_result := f_result f |}.

Definition set_tracker (p : pushTracker) (f : fanout) : fanout :=
  {| f_store := f_store f; f_streams := f_streams f; f_tracker := p;
     f_tasks := f_tasks f; f_rpcs := f_rpcs f; f_appends := f_appends f;
     f_append_failures := f_append_failures f;
     f_validationErr := f_validationErr f; f_result := f_result f |}.

Definition set_result (r : option PushResponse * option error) (f : fanout) : fanout :=
  {| f_store := f_store f; f_streams := f_streams f; f_tracker := f_tracker f;
     f_tasks := f_tasks f; f_rpcs := f_rpcs f; f_appends := f_appends f;
     f_append_failures := f_append_failures f;
     f_validationErr := f_validationErr f; f_result := Some r |}.

(** [executePushRequest], as seen from the distributor. *)
Definition executePushRequest (o : rpcOutcome) (ingester : InstanceDesc)
    (payload : list Stream) (f : fanout) : fanout :=
  match o with
  | NoClient _ => f
  | Replied r =>
      {| f_store := f_store f; f_streams := f_streams f; f_tracker := f_tracker f;
         f_tasks := f_tasks f;
         f_rpcs := f_rpcs f ++ [(Addr ingester, payload)];
         f_appends := bump (Addr ingester) (f_appends f);
         f_append_failures :=
           match r with
           | Some _ => bump (Addr ingester) (f_append_failures f)
           | None => f_append_failures f
           end;
         f_validationErr := f_validationErr f; f_result := f_result f |}
  end.

Definition dec_success (t : streamTracker) : streamTracker :=
  {| stream := stream t; successBucket := Int32_Dec (successBucket t);
     failureBucket := failureBucket t |}.

Definition dec_failure (t : streamTracker) : streamTracker :=
  {| stream := stream t; successBucket := successBucket t;
     failureBucket := Int32_Dec (failureBucket t) |}.

(** One step of the task of address [a]; a task that cannot move (it has
    ended, or it waits on a full channel) leaves the state as it is. *)
Definition task_step (rpc : InstanceDesc -> list Stream -> rpcOutcome)
    (a : string) (f : fanout) : fanout :=
  match f_tasks f !! a with
  | None => f
  | Some t =>
      match t_pc t with
      | PcCall =>
          let payload := payload_of (f_store f) (f_streams f) (t_streams t) in
          let o := rpc (t_ingester t) payload in
          set_task a t (PcBucket (rpc_error o) 0)
            (executePushRequest o (t_ingester t) payload f)
      | PcBucket e i =>
          match t_streams t !! i with
          | None => set_task a t PcExit f
          | Some j =>
              match f_streams f !! j with
              | None => set_task a t PcExit f
              | Some s =>
                  match e with
                  | None =>
                      set_task a t
                        (if (0 <? successBucket (dec_success s))%Z
                         then PcBucket e (S i) else PcPending i)
                        (set_streams (<[j := dec_success s]> (f_streams f)) f)
                  | Some e' =>
                      set_task a t
                        (if (0 <? failureBucket (dec_failure s))%Z
                         then PcBucket e (S i) else PcSwap e' i)
                        (set_streams (<[j := dec_failure s]> (f_streams f)) f)
                  end
              end
          end
      | PcPending i =>
          let p := Int32_Dec (pending (f_tracker f)) in
          set_task a t (if (p =? 0)%Z then PcSendDone i else PcBucket None (S i))
            (set_tracker {| done := done (f_tracker f); err := err (f_tracker f);
                            pending := p; failed := failed (f_tracker f) |} f)
      | PcSendDone i =>
          match chan_send tt (done (f_tracker f)) with
          | None => f
          | Some ch =>
              set_task a t (PcBucket None (S i))
                (set_tracker {| done := ch; err := err (f_tracker f);
                                pending := pending (f_tracker f);
                                failed := failed (f_tracker f) |} f)
          end
      | PcSwap e i =>
          set_task a t (if failed (f_tracker f) then PcBucket (Some e) (S i) else PcSendErr e i)
            (set_tracker {| done := done (f_tracker f); err := err (f_tracker f);
                            pending := pending (f_tracker f); failed := true |} f)
      | PcSendErr e i =>
          match chan_send e (err (f_tracker f)) with
          | None => f
          | Some ch =>
              set_task a t (PcBucket (Some e) (S i))
                (set_tracker {| done := done (f_tracker f); err := ch;
                                pending := pending (f_tracker f);
                                failed := failed (f_tracker f) |} f)
          end
      | PcExit => f
      end
  end.

(** What can happen next: a task moves, or the [select] of [Push] takes one
    of its three cases ([CtxDone e]: the caller's context is done and
    [ctx.Err()] is [e]). *)
Inductive event :=
  | Task (a : string)
  | RecvErr
  | RecvDone
  | CtxDone (e : error).

Definition step (rpc : InstanceDesc -> list Stream -> rpcOutcome) (f : fanout)
    (ev : event) : fanout :=
  match ev with
  | Task a => task_step rpc a f
  | RecvErr =>
      match f_result f, chan_recv (err (f_tracker f)) with
      | None, Some (e, ch) =>
          set_result (None, Some e)
            (set_tracker {| done := done (f_tracker f); err := ch;
                            pending := pending (f_tracker f);
                            failed := failed (f_tracker f) |} f)
      | _, _ => f
      end
  | RecvDone =>
      match f_result f, chan_recv (done (f_tracker f)) with
      | None, Some (_, ch) =>
          set_result (Some EmptyResponse, f_validationErr f)
            (set_tracker {| done := ch; err := err (f_tracker f);
                            pending := pending (f_tracker f);
                            failed := failed (f_tracker f) |} f)
      | _, _ => f
      end
  | CtxDone e =>
      match f_result f with
      | None => set_result (None, Some e) f
      | Some _ => f
      end
  end.

(** A run of the fan-out under a schedule. *)
Definition run (rpc : InstanceDesc -> list Stream -> rpcOutcome)
    (sched : list event) (f : fanout) : fanout :=
  fold_left (step rpc) sched f.

(** The tasks started by [for addr := range streamsByIngester]. *)
Definition start_tasks (st : ringState) : gmap string task :=
  map_imap (fun a ptrs =>
              Some (mkTask (default (mkInstanceDesc "" "") (descByIngester st !! a))
                      ptrs PcCall))
    (streamsByIngester st).

(** *** Push, up to the [select] *)

Inductive started :=
  | Returned (resp : option PushResponse) (e : option error)
  | FanOut (f : fanout).

Record Distributor := mkDistributor {
  d_labelCache : lruCache;
  d_ingestionRateLimiter : rateLimiter;
  d_metrics : counters
}.

Definition enter (d : Distributor) : pushState :=
  mkPushState _ (d_labelCache d) (d_ingestionRateLimiter d) (d_metrics d)
    ∅ 0 [] [] 0 0 None [].

Definition rate_limited (tenant : string) (lim : rateLimiter) (st : pushState) : pushState :=
  {| labelCache := labelCache st;
     ingestionRateLimiter := lim;
     metrics :=
       counter_add DiscardedBytes RateLimited tenant (validatedSamplesSize st)
         (counter_add DiscardedSamples RateLimited tenant (validatedSamplesCount st)
            (metrics st));
     store := store st; next_addr := next_addr st;
     streams := streams st; keys := keys st;
     validatedSamplesSize := validatedSamplesSize st;
     validatedSamplesCount := validatedSamplesCount st;
     validationErr := validationErr st;
     calls := calls st |}.

Definition allowed (lim : rateLimiter) (st : pushState) : pushState :=
  {| labelCache := labelCache st;
     ingestionRateLimiter := lim;
     metrics := metrics st;
     store := store st; next_addr := next_addr st;
     streams := streams st; keys := keys st;
     validatedSamplesSize := validatedSamplesSize st;
     validatedSamplesCount := validatedSamplesCount st;
     validationErr := validationErr st;
     calls := calls st |}.

(** The state [Push] is in when the loop over [req.Streams] has ended. *)
Definition prepared (mode : rangeVar) (now1 : Z) (tenant : string)
    (req : PushRequest) (d : Distributor) : pushState :=
  let '(a, st0) := match mode with
                   | PerLoop => alloc (enter d)
                   | PerIteration => (0, enter d)
                   end in
  prepare_loop mode (getValidationContextForTime now1 tenant) tenant a req st0.

(** [Push] from its entry to the point where it waits in [select]:
    [now1] and [now2] are the two readings of [time.Now()], [ring] is
    [d.ingestersRing.Get(key, ring.Write, ...)] as it answers during the
    request.  The result is the state the distributor is left in, and either
    what [Push] returned or the fan-out it started. *)
Definition Push_start (mode : rangeVar) (ctx : context) (now1 now2 : Z)
    (ring : Z -> ReplicationSet + error) (req : PushRequest) (d : Distributor)
    : pushState * started :=
  match TenantID ctx with
  | inr e => (enter d, Returned None (Some e))
  | inl tenant =>
      if length req =? 0 then (enter d, Returned (Some EmptyResponse) None)
      else
        let st := prepared mode now1 tenant req d in
        if length (streams st) =? 0
        then (st, Returned (Some EmptyResponse) (validationErr st))
        else
          let '(ok, lim) :=
            AllowN (ingestionRateLimiter st) now2 tenant (validatedSamplesSize st) in
          if negb ok then
            (rate_limited tenant lim st,
             Returned None
               (Some (Errorf StatusTooManyRequests RateLimitedErrorMsg
                        [ArgString tenant;
                         ArgInt (Limit lim now2 tenant);
                         ArgInt (Z.of_nat (validatedSamplesCount st));
                         ArgInt (Z.of_nat (validatedSamplesSize st))])))
          else
            let st' := allowed lim st in
            match ring_loop ring 0 (keys st') (mkRingState (streams st') ∅ ∅) with
            | inr e => (st', Returned None (Some e))
            | inl rs =>
                (st',
                 FanOut
                   {| f_store := store st';
                      f_streams := r_streams rs;
                      f_tracker :=
                        {| done := make_chan; err := make_chan;
                           pending := int32 (Z.of_nat (length (streams st')));
                           failed := false |};
                      f_tasks := start_tasks rs;
                      f_rpcs := [];
                      f_appends := ∅;
                      f_append_failures := ∅;
                      f_validationErr := validationErr st';
                      f_result := None |})
            end
  end.

(** What [Push] returns under a schedule of the fan-out, if it has returned
    by the end of the schedule. *)
Definition Push_result (s : started) (rpc : InstanceDesc -> list Stream -> rpcOutcome)
    (sched : list event) : option (option PushResponse * option error) :=
  match s with
  | Returned resp e => Some (resp, e)
  | FanOut f => f_result (run rpc sched f)
  end.

(** The state of the fan-out at the end of a schedule. *)
Definition Push_fanout (s : started) (rpc : InstanceDesc -> list Stream -> rpcOutcome)
    (sched : list event) : option fanout :=
  match s with
  | Returned _ _ => None
  | FanOut f => Some (run rpc sched f)
  end.

(** The RPCs issued for a request under a schedule. *)
Definition Push_rpcs (s : started) (rpc : InstanceDesc -> list Stream -> rpcOutcome)
    (sched : list event) : list (string * list Stream) :=
  match s with
  | Returned _ _ => []
  | FanOut f => f_rpcs (run rpc sched f)
  end.

End Push.

(** ** What the loops compute, stated on lists *)

(** The test of [truncateLines]: [maxSize != 0 && len(e.Line) > maxSize]. *)
Definition too_long (m : nat) (e : Entry) : bool :=
  negb (m =? 0) && (m <? len (Line e)).

Definition truncate_entry (m : nat) (e : Entry) : Entry :=
  if too_long m e then set_Line (slice_to m (Line e)) e else e.

Definition truncated_count (m : nat) (es : list Entry) : nat :=
  length (List.filter (too_long m) es).

(** The value [truncatedBytes] is left with: each truncated entry assigns its
    own difference to it. *)
Definition last_truncated_bytes (m : nat) (tb : nat) (es : list Entry) : nat :=
  fold_left (fun tb e => if too_long m e then len (Line e) - m else tb) es tb.

(** The cumulative sum, over the truncated entries, of the bytes cut off:
    what the spec asks the byte counter to advance by. *)
Definition cumulative_truncated_bytes (m : nat) (es : list Entry) : nat :=
  fold_right (fun e acc => (if too_long m e then len (Line e) - m else 0) + acc) 0 es.

Section Statements.
Context `{C : Collaborators}.

(** Whether [ValidateEntry] returns [nil]. *)
Definition accepts (vContext : validationContext) (labels : string) (e : Entry) : bool :=
  match ValidateEntry vContext labels e with
  | None => true
  | Some _ => false
  end.

Definition entry_call (vContext : validationContext) (labels : string) (e : Entry) : call :=
  CallValidateEntry labels e (ValidateEntry vContext labels e).

(** The entries that passed [ValidateEntry], in order: the surviving samples. *)
Definition accepted_entries (log : list call) : list Entry :=
  omap (fun c => match c with
                 | CallValidateEntry _ e None => Some e
                 | _ => None
                 end) log.

(** The label cache after a sequence of calls of [parseStreamLabels]. *)
Definition parse_all (cs : list (validationContext * string * Stream))
    (cache : lruCache) : lruCache :=
  fold_left (fun c '(v, k, s) => (parseStreamLabels v k s c).2) cs cache.

(** A fresh parse, validation and canonicalisation: [parseStreamLabels] on a
    cache that holds nothing. *)
Definition fresh_parse (vContext : validationContext) (key : string)
    (s : Stream) : string * option error :=
  (parseStreamLabels vContext key s []).1.

(** Every entry of the cache maps a raw label string to the canonical form of
    its parse, and that parse passed [ValidateLabels] for some tenant's limits
    and some stream. *)
Definition cache_valid (cache : lruCache) : Prop :=
  forall k v, (k, v) ∈ cache ->
    exists ls vContext s,
      ParseLabels k = inl ls /\ ValidateLabels vContext ls s = None /\
      v = labelsString ls.

(** What is recorded of a call of [ValidateEntry] when lines are truncated
    to [maxLineSize]: the entry is short, and the result is the validator's
    verdict on it. *)
Definition short_call (vContext : validationContext) (c : call) : Prop :=
  match c with
  | CallValidateEntry labels e r =>
      len (Line e) <= maxLineSize vContext /\ r = ValidateEntry vContext labels e
  | CallParseStreamLabels _ _ _ => True
  end.

End Statements.

(** ** The two channels of the tracker during the fan-out *)

Definition at_SendDone (p : pc) : bool :=
  match p with PcSendDone _ => true | _ => false end.

Definition at_SendErr (p : pc) : bool :=
  match p with PcSendErr _ _ => true | _ => false end.

(** No task is at a point of [P]. *)
Definition none_at (P : pc -> bool) (tasks : gmap string task) : Prop :=
  forall a t, tasks !! a = Some t -> P (t_pc t) = false.

(** At most one task is at a point of [P]. *)
Definition at_most_one_at (P : pc -> bool) (tasks : gmap string task) : Prop :=
  forall a b ta tb,
    tasks !! a = Some ta -> tasks !! b = Some tb ->
    P (t_pc ta) = true -> P (t_pc tb) = true -> a = b.

(** The [done] channel, with [k] steps left to run: the pending counter
    cannot wrap around within [k] decrements; while it is positive nothing
    has been sent and no task is about to send; at most one task is about to
    send, and none once the value has been sent. *)
Definition done_inv (k : Z) (f : fanout) : Prop :=
  (- 2 ^ 31 + k <= pending (f_tracker f) < 2 ^ 31)%Z /\
  at_most_one_at at_SendDone (f_tasks f) /\
  ((0 < pending (f_tracker f))%Z ->
     sends (done (f_tracker f)) = 0 /\ none_at at_SendDone (f_tasks f)) /\
  (sends (done (f_tracker f)) = 1 -> none_at at_SendDone (f_tasks f)) /\
  sends (done (f_tracker f)) <= 1.

(** The [err] channel: while the tracker has not failed nothing has been sent
    and no task is about to send; at most one task is about to send, and none
    once the value has been sent. *)
Definition err_inv (f : fanout) : Prop :=
  at_most_one_at at_SendErr (f_tasks f) /\
  (failed (f_tracker f) = false ->
     sends (err (f_tracker f)) = 0 /\ none_at at_SendErr (f_tasks f)) /\
  (sends (err (f_tracker f)) = 1 -> none_at at_SendErr (f_tasks f)) /\
  sends (err (f_tracker f)) <= 1.

(** ** A small instance of the collaborators

    Used to run the model on concrete requests, in the way the package's
    tests run the distributor against a mock ring and mock ingesters. *)
Module Example.

(** The tenant id is carried by the context, or missing. *)
Definition ex_TenantID (ctx : option string) : string + error :=
  match ctx with
  | Some t => inl t
  | None => inr (Err "no org id")
  end.

(** A label set is accepted by the parser when it is written in braces; its
    canonical form has no blanks. *)
Definition ex_ParseLabels (key : string) : list ascii + error :=
  match key with
  | String "{"%char _ =>
      inl (List.filter (fun c => negb (Ascii.eqb c " ")) (list_ascii_of_string key))
  | _ => inr (Err "syntax error")
  end.

Definition ex_ValidateLabels (vContext : validationContext) (ls : list ascii)
    (s : Stream) : option error :=
  if maxLabelValueLength vContext <? length ls
  then Some (Errorf StatusBadRequest "label value too long"
               [ArgString (string_of_list_ascii ls)])
  else None.

(** Modelled from the spec: [ValidateEntry] is defined in validator.go, which
    is not part of the sources at hand.  The spec: it "fails with InvalidEntry
    (with a discriminated sub-reason) if the line length exceeds max_line_size
    and truncation is disabled, the timestamp is older than
    reject_old_samples_max_age, or newer than creation_grace_period in the
    future". *)
Definition ex_ValidateEntry (vContext : validationContext) (labels : string)
    (e : Entry) : option error :=
  if (Timestamp e <? rejectOldSampleMaxAge vContext)%Z
  then Some (Errorf StatusBadRequest "greater_than_max_sample_age" [ArgString labels])
  else if (creationGracePeriod vContext <? Timestamp e)%Z
  then Some (Errorf StatusBadRequest "too_far_in_future" [ArgString labels])
  else if negb (maxLineSize vContext =? 0) && (maxLineSize vContext <? len (Line e))
          && negb (maxLineSizeTruncate vContext)
  then Some (Errorf StatusBadRequest LineTooLong [ArgString labels])
  else None.

Definition ex_TokenFor (tenant labels : string) : Z :=
  fold_right (fun c h => (Z.of_nat (nat_of_ascii c) + 31 * h) mod 2 ^ 32)%Z 7%Z
    (list_ascii_of_string (tenant ++ labels)).

(** A token bucket that is never refilled: a request is allowed when the
    tokens left cover it. *)
Definition ex_AllowN (tokens : nat) (now : Z) (tenant : string) (n : nat) : bool * nat :=
  if n <=? tokens then (true, tokens - n) else (false, tokens).

(** The instance for a tenant whose limits are [limits] and whose configured
    rate is [rate]. *)
Definition collab (limits : validationContext) (rate : Z) : Collaborators :=
  {| context := option string;
     TenantID := ex_TenantID;
     getValidationContextForTime := fun _ tenant =>
       {| rejectOldSampleMaxAge := rejectOldSampleMaxAge limits;
          creationGracePeriod := creationGracePeriod limits;
          maxLineSize := maxLineSize limits;
          maxLineSizeTruncate := maxLineSizeTruncate limits;
          maxLabelNamesPerSeries := maxLabelNamesPerSeries limits;
          maxLabelNameLength := maxLabelNameLength limits;
          maxLabelValueLength := maxLabelValueLength limits;
          userID := tenant |};
     labelSet := list ascii;
     ParseLabels := ex_ParseLabels;
     labelsString := string_of_list_ascii;
     ValidateLabels := ex_ValidateLabels;
     ValidateEntry := ex_ValidateEntry;
     TokenFor := ex_TokenFor;
     InvalidLabelsErrorMsg := "error parsing labels %s with error: %s";
     RateLimitedErrorMsg :=
       "Ingestion rate limit exceeded for user %s (limit: %d bytes/sec) while attempting to ingest '%d' lines totaling '%d' bytes";
     rateLimiter := nat;
     AllowN := ex_AllowN;
     Limit := fun _ _ _ => rate |}.

(** Limits that truncate lines longer than [m] bytes, or reject them. *)
Definition limits (m : nat) (truncate : bool) : validationContext :=
  {| rejectOldSampleMaxAge := 0; creationGracePeriod := 1000;
     maxLineSize := m; maxLineSizeTruncate := truncate;
     maxLabelNamesPerSeries := 30; maxLabelNameLength := 1024;
     maxLabelValueLength := 2048; userID := "" |}.

(** The limits of a tenant that accepts at most 2 bytes of labels. *)
Definition strict_limits : validationContext :=
  {| rejectOldSampleMaxAge := 0; creationGracePeriod := 1000;
     maxLineSize := 0; maxLineSizeTruncate := false;
     maxLabelNamesPerSeries := 30; maxLabelNameLength := 1024;
     maxLabelValueLength := 2; userID := "u" |}.

Definition ingester (a : string) : InstanceDesc := mkInstanceDesc a "zone".

(** A ring of six ingesters with replication factor 3: the stream [{a}] of
    tenant [t] lives on i1, i2, i3, every other stream on i4, i5, i6; one
    failure is tolerated. *)
Definition ring3 (key : Z) : ReplicationSet + error :=
  if (key =? ex_TokenFor "t" "{a}")%Z
  then inl (mkReplicationSet [ingester "i1"; ingester "i2"; ingester "i3"] 1)
  else inl (mkReplicationSet [ingester "i4"; ingester "i5"; ingester "i6"] 1).

(** A ring with a single ingester. *)
Definition ring1 (key : Z) : ReplicationSet + error :=
  inl (mkReplicationSet [ingester "i1"] 0).

(** A ring that has lost the replicas of every stream but [{a}]. *)
Definition ring_down (key : Z) : ReplicationSet + error :=
  if (key =? ex_TokenFor "t" "{a}")%Z
  then inl (mkReplicationSet [ingester "i1"; ingester "i2"; ingester "i3"] 1)
  else inr (Err "at least 2 live replicas required, could only find 1").

Definition all_ok (i : InstanceDesc) (p : list Stream) : rpcOutcome := Replied None.

(** Ingester i1 fails, the others acknowledge. *)
Definition i1_fails (i : InstanceDesc) (p : list Stream) : rpcOutcome :=
  if bool_decide (Addr i = "i1") then Replied (Some (Err "i1: unavailable"))
  else Replied None.

(** A distributor that has just started, with [tokens] bytes in the bucket. *)
Definition distributor0 (l : validationContext) (rate : Z) (tokens : nat)
    : @Distributor (collab l rate) :=
  @mkDistributor (collab l rate) [] tokens counters_zero.

(** The limits as [Push] reads them for [tenant]. *)
Definition vcontext (m : nat) (truncate : bool) (tenant : string) : validationContext :=
  @getValidationContextForTime (collab (limits m truncate) 0) 0%Z tenant.

(** Two lines of 5 and 7 bytes. *)
Definition two_long_lines : Stream :=
  mkStream "{a}" [mkEntry 1 "abcde"; mkEntry 2 "abcdefg"].

(** A request of tenant [t]. *)
Definition ctx_t : option string := Some "t".

Definition stream_a : Stream := mkStream "{a}" [mkEntry 1 "hello"].
Definition stream_b : Stream := mkStream "{b}" [mkEntry 2 "world!"].

(** A stream whose labels do not parse, then a stream with an entry too far
    in the future and a good one. *)
Definition mixed_request : PushRequest :=
  [mkStream "not_a_labelset" [mkEntry 1 "x"];
   mkStream "{a}" [mkEntry 5000 "late"; mkEntry 2 "fine"]].

(** [k] steps of the task of address [a]. *)
Definition steps (k : nat) (a : string) : list event := repeat (Task a) k.

End Example.

(** * Statements about the ring loop and the fan-out *)

Section MoreStatements.
Context `{C : Collaborators}.

(** The error of [parseStreamLabels] for a raw label string that does not
    parse. *)
Definition labels_error (key : string) : option error :=
  match ParseLabels key with
  | inr e => Some (Errorf StatusBadRequest InvalidLabelsErrorMsg [ArgString key; ArgError e])
  | inl _ => None
  end.

End MoreStatements.

(** The entries of a stream as [truncateLines] leaves them. *)
Definition truncated_entries (vContext : validationContext) (s : Stream) : list Entry :=
  Entries (truncateLines vContext s counters_zero).1.

(** ** The ring loop, stated on lists *)

(** The pairs (index of the key, address of a replica) in the order in which
    the ring loop meets them, the first key having index [i]. *)
Fixpoint ring_pairs (ring : Z -> ReplicationSet + error) (i : nat) (ks : list Z)
    : list (nat * string) :=
  match ks with
  | [] => []
  | key :: ks' =>
      match ring key with
      | inl rs => map (fun ing => (i, Addr ing)) (Instances rs) ++ ring_pairs ring (S i) ks'
      | inr _ => []
      end
  end.

(** The indices paired with address [a], in order. *)
Definition routed_to (a : string) (pairs : list (nat * string)) : list nat :=
  map fst (List.filter (fun p => bool_decide (p.2 = a)) pairs).

(** The two maps of the ring loop, given the pairs met so far: an address has
    an entry when it has been met, its list is the indices it was met with,
    and its descriptor carries that address. *)
Definition grouped (pairs : list (nat * string)) (st : ringState) : Prop :=
  forall a,
    streamsByIngester st !! a
    = match routed_to a pairs with [] => None | l => Some l end /\
    (is_Some (descByIngester st !! a) <-> routed_to a pairs <> []) /\
    (forall d, descByIngester st !! a = Some d -> Addr d = a).

(** ** More on the fan-out *)

(** Neither channel holds more values than were sent on it. *)
Definition chans_inv (f : fanout) : Prop :=
  length (buf (done (f_tracker f))) <= sends (done (f_tracker f)) /\
  length (buf (err (f_tracker f))) <= sends (err (f_tracker f)).

(** The task of address [a] is at a send that finds its channel full. *)
Definition blocked (a : string) (f : fanout) : Prop :=
  exists t, f_tasks f !! a = Some t /\
    ((exists i, t_pc t = PcSendDone i /\ chan_send tt (done (f_tracker f)) = None) \/
     (exists e i, t_pc t = PcSendErr e i /\ chan_send e (err (f_tracker f)) = None)).

(** The RPCs and the tasks: a task is filed under the address of its
    ingester; an address is in the log of RPCs at most once, and only when its
    task has made its call; a task that has made its call and had a client is
    in the log; the two counters of an address count its RPC and its failed
    RPC. *)
Definition rpc_inv (rpc : InstanceDesc -> list Stream -> rpcOutcome) (f : fanout) : Prop :=
  (forall a t, f_tasks f !! a = Some t -> Addr (t_ingester t) = a) /\
  NoDup (map fst (f_rpcs f)) /\
  (forall a, a ∈ map fst (f_rpcs f) ->
     exists t, f_tasks f !! a = Some t /\ t_pc t <> PcCall) /\
  (forall a t, f_tasks f !! a = Some t -> t_pc t <> PcCall ->
     (forall ing p, Addr ing = a -> exists r, rpc ing p = Replied r) ->
     a ∈ map fst (f_rpcs f)) /\
  (forall a, default 0 (f_appends f !! a)
             = if bool_decide (a ∈ map fst (f_rpcs f)) then 1 else 0) /\
  (forall a, default 0 (f_append_failures f !! a) <= default 0 (f_appends f !! a)).

(** The task of address [a] has made its call. *)
Definition past_call (a : string) (f : fanout) : Prop :=
  exists t, f_tasks f !! a = Some t /\ t_pc t <> PcCall.

(** The error a task carries, if its RPC has failed. *)
Definition pc_error (p : pc) : option error :=
  match p with
  | PcBucket (Some e) _ => Some e
  | PcSwap e _ => Some e
  | PcSendErr e _ => Some e
  | _ => None
  end.

(** [e] is the error that [executePushRequest] returns to a task of the
    fan-out [f0] that runs in [sched]: the task of some address, called with
    its ingester and with its payload, the streams its trackers point to. *)
Definition call_failure (rpc : InstanceDesc -> list Stream -> rpcOutcome)
    (f0 : fanout) (sched : list event) (e : error) : Prop :=
  exists a t, f_tasks f0 !! a = Some t /\ Task a ∈ sched /\
    rpc_error (rpc (t_ingester t) (payload_of (f_store f0) (f_streams f0) (t_streams t)))
    = Some e.

(** Where the errors of the fan-out come from: those the tasks carry and
    those on the [err] channel are errors of calls (errors of [R]); the one
    [Push] returns without a response is one of these or the error of the
    caller's context (an error of [S]). *)
Definition err_src (R S : error -> Prop) (f : fanout) : Prop :=
  (forall a t e, f_tasks f !! a = Some t -> pc_error (t_pc t) = Some e -> R e) /\
  (forall e, e ∈ buf (err (f_tracker f)) -> R e) /\
  (forall e, f_result f = Some (None, Some e) -> R e \/ S e).

(** What the call of a task is made of is what it was at the start [f0]:
    the store, the addresses the trackers hold, the ingester and the
    trackers of every task. *)
Definition calls_frame (f0 f : fanout) : Prop :=
  f_store f = f_store f0 /\
  stream <$> f_streams f = stream <$> f_streams f0 /\
  forall b, (fun t => (t_ingester t, t_streams t)) <$> f_tasks f !! b
            = (fun t => (t_ingester t, t_streams t)) <$> f_tasks f0 !! b.

(** The state of the fan-out without what only [Push] itself reads or
    writes: the values waiting in the two channels and the result. *)
Definition tasks_view (f : fanout) : fanout :=
  {| f_store := f_store f; f_streams := f_streams f;
     f_tracker := {| done := mkChan [] (sends (done (f_tracker f)));
                     err := mkChan [] (sends (err (f_tracker f)));
                     pending := pending (f_tracker f);
                     failed := failed (f_tracker f) |};
     f_tasks := f_tasks f; f_rpcs := f_rpcs f; f_appends := f_appends f;
     f_append_failures := f_append_failures f;
     f_validationErr := f_validationErr f; f_result := None |}.

Definition is_Task (ev : event) : bool :=
  match ev with Task _ => true | _ => false end.

(** The task is on the path of a successful RPC, before its end. *)
Definition on_success_path (p : pc) : bool :=
  match p with
  | PcBucket None _ | PcPending _ | PcSendDone _ => true
  | _ => false
  end.

(** An RPC of the log was acknowledged. *)
Definition acknowledged (rpc : InstanceDesc -> list Stream -> rpcOutcome) (f : fanout) : Prop :=
  exists ing p, (Addr ing, p) ∈ f_rpcs f /\ rpc ing p = Replied None.

(** Nothing on the side of success happens before an acknowledgement: not a
    task on the path of a successful RPC, not a decrement of the pending
    counter below its first value [n], not a value on [done], not a response
    of [Push]. *)
Definition ack_inv (rpc : InstanceDesc -> list Stream -> rpcOutcome) (n : Z)
    (f : fanout) : Prop :=
  (pending (f_tracker f) = n /\ sends (done (f_tracker f)) = 0 /\
   (forall resp e, f_result f <> Some (Some resp, e)) /\
   (forall a t, f_tasks f !! a = Some t -> on_success_path (t_pc t) = false)) \/
  acknowledged rpc f.

(** ** More requests for the small instance *)
Module Example2.
Import Example.

(** Two streams without entries. *)
Definition empty_streams : PushRequest := [mkStream "{a}" []; mkStream "{b}" []].

(** Two streams whose labels do not parse, with one and two entries. *)
Definition unparsable : PushRequest :=
  [mkStream "x" [mkEntry 1 "ab"]; mkStream "y" [mkEntry 2 "cde"; mkEntry 3 "f"]].

(** The three tasks of a stream on i1, i2, i3 run to their end, [Push]
    reading [err] after the first and the caller giving up meanwhile. *)
Definition busy_schedule : list event :=
  steps 6 "i1" ++ [RecvErr; CtxDone (Err "context canceled")]
  ++ steps 6 "i2" ++ steps 6 "i3" ++ [RecvDone].

End Example2.

(** * Properties *)

(** ** Strings and lists *)

Lemma len_slice_to (n : nat) (s : string) : n <= len s -> len (slice_to n s) = n.
Proof.
  unfold len, slice_to. revert n.
  induction s as [|c s IH]; intros [|n] Hn; simpl in *; try lia; try reflexivity.
  f_equal. apply IH. lia.
Qed.

Lemma slice_to_all (n : nat) (s : string) : len s <= n -> slice_to n s = s.
Proof.
  unfold len, slice_to. revert n.
  induction s as [|c s IH]; intros [|n] Hn; simpl in *; try lia; try reflexivity.
  f_equal. apply IH. lia.
Qed.

Lemma insert_middle {A : Type} (l1 l2 : list A) (x y : A) :
  <[length l1 := y]> (l1 ++ x :: l2) = l1 ++ y :: l2.
Proof.
  rewrite <- (Nat.add_0_r (length l1)) at 1. rewrite insert_app_r. reflexivity.
Qed.

(** ** truncateLines *)

(** The loop, started at index [length before] on the array
    [before ++ rest], rewrites [rest] entry by entry. *)
Lemma truncateLines_loop_spec (m : nat) (rest : list Entry) :
  forall (before : list Entry) (ts tb : nat),
    truncateLines_loop m (length rest) (length before)
      (mkTruncState (before ++ rest) ts tb)
    = mkTruncState (before ++ map (truncate_entry m) rest)
        (ts + truncated_count m rest) (last_truncated_bytes m tb rest).
Proof.
  induction rest as [|e rest IH]; intros before ts tb.
  - simpl. unfold truncated_count. simpl. f_equal. lia.
  - cbn [length truncateLines_loop t_entries].
    rewrite list_lookup_middle by reflexivity.
    unfold truncateLines_body, truncated_count, truncate_entry.
    fold (too_long m e).
    cbn [map List.filter last_truncated_bytes fold_left t_entries truncatedSamples].
    destruct (too_long m e) eqn:He.
    + rewrite insert_middle.
      specialize (IH (before ++ [set_Line (slice_to m (Line e)) e]) (S ts)
                    (len (Line e) - m)).
      rewrite length_app, Nat.add_1_r, <- app_assoc in IH. simpl in IH.
      rewrite IH. rewrite <- app_assoc. simpl. f_equal.
      unfold truncated_count. lia.
    + specialize (IH (before ++ [e]) ts tb).
      rewrite length_app, Nat.add_1_r, <- app_assoc in IH. simpl in IH.
      rewrite IH. rewrite <- app_assoc. reflexivity.
Qed.

(** With truncation enabled every entry is replaced, at its own index, by its
    truncation; the sample counter advances by the number of truncated
    entries, the byte counter by the difference of the last one. *)
Lemma truncateLines_enabled (vContext : validationContext) (s : Stream) (c : counters) :
  maxLineSizeTruncate vContext = true ->
  truncateLines vContext s c
  = ({| Labels := Labels s;
        Entries := map (truncate_entry (maxLineSize vContext)) (Entries s) |},
     counter_add MutatedBytes LineTooLong (userID vContext)
       (last_truncated_bytes (maxLineSize vContext) 0 (Entries s))
       (counter_add MutatedSamples LineTooLong (userID vContext)
          (truncated_count (maxLineSize vContext) (Entries s)) c)).
Proof.
  intros Ht. unfold truncateLines. rewrite Ht. cbn [negb].
  pose proof (truncateLines_loop_spec (maxLineSize vContext) (Entries s) [] 0 0) as H.
  simpl in H. rewrite H. reflexivity.
Qed.

Lemma truncateLines_disabled (vContext : validationContext) (s : Stream) (c : counters) :
  maxLineSizeTruncate vContext = false -> truncateLines vContext s c = (s, c).
Proof. intros Ht. unfold truncateLines. rewrite Ht. reflexivity. Qed.

Lemma truncate_entry_len (m : nat) (e : Entry) :
  m <> 0 -> len (Line (truncate_entry m e)) <= m.
Proof.
  intros Hm. unfold truncate_entry, too_long.
  destruct (negb (m =? 0) && (m <? len (Line e))) eqn:Hc.
  - apply andb_true_iff in Hc as [_ Hlt]. apply Nat.ltb_lt in Hlt.
    simpl. rewrite len_slice_to; lia.
  - apply andb_false_iff in Hc as [Hc|Hc].
    + apply negb_false_iff, Nat.eqb_eq in Hc. contradiction.
    + apply Nat.ltb_ge in Hc. exact Hc.
Qed.

(** A line longer than [m] is cut to exactly [m] bytes. *)
Lemma truncate_entry_exact (m : nat) (e : Entry) :
  m <> 0 -> m < len (Line e) -> len (Line (truncate_entry m e)) = m.
Proof.
  intros Hm Hlt. unfold truncate_entry, too_long.
  assert (negb (m =? 0) && (m <? len (Line e)) = true) as ->.
  { apply andb_true_iff. split.
    - apply negb_true_iff, Nat.eqb_neq. exact Hm.
    - apply Nat.ltb_lt. exact Hlt. }
  simpl. apply len_slice_to. lia.
Qed.

(** A line of at most [m] bytes is left as it is. *)
Lemma truncate_entry_short (m : nat) (e : Entry) :
  len (Line e) <= m -> truncate_entry m e = e.
Proof.
  intros Hle. unfold truncate_entry, too_long.
  destruct (m <? len (Line e)) eqn:Hlt.
  - apply Nat.ltb_lt in Hlt. lia.
  - rewrite andb_false_r. reflexivity.
Qed.

(** C4 (the byte counter): on a stream with a 5-byte and a 7-byte line and
    [max_line_size = 3], [truncateLines] cuts both lines to 3 bytes in place
    and advances the mutated-samples counter by 2, but it advances the
    mutated-bytes counter by 4, the bytes cut off the last truncated line,
    where the cumulative sum over the truncated entries is 6. *)
Theorem truncateLines_bytes_counter_keeps_last_difference :
  let r := truncateLines (Example.vcontext 3 true "t") Example.two_long_lines counters_zero in
  Entries r.1 = [mkEntry 1 "abc"; mkEntry 2 "abc"] /\
  r.2 MutatedSamples LineTooLong "t" = 2 /\
  r.2 MutatedBytes LineTooLong "t" = 4 /\
  cumulative_truncated_bytes 3 (Entries Example.two_long_lines) = 6.
Proof. vm_compute. repeat split. Qed.

(** ** The fan-out: at most one value on each channel *)


Lemma none_at_insert P (tasks : gmap string task) a t :
  none_at P tasks -> P (t_pc t) = false -> none_at P (<[a := t]> tasks).
Proof.
  intros Hn Hp b tb Hb. destruct (decide (a = b)) as [->|Hne].
  - rewrite lookup_insert_eq in Hb. injection Hb as <-. exact Hp.
  - rewrite lookup_insert_ne in Hb by exact Hne. eapply Hn. exact Hb.
Qed.

Lemma at_most_one_insert_false P (tasks : gmap string task) a t :
  at_most_one_at P tasks -> P (t_pc t) = false -> at_most_one_at P (<[a := t]> tasks).
Proof.
  intros Hm Hp b c tb tc Hb Hc Pb Pc.
  destruct (decide (a = b)) as [->|Hab].
  { rewrite lookup_insert_eq in Hb. injection Hb as <-. congruence. }
  destruct (decide (a = c)) as [->|Hac].
  { rewrite lookup_insert_eq in Hc. injection Hc as <-. congruence. }
  rewrite lookup_insert_ne in Hb, Hc by assumption. eapply Hm; eauto.
Qed.

Lemma at_most_one_insert_first P (tasks : gmap string task) a t :
  none_at P tasks -> at_most_one_at P (<[a := t]> tasks).
Proof.
  intros Hn b c tb tc Hb Hc Pb Pc.
  destruct (decide (a = b)) as [Hab|Hab]; destruct (decide (a = c)) as [Hac|Hac];
    [congruence| | |].
  - rewrite lookup_insert_ne in Hc by assumption. rewrite (Hn _ _ Hc) in Pc. discriminate.
  - rewrite lookup_insert_ne in Hb by assumption. rewrite (Hn _ _ Hb) in Pb. discriminate.
  - rewrite lookup_insert_ne in Hb by assumption. rewrite (Hn _ _ Hb) in Pb. discriminate.
Qed.

(** The one task at a point of [P] leaves it. *)
Lemma none_at_insert_leave P (tasks : gmap string task) a t t' :
  at_most_one_at P tasks -> tasks !! a = Some t -> P (t_pc t) = true ->
  P (t_pc t') = false -> none_at P (<[a := t']> tasks).
Proof.
  intros Hm Ha Pa Pt' b tb Hb. destruct (decide (a = b)) as [->|Hne].
  - rewrite lookup_insert_eq in Hb. injection Hb as <-. exact Pt'.
  - rewrite lookup_insert_ne in Hb by exact Hne.
    destruct (P (t_pc tb)) eqn:Pb; [|reflexivity].
    exfalso. apply Hne. eapply Hm; eauto.
Qed.

Lemma Int32_Dec_in_range (v : Z) :
  (- 2 ^ 31 < v < 2 ^ 31)%Z -> Int32_Dec v = (v - 1)%Z.
Proof.
  intros Hv. unfold Int32_Dec, int32.
  rewrite Z.mod_small; lia.
Qed.

Ltac quiet_done Hpos :=
  unfold done_inv; cbn;
  (split; [lia|]);
  (split; [apply at_most_one_insert_false; [assumption|reflexivity]|]);
  (split; [let H := fresh in
           intros H; destruct (Hpos H); split;
           [assumption|apply none_at_insert; [assumption|reflexivity]]|]);
  (split; [let H := fresh in
           intros H; apply none_at_insert; [auto|reflexivity]|assumption]).

Lemma task_step_done_inv rpc a (f : fanout) (k : Z) :
  (0 < k)%Z -> done_inv k f -> done_inv (k - 1) (task_step rpc a f).
Proof.
  intros Hk (Hrange & Hone & Hpos & Hsent & Hle).
  assert (done_inv (k - 1) f) as Hsame.
  { repeat split; try assumption; try lia; apply Hpos; assumption. }
  unfold task_step.
  destruct (f_tasks f !! a) as [t|] eqn:Ha; [|exact Hsame].
  destruct (t_pc t) eqn:Hpc.
  - (* the RPC *)
    unfold executePushRequest. destruct (rpc _ _) as [e|r]; quiet_done Hpos.
  - (* a bucket is decremented *)
    repeat case_match; quiet_done Hpos.
  - (* the pending counter is decremented *)
    rewrite Int32_Dec_in_range by lia.
    destruct (Z.eqb_spec (pending (f_tracker f) - 1) 0) as [Hz|Hz].
    + assert (0 < pending (f_tracker f))%Z as Hp by lia.
      destruct (Hpos Hp) as [Hs Hnone].
      unfold done_inv; cbn. rewrite Hs.
      split; [lia|]. split; [apply at_most_one_insert_first; exact Hnone|].
      split; [lia|]. split; [discriminate|lia].
    + unfold done_inv; cbn.
      split; [lia|]. split; [apply at_most_one_insert_false; [assumption|reflexivity]|].
      split.
      * intros Hp. destruct Hpos as [Hs Hnone]; [lia|].
        split; [assumption|apply none_at_insert; [assumption|reflexivity]].
      * split; [|assumption].
        intros Hs. apply none_at_insert; [auto|reflexivity].
  - (* the value is sent on done *)
    unfold chan_send. destruct (length (buf (done (f_tracker f))) <? 1); [|exact Hsame].
    assert (at_SendDone (t_pc t) = true) as Hat by (rewrite Hpc; reflexivity).
    assert (sends (done (f_tracker f)) = 0) as Hs.
    { destruct (decide (sends (done (f_tracker f)) = 1)) as [H1|H1]; [|lia].
      rewrite (Hsent H1 _ _ Ha) in Hat. discriminate. }
    assert (pending (f_tracker f) <= 0)%Z as Hp.
    { destruct (Z.lt_ge_cases 0 (pending (f_tracker f))) as [H|H]; [|lia].
      destruct (Hpos H) as [_ Hnone]. rewrite (Hnone _ _ Ha) in Hat. discriminate. }
    unfold done_inv; cbn. rewrite Hs.
    split; [lia|]. split; [apply at_most_one_insert_false; [assumption|reflexivity]|].
    split; [lia|]. split; [|lia].
    intros _. eapply none_at_insert_leave; eauto.
  - (* the failed flag is swapped *)
    repeat case_match; quiet_done Hpos.
  - (* the error is sent on err *)
    unfold chan_send. destruct (length (buf (err (f_tracker f))) <? 1); [|exact Hsame].
    quiet_done Hpos.
  - exact Hsame.
Qed.

Lemma step_done_inv rpc (f : fanout) ev (k : Z) :
  (0 < k)%Z -> done_inv k f -> done_inv (k - 1) (step rpc f ev).
Proof.
  intros Hk Hinv.
  assert (done_inv (k - 1) f) as Hsame.
  { destruct Hinv as (Hrange & Hone & Hpos & Hsent & Hle).
    repeat split; try assumption; try lia; apply Hpos; assumption. }
  destruct ev; cbn [step].
  - apply task_step_done_inv; assumption.
  - destruct (f_result f); [exact Hsame|].
    unfold chan_recv. destruct (buf (err (f_tracker f))); exact Hsame.
  - destruct (f_result f); [exact Hsame|].
    unfold chan_recv. destruct (buf (done (f_tracker f))); exact Hsame.
  - destruct (f_result f); exact Hsame.
Qed.

Lemma run_done_inv rpc sched : forall (f : fanout),
  done_inv (Z.of_nat (length sched)) f -> done_inv 0 (run rpc sched f).
Proof.
  induction sched as [|ev sched IH]; intros f Hinv; [exact Hinv|].
  cbn [run fold_left]. fold (run rpc sched (step rpc f ev)).
  apply IH.
  replace (Z.of_nat (length sched)) with (Z.of_nat (length (ev :: sched)) - 1)%Z
    by (cbn [length]; lia).
  apply step_done_inv; [cbn [length]; lia|exact Hinv].
Qed.

Ltac quiet_err Hfail :=
  unfold err_inv; cbn;
  (split; [apply at_most_one_insert_false; [assumption|reflexivity]|]);
  (split; [let H := fresh in
           intros H; destruct (Hfail H); split;
           [assumption|apply none_at_insert; [assumption|reflexivity]]|]);
  (split; [let H := fresh in
           intros H; apply none_at_insert; [auto|reflexivity]|assumption]).

Lemma task_step_err_inv rpc a (f : fanout) :
  err_inv f -> err_inv (task_step rpc a f).
Proof.
  intros Hinv. pose proof Hinv as (Hone & Hfail & Hsent & Hle).
  unfold task_step.
  destruct (f_tasks f !! a) as [t|] eqn:Ha; [|exact Hinv].
  destruct (t_pc t) eqn:Hpc.
  - unfold executePushRequest. destruct (rpc _ _) as [e|r]; quiet_err Hfail.
  - repeat case_match; quiet_err Hfail.
  - repeat case_match; quiet_err Hfail.
  - unfold chan_send. destruct (length (buf (done (f_tracker f))) <? 1); [|exact Hinv].
    quiet_err Hfail.
  - (* the failed flag is swapped *)
    destruct (failed (f_tracker f)) eqn:Hf.
    + unfold err_inv; cbn.
      split; [apply at_most_one_insert_false; [assumption|reflexivity]|].
      split; [discriminate|].
      split; [|assumption].
      intros Hs. apply none_at_insert; [auto|reflexivity].
    + destruct (Hfail eq_refl) as [Hs Hnone].
      unfold err_inv; cbn. rewrite Hs.
      split; [apply at_most_one_insert_first; exact Hnone|].
      split; [discriminate|]. split; [discriminate|lia].
  - (* the error is sent on err *)
    unfold chan_send. destruct (length (buf (err (f_tracker f))) <? 1); [|exact Hinv].
    assert (at_SendErr (t_pc t) = true) as Hat by (rewrite Hpc; reflexivity).
    assert (sends (err (f_tracker f)) = 0) as Hs.
    { destruct (decide (sends (err (f_tracker f)) = 1)) as [H1|H1]; [|lia].
      rewrite (Hsent H1 _ _ Ha) in Hat. discriminate. }
    assert (failed (f_tracker f) = true) as Hf.
    { destruct (failed (f_tracker f)) eqn:Hf; [reflexivity|].
      destruct (Hfail eq_refl) as [_ Hnone]. rewrite (Hnone _ _ Ha) in Hat. discriminate. }
    unfold err_inv; cbn. rewrite Hs, Hf.
    split; [apply at_most_one_insert_false; [assumption|reflexivity]|].
    split; [discriminate|]. split; [|lia].
    intros _. eapply none_at_insert_leave; eauto.
  - exact Hinv.
Qed.

Lemma step_err_inv rpc (f : fanout) ev : err_inv f -> err_inv (step rpc f ev).
Proof.
  intros Hinv. destruct ev; cbn [step].
  - apply task_step_err_inv; assumption.
  - destruct (f_result f); [exact Hinv|].
    unfold chan_recv. destruct (buf (err (f_tracker f))); exact Hinv.
  - destruct (f_result f); [exact Hinv|].
    unfold chan_recv. destruct (buf (done (f_tracker f))); exact Hinv.
  - destruct (f_result f); exact Hinv.
Qed.

Lemma run_err_inv rpc sched : forall (f : fanout),
  err_inv f -> err_inv (run rpc sched f).
Proof.
  induction sched as [|ev sched IH]; intros f Hinv; [exact Hinv|].
  cbn [run fold_left]. fold (run rpc sched (step rpc f ev)).
  apply IH, step_err_inv, Hinv.
Qed.

(** ** The loop of Push over the request *)

Section PushProperties.
Context `{C : Collaborators}.

Lemma entries_bytes_from (es : list Entry) (a : nat) :
  fold_left (fun bytes e => bytes + len (Line e)) es a = a + entries_bytes es.
Proof.
  unfold entries_bytes. revert a.
  induction es as [|e es IH]; intros a; simpl.
  - lia.
  - rewrite IH, (IH (len (Line e))). lia.
Qed.

Lemma entries_bytes_cons (e : Entry) (es : list Entry) :
  entries_bytes (e :: es) = len (Line e) + entries_bytes es.
Proof. unfold entries_bytes at 1. simpl. apply entries_bytes_from. Qed.

Lemma entries_bytes_app (l1 l2 : list Entry) :
  entries_bytes (l1 ++ l2) = entries_bytes l1 + entries_bytes l2.
Proof.
  induction l1 as [|e l1 IH]; simpl; [reflexivity|].
  rewrite !entries_bytes_cons, IH. lia.
Qed.

Lemma entry_loop_spec (vContext : validationContext) (labels : string)
    (rest : list Entry) :
  forall (kept junk : list Entry) (i : nat) (st : entryState),
    e_entries st = kept ++ junk ++ rest ->
    e_n st = length kept ->
    i = length kept + length junk ->
    let st' := entry_loop vContext labels (length rest) i st in
    take (e_n st') (e_entries st') = kept ++ List.filter (accepts vContext labels) rest /\
    e_size st' = e_size st + entries_bytes (List.filter (accepts vContext labels) rest) /\
    e_count st' = e_count st + length (List.filter (accepts vContext labels) rest) /\
    e_err st' = match last (omap (ValidateEntry vContext labels) rest) with
                | Some e => Some e
                | None => e_err st
                end /\
    e_calls st' = e_calls st ++ map (entry_call vContext labels) rest.
Proof.
  induction rest as [|e rest IH]; intros kept junk i st Harr Hn Hi; cbn zeta.
  - simpl. rewrite Harr, Hn, take_app_length, !app_nil_r.
    change (entries_bytes []) with 0. repeat split; try lia.
  - destruct (ValidateEntry vContext labels e) as [er|] eqn:Hv.
    + assert (accepts vContext labels e = false) as Ha
        by (unfold accepts; rewrite Hv; reflexivity).
      cbn [length entry_loop].
      assert (e_entries st !! i = Some e) as ->.
      { rewrite Harr, app_assoc. apply list_lookup_middle. rewrite length_app. lia. }
      unfold entry_body. rewrite Hv.
      cbn [List.filter omap list_omap map]. unfold entry_call at 1. rewrite Ha, Hv.
      specialize (IH kept (junk ++ [e]) (S i)
                    (mkEntryState (e_entries st) (e_n st) (e_size st) (e_count st)
                       (Some er) (e_calls st ++ [CallValidateEntry labels e (Some er)]))).
      cbn [e_entries e_n e_size e_count e_err e_calls] in IH.
      destruct IH as (H1 & H2 & H3 & H4 & H5).
      * rewrite Harr, <- !app_assoc. reflexivity.
      * exact Hn.
      * rewrite length_app. simpl. lia.
      * rewrite H1, H2, H3, H4, H5. repeat split.
        -- rewrite last_cons.
           destruct (last (omap (ValidateEntry vContext labels) rest)); reflexivity.
        -- rewrite <- app_assoc. reflexivity.
    + assert (accepts vContext labels e = true) as Ha
        by (unfold accepts; rewrite Hv; reflexivity).
      cbn [length entry_loop].
      assert (e_entries st !! i = Some e) as ->.
      { rewrite Harr, app_assoc. apply list_lookup_middle. rewrite length_app. lia. }
      unfold entry_body. rewrite Hv.
      cbn [List.filter omap list_omap map]. unfold entry_call at 1. rewrite Ha, Hv.
      assert (exists junk', <[e_n st := e]> (e_entries st) = (kept ++ [e]) ++ junk' ++ rest /\
                            S i = length (kept ++ [e]) + length junk') as (junk' & Harr' & Hi').
      { destruct junk as [|j junk].
        - exists []. rewrite Harr, Hn. simpl. rewrite insert_middle, <- app_assoc.
          split; [reflexivity|]. rewrite length_app. simpl in *. lia.
        - exists (junk ++ [e]). rewrite Harr, Hn. simpl.
          rewrite insert_middle, <- !app_assoc.
          split; [reflexivity|]. rewrite !length_app. simpl in *. lia. }
      specialize (IH (kept ++ [e]) junk' (S i)
                    (mkEntryState (<[e_n st := e]> (e_entries st)) (S (e_n st))
                       (e_size st + len (Line e)) (S (e_count st))
                       (e_err st) (e_calls st ++ [CallValidateEntry labels e None]))).
      cbn [e_entries e_n e_size e_count e_err e_calls] in IH.
      destruct IH as (H1 & H2 & H3 & H4 & H5).
      * exact Harr'.
      * rewrite length_app, Hn. simpl. lia.
      * exact Hi'.
      * rewrite H1, H2, H3, H4, H5, entries_bytes_cons. simpl.
        rewrite <- !app_assoc. simpl. repeat split; lia.
Qed.

(** *** What the log of an entry loop says *)

Lemma validation_errors_entry_calls vContext labels (es : list Entry) :
  validation_errors (map (entry_call vContext labels) es)
  = omap (ValidateEntry vContext labels) es.
Proof.
  unfold validation_errors. induction es as [|e es IH]; [reflexivity|].
  cbn [map omap list_omap]. unfold entry_call at 1. cbn [call_error].
  fold (omap call_error (map (entry_call vContext labels) es)).
  fold (omap (ValidateEntry vContext labels) es).
  rewrite IH. reflexivity.
Qed.

Lemma accepted_entries_entry_calls vContext labels (es : list Entry) :
  accepted_entries (map (entry_call vContext labels) es)
  = List.filter (accepts vContext labels) es.
Proof.
  unfold accepted_entries. induction es as [|e es IH]; [reflexivity|].
  cbn [map omap list_omap List.filter]. unfold entry_call at 1, accepts at 1.
  destruct (ValidateEntry vContext labels e); cbn; rewrite <- IH; reflexivity.
Qed.

Lemma validated_entries_entry_calls vContext labels (es : list Entry) :
  validated_entries (map (entry_call vContext labels) es) = es.
Proof.
  unfold validated_entries. induction es as [|e es IH]; [reflexivity|].
  cbn. f_equal. exact IH.
Qed.

(** *** One iteration of the loop over the request *)

Lemma iteration_empty vContext tenant a (s : Stream) (st : pushState) :
  Entries s = [] -> iteration vContext tenant a s st = (s, st).
Proof. intros He. unfold iteration. rewrite He. reflexivity. Qed.

(** The labels are rejected: the stream is dropped and the error kept. *)
Lemma iteration_drop vContext tenant a (s s1 : Stream) (st : pushState) m1 labels e cache' :
  Entries s <> [] ->
  truncateLines vContext s (metrics st) = (s1, m1) ->
  parseStreamLabels vContext (Labels s1) s1 (labelCache st) = ((labels, Some e), cache') ->
  iteration vContext tenant a s st
  = ({| Labels := labels; Entries := Entries s1 |},
     {| labelCache := cache';
        ingestionRateLimiter := ingestionRateLimiter st;
        metrics :=
          counter_add DiscardedBytes InvalidLabels tenant (entries_bytes (Entries s1))
            (counter_add DiscardedSamples InvalidLabels tenant (length (Entries s1)) m1);
        store := store st; next_addr := next_addr st;
        streams := streams st; keys := keys st;
        validatedSamplesSize := validatedSamplesSize st;
        validatedSamplesCount := validatedSamplesCount st;
        validationErr := Some e;
        calls := calls st ++ [CallParseStreamLabels (Labels s1) labels (Some e)] |}).
Proof.
  intros He Ht Hp. unfold iteration.
  destruct (Entries s) as [|x xs] eqn:Hes; [contradiction|].
  cbn [length Nat.eqb]. rewrite Ht, Hp. reflexivity.
Qed.

(** The labels are accepted: the stream survives with the entries that pass
    [ValidateEntry], in their order. *)
Lemma iteration_keep vContext tenant a (s s1 : Stream) (st : pushState) m1 labels cache' :
  Entries s <> [] ->
  truncateLines vContext s (metrics st) = (s1, m1) ->
  parseStreamLabels vContext (Labels s1) s1 (labelCache st) = ((labels, None), cache') ->
  iteration vContext tenant a s st
  = ({| Labels := labels; Entries := List.filter (accepts vContext labels) (Entries s1) |},
     {| labelCache := cache';
        ingestionRateLimiter := ingestionRateLimiter st;
        metrics := m1;
        store := store st; next_addr := next_addr st;
        streams := streams st ++ [mkStreamTracker a 0 0];
        keys := keys st ++ [TokenFor tenant labels];
        validatedSamplesSize :=
          validatedSamplesSize st
          + entries_bytes (List.filter (accepts vContext labels) (Entries s1));
        validatedSamplesCount :=
          validatedSamplesCount st
          + length (List.filter (accepts vContext labels) (Entries s1));
        validationErr :=
          match last (omap (ValidateEntry vContext labels) (Entries s1)) with
          | Some e => Some e
          | None => validationErr st
          end;
        calls := (calls st ++ [CallParseStreamLabels (Labels s1) labels None])
                 ++ map (entry_call vContext labels) (Entries s1) |}).
Proof.
  intros He Ht Hp. unfold iteration.
  destruct (Entries s) as [|x xs] eqn:Hes; [contradiction|].
  cbn [length Nat.eqb]. rewrite Ht, Hp. cbn [Entries Labels].
  pose proof (entry_loop_spec vContext labels (Entries s1) [] [] 0
                (mkEntryState (Entries s1) 0 (validatedSamplesSize st)
                   (validatedSamplesCount st) (validationErr st)
                   (calls st ++ [CallParseStreamLabels (Labels s1) labels None]))
                eq_refl eq_refl eq_refl) as (H1 & H2 & H3 & H4 & H5).
  cbn [e_entries e_n e_size e_count e_err e_calls app] in H1, H2, H3, H4, H5.
  rewrite H1, H2, H3, H4, H5. reflexivity.
Qed.

(** A property that the three operations of the loop preserve holds when the
    loop ends. *)
Lemma prepare_loop_invariant (P : pushState -> Prop) vContext tenant :
  (forall st, P st -> P (alloc st).2) ->
  (forall a v st, P st -> P (write_cell a v st)) ->
  (forall a s st, P st -> P (iteration vContext tenant a s st).2) ->
  forall mode req a st, P st -> P (prepare_loop mode vContext tenant a req st).
Proof.
  intros Halloc Hwrite Hiter mode req.
  induction req as [|s req IH]; intros a st HP; [exact HP|].
  cbn [prepare_loop].
  destruct mode.
  - destruct (iteration vContext tenant a s st) as [v st2] eqn:Hit.
    apply IH, Hwrite. specialize (Hiter a s st HP). rewrite Hit in Hiter. exact Hiter.
  - destruct (alloc st) as [a' st1] eqn:Hal.
    destruct (iteration vContext tenant a' s st1) as [v st2] eqn:Hit.
    apply IH, Hwrite. specialize (Halloc st HP). rewrite Hal in Halloc.
    specialize (Hiter a' s st1 Halloc). rewrite Hit in Hiter. exact Hiter.
Qed.

(** The cases of an iteration, for a property of the state it leaves. *)
Lemma iteration_cases (P : pushState -> Prop) vContext tenant a (s : Stream) (st : pushState) :
  (Entries s = [] -> P st) ->
  (forall s1 m1 labels e cache',
      Entries s <> [] ->
      truncateLines vContext s (metrics st) = (s1, m1) ->
      parseStreamLabels vContext (Labels s1) s1 (labelCache st) = ((labels, Some e), cache') ->
      P (iteration vContext tenant a s st).2) ->
  (forall s1 m1 labels cache',
      Entries s <> [] ->
      truncateLines vContext s (metrics st) = (s1, m1) ->
      parseStreamLabels vContext (Labels s1) s1 (labelCache st) = ((labels, None), cache') ->
      P (iteration vContext tenant a s st).2) ->
  P (iteration vContext tenant a s st).2.
Proof.
  intros H0 H1 H2.
  destruct (Entries s) as [|x xs] eqn:Hes.
  - rewrite iteration_empty by exact Hes. apply H0. reflexivity.
  - destruct (truncateLines vContext s (metrics st)) as [s1 m1] eqn:Ht.
    destruct (parseStreamLabels vContext (Labels s1) s1 (labelCache st))
      as [[labels [e|]] cache'] eqn:Hp.
    + eapply H1; eauto.
    + eapply H2; eauto.
Qed.

Lemma prepared_invariant (P : pushState -> Prop) mode now1 tenant req (d : Distributor) :
  (forall st, P st -> P (alloc st).2) ->
  (forall a v st, P st -> P (write_cell a v st)) ->
  (forall a s st, P st ->
     P (iteration (getValidationContextForTime now1 tenant) tenant a s st).2) ->
  P (enter d) -> P (prepared mode now1 tenant req d).
Proof.
  intros Halloc Hwrite Hiter H0. unfold prepared.
  destruct mode.
  - destruct (alloc (enter d)) as [a st0] eqn:Hal.
    apply prepare_loop_invariant; auto.
    specialize (Halloc _ H0). rewrite Hal in Halloc. exact Halloc.
  - apply prepare_loop_invariant; auto.
Qed.

(** *** The retained validation error *)

Lemma iteration_validationErr vContext tenant a (s : Stream) (st : pushState) :
  validationErr st = last (validation_errors (calls st)) ->
  let st' := (iteration vContext tenant a s st).2 in
  validationErr st' = last (validation_errors (calls st')).
Proof.
  intros Hinv. cbn zeta. apply iteration_cases.
  - intros _. exact Hinv.
  - intros s1 m1 labels e cache' He Ht Hp.
    rewrite (iteration_drop _ _ _ _ _ _ _ _ _ _ He Ht Hp). cbn [snd validationErr calls].
    unfold validation_errors. rewrite omap_app. cbn. rewrite last_snoc. reflexivity.
  - intros s1 m1 labels cache' He Ht Hp.
    rewrite (iteration_keep _ _ _ _ _ _ _ _ _ He Ht Hp). cbn [snd validationErr calls].
    unfold validation_errors at 1. rewrite !omap_app.
    fold (validation_errors (map (entry_call vContext labels) (Entries s1))).
    rewrite validation_errors_entry_calls. cbn [omap list_omap call_error].
    rewrite app_nil_r, last_app, Hinv. reflexivity.
Qed.

Lemma prepared_validationErr mode now1 tenant req (d : Distributor) :
  let st := prepared mode now1 tenant req d in
  validationErr st = last (validation_errors (calls st)).
Proof.
  cbn zeta.
  apply (prepared_invariant (fun st => validationErr st = last (validation_errors (calls st)))).
  - intros st H. exact H.
  - intros a v st H. exact H.
  - intros a s st H. apply iteration_validationErr. exact H.
  - reflexivity.
Qed.

(** *** The surviving samples *)

Lemma iteration_samples vContext tenant a (s : Stream) (st : pushState) :
  validatedSamplesCount st = length (accepted_entries (calls st)) /\
  validatedSamplesSize st = entries_bytes (accepted_entries (calls st)) ->
  let st' := (iteration vContext tenant a s st).2 in
  validatedSamplesCount st' = length (accepted_entries (calls st')) /\
  validatedSamplesSize st' = entries_bytes (accepted_entries (calls st')).
Proof.
  intros [Hc Hs]. cbn zeta. apply iteration_cases.
  - intros _. split; assumption.
  - intros s1 m1 labels e cache' He Ht Hp.
    rewrite (iteration_drop _ _ _ _ _ _ _ _ _ _ He Ht Hp).
    cbn [snd validatedSamplesCount validatedSamplesSize calls].
    unfold accepted_entries. rewrite omap_app. cbn [omap list_omap]. rewrite app_nil_r.
    split; assumption.
  - intros s1 m1 labels cache' He Ht Hp.
    rewrite (iteration_keep _ _ _ _ _ _ _ _ _ He Ht Hp).
    cbn [snd validatedSamplesCount validatedSamplesSize calls].
    unfold accepted_entries at 1 2. rewrite !omap_app.
    fold (accepted_entries (map (entry_call vContext labels) (Entries s1))).
    fold (accepted_entries (calls st)).
    rewrite accepted_entries_entry_calls. cbn [omap list_omap]. rewrite app_nil_r.
    rewrite length_app, entries_bytes_app, Hc, Hs. split; reflexivity.
Qed.

Lemma prepared_samples mode now1 tenant req (d : Distributor) :
  let st := prepared mode now1 tenant req d in
  validatedSamplesCount st = length (accepted_entries (calls st)) /\
  validatedSamplesSize st = entries_bytes (accepted_entries (calls st)).
Proof.
  cbn zeta.
  apply (prepared_invariant
           (fun st => validatedSamplesCount st = length (accepted_entries (calls st)) /\
                      validatedSamplesSize st = entries_bytes (accepted_entries (calls st)))).
  - intros st H. exact H.
  - intros a v st H. exact H.
  - intros a s st H. apply iteration_samples. exact H.
  - split; reflexivity.
Qed.

(** ** The label cache *)

Lemma lru_lookup_elem (key v : string) (c : lruCache) :
  lru_lookup key c = Some v -> (key, v) ∈ c.
Proof.
  unfold lru_lookup. intros H.
  destruct (List.find (fun kv => bool_decide (kv.1 = key)) c) as [[k v']|] eqn:Hf;
    [|discriminate].
  injection H as <-. apply find_some in Hf as [Hin Hk].
  apply bool_decide_eq_true in Hk. simpl in Hk. subst k.
  apply list_elem_of_In. exact Hin.
Qed.

Lemma lru_remove_elem (key : string) (x : string * string) (c : lruCache) :
  x ∈ lru_remove key c -> x ∈ c.
Proof. unfold lru_remove. intros H. apply list_elem_of_filter in H as [_ H]. exact H. Qed.

Lemma removelast_elem {A : Type} (x : A) (l : list A) : x ∈ removelast l -> x ∈ l.
Proof.
  induction l as [|y l IH]; [intros H; exact H|].
  destruct l as [|z l]; simpl.
  - intros H. inversion H.
  - intros H. apply elem_of_cons in H as [->|H].
    + left.
    + right. apply IH. exact H.
Qed.

Lemma lru_Get_elem key (c c' : lruCache) r x :
  lru_Get key c = (r, c') -> x ∈ c' -> x ∈ c.
Proof.
  unfold lru_Get. destruct (lru_lookup key c) as [v|] eqn:Hl; intros [= <- <-] Hx.
  - apply elem_of_cons in Hx as [->|Hx].
    + apply lru_lookup_elem. exact Hl.
    + eapply lru_remove_elem. exact Hx.
  - exact Hx.
Qed.

Lemma lru_Get_hit key (c c' : lruCache) v :
  lru_Get key c = (Some v, c') -> lru_lookup key c = Some v.
Proof.
  unfold lru_Get. destruct (lru_lookup key c) as [v'|]; intros [= <- <-]; reflexivity.
Qed.

Lemma lru_Add_elem size key v (c : lruCache) x :
  x ∈ lru_Add size key v c -> x = (key, v) \/ x ∈ c.
Proof.
  unfold lru_Add. intros H.
  assert (x ∈ (key, v) :: lru_remove key c) as Hx.
  { destruct (_ <? _)%N in H; [apply removelast_elem|]; exact H. }
  apply elem_of_cons in Hx as [->|Hx]; [left; reflexivity|].
  right. eapply lru_remove_elem. exact Hx.
Qed.

(** [parseStreamLabels] keeps the cache valid: what it adds is the canonical
    form of a parse that has just passed [ValidateLabels]. *)
Lemma parseStreamLabels_cache_valid vContext key (s : Stream) (c : lruCache) :
  cache_valid c -> cache_valid (parseStreamLabels vContext key s c).2.
Proof.
  intros Hc. unfold parseStreamLabels.
  destruct (lru_Get key c) as [[v|] c'] eqn:Hg.
  - intros k w Hin. apply Hc. eapply lru_Get_elem; eauto.
  - assert (cache_valid c') as Hc'.
    { intros k w Hin. apply Hc. eapply lru_Get_elem; eauto. }
    destruct (ParseLabels key) as [ls|e] eqn:Hp; [|exact Hc'].
    destruct (ValidateLabels vContext ls s) as [e|] eqn:Hv; [exact Hc'|].
    intros k w Hin. cbn [snd] in Hin.
    apply lru_Add_elem in Hin as [[= -> ->]|Hin].
    + exists ls, vContext, s. auto.
    + apply Hc'. exact Hin.
Qed.

(** On a hit, [parseStreamLabels] returns the cached value and no error. *)
Lemma parseStreamLabels_hit vContext key (s : Stream) (c : lruCache) v :
  lru_lookup key c = Some v ->
  (parseStreamLabels vContext key s c).1 = (v, None).
Proof.
  intros Hl. unfold parseStreamLabels, lru_Get. rewrite Hl. reflexivity.
Qed.

(** A fresh parse that succeeds returns the canonical form of the parse. *)
Lemma fresh_parse_ok vContext key (s : Stream) v :
  fresh_parse vContext key s = (v, None) ->
  exists ls, ParseLabels key = inl ls /\ ValidateLabels vContext ls s = None /\
             v = labelsString ls.
Proof.
  unfold fresh_parse, parseStreamLabels. cbn.
  destruct (ParseLabels key) as [ls|e]; [|discriminate].
  destruct (ValidateLabels vContext ls s) as [e|] eqn:Hv; [discriminate|].
  cbn. intros [= <-]. exists ls. auto.
Qed.

Lemma fresh_parse_valid vContext key (s : Stream) ls :
  ParseLabels key = inl ls -> ValidateLabels vContext ls s = None ->
  fresh_parse vContext key s = (labelsString ls, None).
Proof.
  intros Hp Hv. unfold fresh_parse, parseStreamLabels. cbn. rewrite Hp, Hv. reflexivity.
Qed.

Lemma parse_all_cache_valid (cs : list (validationContext * string * Stream)) :
  forall c, cache_valid c -> cache_valid (parse_all cs c).
Proof.
  induction cs as [|[[v k] s] cs IH]; intros c Hc; [exact Hc|].
  cbn [parse_all fold_left]. apply IH. apply parseStreamLabels_cache_valid. exact Hc.
Qed.

Lemma cache_valid_nil : cache_valid [].
Proof. intros k v H. inversion H. Qed.

(** C9, as the code has it: for every raw label string [key] and every cache
    reached from the empty one by calls of [parseStreamLabels], what
    [parseStreamLabels] returns on a hit is the canonical string of the parse
    of [key]; it is what a fresh parse, validation and canonicalisation of
    [key] returns under some limits and stream, and under all limits and
    streams that accept [key] (the hit itself does not validate against the
    current limits); and every value in the cache is the canonical form of a
    parse that passed label validation. *)
Theorem label_cache_hit_is_fresh_parse
    (cs : list (validationContext * string * Stream))
    (vContext : validationContext) (key : string) (s : Stream) (labelVal : string) :
  lru_lookup key (parse_all cs []) = Some labelVal ->
  (parseStreamLabels vContext key s (parse_all cs [])).1 = (labelVal, None) /\
  (exists ls, ParseLabels key = inl ls /\ labelVal = labelsString ls) /\
  (exists vContext0 s0, fresh_parse vContext0 key s0 = (labelVal, None)) /\
  (forall vContext' s' v', fresh_parse vContext' key s' = (v', None) -> v' = labelVal) /\
  cache_valid (parse_all cs []).
Proof.
  intros Hhit.
  pose proof (parse_all_cache_valid cs [] cache_valid_nil) as Hvalid.
  destruct (Hvalid key labelVal (lru_lookup_elem _ _ _ Hhit))
    as (ls & vContext0 & s0 & Hp & Hv & Heq).
  split; [apply parseStreamLabels_hit; exact Hhit|].
  split; [exists ls; auto|].
  split; [exists vContext0, s0; subst labelVal; apply fresh_parse_valid; assumption|].
  split; [|exact Hvalid].
  intros vContext' s' v' Hf. apply fresh_parse_ok in Hf as (ls' & Hp' & _ & ->).
  rewrite Hp in Hp'. injection Hp' as <-. symmetry. exact Heq.
Qed.

(** ** The fan-out: what no step changes *)

Lemma task_step_frame rpc a (f : fanout) :
  f_result (task_step rpc a f) = f_result f /\
  f_validationErr (task_step rpc a f) = f_validationErr f /\
  f_store (task_step rpc a f) = f_store f.
Proof.
  unfold task_step, executePushRequest.
  repeat case_match; repeat split; reflexivity.
Qed.

Lemma step_validationErr rpc (f : fanout) ev :
  f_validationErr (step rpc f ev) = f_validationErr f.
Proof.
  destruct ev; cbn [step].
  - apply task_step_frame.
  - repeat case_match; reflexivity.
  - repeat case_match; reflexivity.
  - repeat case_match; reflexivity.
Qed.

(** [Push] returns a response only from the [done] case of its [select], and
    then together with [validationErr]. *)
Lemma step_response rpc (f : fanout) ev :
  (forall resp e, f_result f = Some (Some resp, e) -> e = f_validationErr f) ->
  forall resp e, f_result (step rpc f ev) = Some (Some resp, e) -> e = f_validationErr f.
Proof.
  intros Hinv resp e. destruct ev; cbn [step].
  - destruct (task_step_frame rpc a f) as (-> & _ & _). apply Hinv.
  - destruct (f_result f) as [r|] eqn:Hr; [rewrite Hr; exact (Hinv resp e)|].
    destruct (chan_recv (err (f_tracker f))) as [[e0 ch]|]; cbn;
      [discriminate|rewrite Hr; discriminate].
  - destruct (f_result f) as [r|] eqn:Hr; [rewrite Hr; exact (Hinv resp e)|].
    destruct (chan_recv (done (f_tracker f))) as [[u ch]|]; cbn;
      [intros H; congruence|rewrite Hr; discriminate].
  - destruct (f_result f) as [r|] eqn:Hr; [rewrite Hr; exact (Hinv resp e)|].
    cbn. discriminate.
Qed.

Lemma run_response rpc sched : forall (f : fanout),
  (forall resp e, f_result f = Some (Some resp, e) -> e = f_validationErr f) ->
  forall resp e, f_result (run rpc sched f) = Some (Some resp, e) -> e = f_validationErr f.
Proof.
  induction sched as [|ev sched IH]; intros f Hinv resp e; [apply Hinv|].
  cbn [run fold_left]. fold (run rpc sched (step rpc f ev)).
  intros H. rewrite <- (step_validationErr rpc f ev).
  eapply IH; [|exact H].
  intros resp' e' H'. rewrite step_validationErr. eapply step_response; eauto.
Qed.

(** ** Push *)

Lemma prepared_nil mode now1 tenant (d : Distributor) :
  streams (prepared mode now1 tenant [] d) = [].
Proof. unfold prepared. destruct mode; reflexivity. Qed.

(** [Push] past the tenant check and the first empty-check. *)
Lemma Push_start_prepared mode ctx now1 now2 ring req (d : Distributor) tenant :
  TenantID ctx = inl tenant ->
  streams (prepared mode now1 tenant req d) <> [] ->
  Push_start mode ctx now1 now2 ring req d
  = let st := prepared mode now1 tenant req d in
    let '(ok, lim) :=
      AllowN (ingestionRateLimiter st) now2 tenant (validatedSamplesSize st) in
    if negb ok then
      (rate_limited tenant lim st,
       Returned None
         (Some (Errorf StatusTooManyRequests RateLimitedErrorMsg
                  [ArgString tenant;
                   ArgInt (Limit lim now2 tenant);
                   ArgInt (Z.of_nat (validatedSamplesCount st));
                   ArgInt (Z.of_nat (validatedSamplesSize st))])))
    else
      let st' := allowed lim st in
      match ring_loop ring 0 (keys st') (mkRingState (streams st') ∅ ∅) with
      | inr e => (st', Returned None (Some e))
      | inl rs =>
          (st',
           FanOut
             {| f_store := store st';
                f_streams := r_streams rs;
                f_tracker :=
                  {| done := make_chan; err := make_chan;
                     pending := int32 (Z.of_nat (length (streams st')));
                     failed := false |};
                f_tasks := start_tasks rs;
                f_rpcs := [];
                f_appends := ∅;
                f_append_failures := ∅;
                f_validationErr := validationErr st';
                f_result := None |})
      end.
Proof.
  intros Ht Hs. unfold Push_start. rewrite Ht.
  destruct req as [|s req]; [rewrite prepared_nil in Hs; contradiction|].
  cbn [length Nat.eqb].
  destruct (streams (prepared mode now1 tenant (s :: req) d)) eqn:Hst; [contradiction|].
  cbn [length Nat.eqb]. reflexivity.
Qed.

Lemma counter_add_same m reason tenant n (c : counters) :
  counter_add m reason tenant n c m reason tenant = c m reason tenant + n.
Proof. unfold counter_add. rewrite decide_True by auto. reflexivity. Qed.

Lemma counter_add_other m reason tenant n (c : counters) m' r' t' :
  (m, reason, tenant) <> (m', r', t') ->
  counter_add m reason tenant n c m' r' t' = c m' r' t'.
Proof.
  intros Hne. unfold counter_add. rewrite decide_False; [reflexivity|].
  intros (-> & -> & ->). apply Hne. reflexivity.
Qed.

(** [truncateLines] advances counters of reason [line_too_long] only. *)
Lemma truncateLines_other_reason vContext (s : Stream) (c : counters) m r t :
  r <> LineTooLong -> (truncateLines vContext s c).2 m r t = c m r t.
Proof.
  intros Hr. unfold truncateLines. destruct (maxLineSizeTruncate vContext); [|reflexivity].
  cbn [negb snd]. rewrite !counter_add_other; [reflexivity| |]; congruence.
Qed.

(** The loop over the request leaves the counters of reason [rate_limited]
    as they were: it advances those of [line_too_long] and [invalid_labels]
    only. *)
Lemma iteration_rate_limited_counters vContext tenant a (s : Stream) (st : pushState)
    (c : counters) :
  (forall m t, metrics st m RateLimited t = c m RateLimited t) ->
  forall m t, metrics (iteration vContext tenant a s st).2 m RateLimited t
              = c m RateLimited t.
Proof.
  intros Hinv. apply iteration_cases.
  - intros _. exact Hinv.
  - intros s1 m1 labels e cache' He Ht Hp m t.
    rewrite (iteration_drop _ _ _ _ _ _ _ _ _ _ He Ht Hp). cbn [snd metrics].
    rewrite !counter_add_other by discriminate.
    replace m1 with (truncateLines vContext s (metrics st)).2 by (rewrite Ht; reflexivity).
    rewrite truncateLines_other_reason by discriminate. apply Hinv.
  - intros s1 m1 labels cache' He Ht Hp m t.
    rewrite (iteration_keep _ _ _ _ _ _ _ _ _ He Ht Hp). cbn [snd metrics].
    replace m1 with (truncateLines vContext s (metrics st)).2 by (rewrite Ht; reflexivity).
    rewrite truncateLines_other_reason by discriminate. apply Hinv.
Qed.

Lemma prepared_rate_limited_counters mode now1 tenant req (d : Distributor) m t :
  metrics (prepared mode now1 tenant req d) m RateLimited t = d_metrics d m RateLimited t.
Proof.
  revert m t.
  apply (prepared_invariant
           (fun st => forall m t, metrics st m RateLimited t = d_metrics d m RateLimited t)).
  - intros st H. exact H.
  - intros a v st H. exact H.
  - intros a s st H. apply iteration_rate_limited_counters. exact H.
  - reflexivity.
Qed.

(** C5: when the rate limiter rejects the request, which it is asked about
    with the total byte size of the entries that passed validation, [Push]
    fails with a 429 error whose message is formatted from the tenant id, the
    current limit, the number of surviving samples and their byte size; the
    rate-limited discarded-samples and discarded-bytes counters of the tenant
    stand, when [Push] returns, at the values they had when [Push] was
    called plus exactly these two numbers; and no RPC is issued, under any
    schedule. *)
Theorem Push_rate_limited mode ctx now1 now2 ring req (d : Distributor) tenant lim :
  TenantID ctx = inl tenant ->
  streams (prepared mode now1 tenant req d) <> [] ->
  AllowN (ingestionRateLimiter (prepared mode now1 tenant req d)) now2 tenant
    (entries_bytes (accepted_entries (calls (prepared mode now1 tenant req d))))
  = (false, lim) ->
  let st := prepared mode now1 tenant req d in
  let r := Push_start mode ctx now1 now2 ring req d in
  let count := length (accepted_entries (calls st)) in
  let size := entries_bytes (accepted_entries (calls st)) in
  r.2 = Returned None
          (Some (Errorf 429 RateLimitedErrorMsg
                   [ArgString tenant; ArgInt (Limit lim now2 tenant);
                    ArgInt (Z.of_nat count); ArgInt (Z.of_nat size)])) /\
  metrics r.1 DiscardedSamples RateLimited tenant
  = d_metrics d DiscardedSamples RateLimited tenant + count /\
  metrics r.1 DiscardedBytes RateLimited tenant
  = d_metrics d DiscardedBytes RateLimited tenant + size /\
  (forall rpc sched, Push_rpcs r.2 rpc sched = []) /\
  (forall rpc sched, Push_result r.2 rpc sched = Some (None, (Some (Errorf 429 RateLimitedErrorMsg
                   [ArgString tenant; ArgInt (Limit lim now2 tenant);
                    ArgInt (Z.of_nat count); ArgInt (Z.of_nat size)])))).
Proof.
  intros Ht Hs Hallow. cbn zeta.
  destruct (prepared_samples mode now1 tenant req d) as [Hc Hz]. cbn zeta in Hc, Hz.
  rewrite (Push_start_prepared _ _ _ _ _ _ _ _ Ht Hs). cbn zeta.
  rewrite Hz, Hallow. cbn [negb fst snd]. rewrite Hc.
  repeat split.
  - unfold rate_limited. cbn [metrics].
    rewrite counter_add_other by discriminate.
    rewrite counter_add_same, Hc, prepared_rate_limited_counters. reflexivity.
  - unfold rate_limited. cbn [metrics]. rewrite counter_add_same.
    rewrite counter_add_other by discriminate.
    rewrite Hz, prepared_rate_limited_counters. reflexivity.
Qed.

Lemma ring_loop_fails ring (ks1 : list Z) : forall i key ks2 e (st : ringState),
  (forall k, k ∈ ks1 -> exists rs, ring k = inl rs) ->
  ring key = inr e ->
  ring_loop ring i (ks1 ++ key :: ks2) st = inr e.
Proof.
  induction ks1 as [|k ks1 IH]; intros i key ks2 e st Hok Hfail.
  - cbn. rewrite Hfail. reflexivity.
  - cbn [app ring_loop].
    destruct (Hok k) as [rs Hrs]; [left|]. rewrite Hrs.
    apply IH; [|exact Hfail]. intros k' Hk'. apply Hok. right. exact Hk'.
Qed.

(** C10: when the ring lookup fails for the routing key of a surviving
    stream, the lookups before it having succeeded, [Push] returns the error
    of that lookup, and no task is started and no RPC issued, under any
    schedule, also for the streams whose lookup had succeeded. *)
Theorem Push_ring_lookup_error mode ctx now1 now2 ring req (d : Distributor)
    tenant lim ks1 key ks2 e :
  TenantID ctx = inl tenant ->
  streams (prepared mode now1 tenant req d) <> [] ->
  AllowN (ingestionRateLimiter (prepared mode now1 tenant req d)) now2 tenant
    (validatedSamplesSize (prepared mode now1 tenant req d)) = (true, lim) ->
  keys (prepared mode now1 tenant req d) = ks1 ++ key :: ks2 ->
  (forall k, k ∈ ks1 -> exists rs, ring k = inl rs) ->
  ring key = inr e ->
  let r := Push_start mode ctx now1 now2 ring req d in
  r.2 = Returned None (Some e) /\
  (forall rpc sched, Push_result r.2 rpc sched = Some (None, Some e)) /\
  (forall rpc sched, Push_rpcs r.2 rpc sched = []).
Proof.
  intros Ht Hs Hallow Hkeys Hok Hfail. cbn zeta.
  rewrite (Push_start_prepared _ _ _ _ _ _ _ _ Ht Hs). cbn zeta.
  rewrite Hallow. cbn [negb].
  change (keys (allowed lim (prepared mode now1 tenant req d)))
    with (keys (prepared mode now1 tenant req d)).
  rewrite Hkeys, (ring_loop_fails ring ks1 0 key ks2 e _ Hok Hfail).
  repeat split.
Qed.

(** C3, as the code has it: whenever [Push] returns a response, the error it
    returns with it is the last validation error met in the request, in
    input order (none when no stream or entry failed validation). *)
Theorem Push_returns_last_validation_error mode ctx now1 now2 ring req
    (d : Distributor) rpc sched resp e :
  Push_result (Push_start mode ctx now1 now2 ring req d).2 rpc sched = Some (Some resp, e) ->
  e = last (validation_errors (calls (Push_start mode ctx now1 now2 ring req d).1)).
Proof.
  unfold Push_start.
  destruct (TenantID ctx) as [tenant|e0]; [|cbn; discriminate].
  destruct (length req =? 0); [cbn; intros H; injection H as <-; reflexivity|].
  pose proof (prepared_validationErr mode now1 tenant req d) as Hinv. cbn zeta in Hinv.
  destruct (length (streams (prepared mode now1 tenant req d)) =? 0).
  { cbn. intros H. injection H as <-. exact Hinv. }
  destruct (AllowN _ _ _ _) as [ok lim].
  destruct ok; cbn [negb]; [|cbn; discriminate].
  destruct (ring_loop _ _ _ _) as [rs|e0]; [|cbn; discriminate].
  cbn [fst snd Push_result allowed calls]. intros H.
  apply run_response in H; [|cbn; discriminate].
  cbn in H. rewrite H. exact Hinv.
Qed.

(** *** Truncation comes first *)

Lemma iteration_short_calls vContext tenant a (s : Stream) (st : pushState) :
  maxLineSizeTruncate vContext = true ->
  maxLineSize vContext <> 0 ->
  Forall (short_call vContext) (calls st) ->
  Forall (short_call vContext) (calls (iteration vContext tenant a s st).2).
Proof.
  intros Htr Hm Hinv. apply iteration_cases.
  - intros _. exact Hinv.
  - intros s1 m1 labels e cache' He Ht Hp.
    rewrite (iteration_drop _ _ _ _ _ _ _ _ _ _ He Ht Hp). cbn [snd calls].
    apply Forall_app. split; [exact Hinv|]. apply Forall_singleton. exact I.
  - intros s1 m1 labels cache' He Ht Hp.
    rewrite (iteration_keep _ _ _ _ _ _ _ _ _ He Ht Hp). cbn [snd calls].
    apply Forall_app. split.
    { apply Forall_app. split; [exact Hinv|]. apply Forall_singleton. exact I. }
    rewrite truncateLines_enabled in Ht by exact Htr.
    injection Ht as <- _. cbn [Entries].
    apply Forall_forall. intros c Hc.
    apply list_elem_of_In, in_map_iff in Hc as (e1 & <- & He1).
    apply in_map_iff in He1 as (e0 & <- & _).
    split; [apply truncate_entry_len; exact Hm | reflexivity].
Qed.

Lemma prepared_short_calls mode now1 tenant req (d : Distributor) :
  maxLineSizeTruncate (getValidationContextForTime now1 tenant) = true ->
  maxLineSize (getValidationContextForTime now1 tenant) <> 0 ->
  Forall (short_call (getValidationContextForTime now1 tenant))
    (calls (prepared mode now1 tenant req d)).
Proof.
  intros Htr Hm.
  apply (prepared_invariant
           (fun st => Forall (short_call (getValidationContextForTime now1 tenant)) (calls st))).
  - intros st H. exact H.
  - intros a v st H. exact H.
  - intros a s st H. apply iteration_short_calls; assumption.
  - apply Forall_nil_2.
Qed.

(** The log [Push] leaves is the log of its loop over the request. *)
Lemma Push_start_calls mode ctx now1 now2 ring req (d : Distributor) tenant :
  TenantID ctx = inl tenant ->
  calls (Push_start mode ctx now1 now2 ring req d).1
  = calls (prepared mode now1 tenant req d).
Proof.
  intros Ht. unfold Push_start. rewrite Ht.
  destruct req as [|s req].
  - cbn. unfold prepared. destruct mode; reflexivity.
  - cbn [length Nat.eqb].
    destruct (length (streams (prepared mode now1 tenant (s :: req) d)) =? 0);
      [reflexivity|].
    destruct (AllowN _ _ _ _) as [ok lim].
    destruct ok; cbn [negb]; [|reflexivity].
    destruct (ring_loop _ _ _ _); reflexivity.
Qed.

(** C8: with truncation enabled and a non-zero [max_line_size], every entry
    that [Push] hands to [ValidateEntry] has a line of at most
    [max_line_size] bytes, the lines having been truncated before; so, for a
    validator that reports a line as too long only when it is longer than
    [max_line_size], no entry is rejected for that. *)
Theorem Push_validates_truncated_lines mode ctx now1 now2 ring req (d : Distributor)
    tenant (tooLong : error -> Prop) :
  TenantID ctx = inl tenant ->
  maxLineSizeTruncate (getValidationContextForTime now1 tenant) = true ->
  maxLineSize (getValidationContextForTime now1 tenant) <> 0 ->
  (forall labels e er,
      ValidateEntry (getValidationContextForTime now1 tenant) labels e = Some er ->
      tooLong er ->
      maxLineSize (getValidationContextForTime now1 tenant) < len (Line e)) ->
  let log := calls (Push_start mode ctx now1 now2 ring req d).1 in
  Forall (fun e => len (Line e) <= maxLineSize (getValidationContextForTime now1 tenant))
    (validated_entries log) /\
  (forall labels e er, CallValidateEntry labels e (Some er) ∈ log -> ~ tooLong er).
Proof.
  intros Ht Htr Hm Hval. cbn zeta.
  rewrite (Push_start_calls _ _ _ _ _ _ _ _ Ht).
  pose proof (prepared_short_calls mode now1 tenant req d Htr Hm) as Hshort.
  rewrite Forall_forall in Hshort.
  split.
  - apply Forall_forall. intros e He.
    unfold validated_entries in He. apply list_elem_of_omap in He as (c & Hc & Hce).
    destruct c as [|labels e' r]; [discriminate|]. injection Hce as ->.
    apply (Hshort _ Hc).
  - intros labels e er Hc Hlong.
    destruct (Hshort _ Hc) as [Hlen Hr]. symmetry in Hr.
    specialize (Hval labels e er Hr Hlong). lia.
Qed.

(** The cache [Push] leaves is valid when the one it found was. *)
Lemma iteration_cache_valid vContext tenant a (s : Stream) (st : pushState) :
  cache_valid (labelCache st) ->
  cache_valid (labelCache (iteration vContext tenant a s st).2).
Proof.
  intros Hinv. apply iteration_cases.
  - intros _. exact Hinv.
  - intros s1 m1 labels e cache' He Ht Hp.
    rewrite (iteration_drop _ _ _ _ _ _ _ _ _ _ He Ht Hp). cbn [snd labelCache].
    pose proof (parseStreamLabels_cache_valid vContext (Labels s1) s1 _ Hinv) as H.
    rewrite Hp in H. exact H.
  - intros s1 m1 labels cache' He Ht Hp.
    rewrite (iteration_keep _ _ _ _ _ _ _ _ _ He Ht Hp). cbn [snd labelCache].
    pose proof (parseStreamLabels_cache_valid vContext (Labels s1) s1 _ Hinv) as H.
    rewrite Hp in H. exact H.
Qed.

(** [Push] keeps the label cache valid: when every cached string is the
    canonical form of labels that parse and that some limits accept, the
    same holds of the cache [Push] leaves, on every path. *)
Lemma Push_start_cache_valid mode ctx now1 now2 ring req (d : Distributor) :
  cache_valid (d_labelCache d) ->
  cache_valid (labelCache (Push_start mode ctx now1 now2 ring req d).1).
Proof.
  intros Hd. unfold Push_start.
  destruct (TenantID ctx) as [tenant|e]; [|exact Hd].
  destruct (length req =? 0); [exact Hd|].
  assert (cache_valid (labelCache (prepared mode now1 tenant req d))) as Hp.
  { apply (prepared_invariant (fun st => cache_valid (labelCache st))).
    - intros st H. exact H.
    - intros a v st H. exact H.
    - intros a s st H. apply iteration_cache_valid. exact H.
    - exact Hd. }
  destruct (length (streams (prepared mode now1 tenant req d)) =? 0); [exact Hp|].
  destruct (AllowN _ _ _ _) as [ok lim].
  destruct ok; cbn [negb]; [|exact Hp].
  destruct (ring_loop _ _ _ _); exact Hp.
Qed.

(** *** The fan-out that Push starts *)

Lemma iteration_streams_length vContext tenant a (s : Stream) (st : pushState) :
  length (streams (iteration vContext tenant a s st).2) <= S (length (streams st)).
Proof.
  apply (iteration_cases (fun st' => length (streams st') <= S (length (streams st)))).
  - intros _. lia.
  - intros s1 m1 labels e cache' He Ht Hp.
    rewrite (iteration_drop _ _ _ _ _ _ _ _ _ _ He Ht Hp). cbn. lia.
  - intros s1 m1 labels cache' He Ht Hp.
    rewrite (iteration_keep _ _ _ _ _ _ _ _ _ He Ht Hp). cbn. rewrite length_app. cbn. lia.
Qed.

Lemma prepare_loop_streams_length mode vContext tenant req : forall a (st : pushState),
  length (streams (prepare_loop mode vContext tenant a req st))
  <= length (streams st) + length req.
Proof.
  induction req as [|s req IH]; intros a st; [cbn; lia|].
  cbn [prepare_loop length].
  destruct mode.
  - pose proof (iteration_streams_length vContext tenant a s st) as Hit.
    destruct (iteration vContext tenant a s st) as [v st2].
    etransitivity; [apply IH|]. cbn in *. lia.
  - cbn [alloc].
    pose proof (iteration_streams_length vContext tenant (next_addr st) s
                  (alloc st).2) as Hit. cbn [alloc snd] in Hit.
    destruct (iteration vContext tenant (next_addr st) s _) as [v st2].
    etransitivity; [apply IH|]. cbn in *. lia.
Qed.

Lemma prepared_streams_length mode now1 tenant req (d : Distributor) :
  length (streams (prepared mode now1 tenant req d)) <= length req.
Proof.
  unfold prepared. destruct mode; cbn [alloc].
  - etransitivity; [apply prepare_loop_streams_length|]. cbn. lia.
  - etransitivity; [apply prepare_loop_streams_length|]. cbn. lia.
Qed.

Lemma int32_small (z : Z) : (0 <= z < 2 ^ 31)%Z -> int32 z = z.
Proof. intros Hz. unfold int32. rewrite Z.mod_small; lia. Qed.

Lemma start_tasks_PcCall (rs : ringState) a t :
  start_tasks rs !! a = Some t -> t_pc t = PcCall.
Proof.
  unfold start_tasks. rewrite map_lookup_imap.
  destruct (streamsByIngester rs !! a); cbn; [|discriminate].
  intros [= <-]. reflexivity.
Qed.

(** When the fan-out starts, nothing has been sent and every task is before
    its RPC. *)
Lemma Push_start_fanout_inv mode ctx now1 now2 ring req (d : Distributor) f (k : Z) :
  (Push_start mode ctx now1 now2 ring req d).2 = FanOut f ->
  (Z.of_nat (length req) < 2 ^ 31)%Z -> (k <= 2 ^ 31)%Z ->
  done_inv k f /\ err_inv f.
Proof.
  unfold Push_start.
  destruct (TenantID ctx) as [tenant|e]; [|discriminate].
  destruct (length req =? 0); [discriminate|].
  destruct (length (streams (prepared mode now1 tenant req d)) =? 0); [discriminate|].
  destruct (AllowN _ _ _ _) as [ok lim].
  destruct ok; cbn [negb]; [|discriminate].
  destruct (ring_loop _ _ _ _) as [rs|e]; [|discriminate].
  cbn [snd]. intros [= <-] Hreq Hk.
  pose proof (prepared_streams_length mode now1 tenant req d) as Hlen.
  assert (none_at at_SendDone (start_tasks rs)) as Hd.
  { intros a t Ha. rewrite (start_tasks_PcCall _ _ _ Ha). reflexivity. }
  assert (none_at at_SendErr (start_tasks rs)) as He.
  { intros a t Ha. rewrite (start_tasks_PcCall _ _ _ Ha). reflexivity. }
  split.
  - unfold done_inv. cbn [f_tracker f_tasks pending done sends make_chan allowed streams].
    rewrite int32_small by lia.
    split; [lia|]. split.
    { intros a b ta tb Ha _ Hat. rewrite (Hd _ _ Ha) in Hat. discriminate. }
    split; [intros _; split; [reflexivity|exact Hd]|].
    split; [discriminate|lia].
  - unfold err_inv. cbn [f_tracker f_tasks failed err sends make_chan].
    split.
    { intros a b ta tb Ha _ Hat. rewrite (He _ _ Ha) in Hat. discriminate. }
    split; [intros _; split; [reflexivity|exact He]|].
    split; [discriminate|lia].
Qed.

(** For every schedule (of at most 2^31 steps, so that the 32-bit pending
    counter cannot wrap around) at most one value is sent on [done] and at
    most one on [err]. *)
Lemma Push_sends_at_most_once mode ctx now1 now2 ring req (d : Distributor) f rpc sched :
  (Push_start mode ctx now1 now2 ring req d).2 = FanOut f ->
  (Z.of_nat (length req) < 2 ^ 31)%Z ->
  (Z.of_nat (length sched) <= 2 ^ 31)%Z ->
  sends (done (f_tracker (run rpc sched f))) <= 1 /\
  sends (err (f_tracker (run rpc sched f))) <= 1.
Proof.
  intros Hf Hreq Hsched.
  destruct (Push_start_fanout_inv _ _ _ _ _ _ _ _ _ Hf Hreq Hsched) as [Hd He].
  split.
  - apply (run_done_inv rpc sched f Hd).
  - apply (run_err_inv rpc sched f He).
Qed.

(** *** One range variable for the whole loop *)

Lemma iteration_streams_addr vContext tenant a (s : Stream) (st : pushState) :
  Forall (fun t => stream t = a) (streams st) ->
  Forall (fun t => stream t = a) (streams (iteration vContext tenant a s st).2).
Proof.
  intros Hinv. apply iteration_cases.
  - intros _. exact Hinv.
  - intros s1 m1 labels e cache' He Ht Hp.
    rewrite (iteration_drop _ _ _ _ _ _ _ _ _ _ He Ht Hp). exact Hinv.
  - intros s1 m1 labels cache' He Ht Hp.
    rewrite (iteration_keep _ _ _ _ _ _ _ _ _ He Ht Hp). cbn [snd streams].
    apply Forall_app. split; [exact Hinv|]. apply Forall_singleton. reflexivity.
Qed.

Lemma prepare_loop_PerLoop_addr vContext tenant a req : forall (st : pushState),
  Forall (fun t => stream t = a) (streams st) ->
  Forall (fun t => stream t = a)
    (streams (prepare_loop PerLoop vContext tenant a req st)).
Proof.
  induction req as [|s req IH]; intros st Hinv; [exact Hinv|].
  cbn [prepare_loop].
  pose proof (iteration_streams_addr vContext tenant a s st Hinv) as Hit.
  destruct (iteration vContext tenant a s st) as [v st2].
  apply IH. exact Hit.
Qed.

(** With one range variable for the loop, every tracker holds the same
    address, whatever the request: [&stream] is the address of that one
    variable. *)
Lemma prepared_PerLoop_one_cell now1 tenant req (d : Distributor) :
  Forall (fun t => stream t = 0) (streams (prepared PerLoop now1 tenant req d)).
Proof.
  unfold prepared. cbn [alloc enter next_addr].
  apply prepare_loop_PerLoop_addr. apply Forall_nil_2.
Qed.
End PushProperties.

(** ** The model on concrete requests *)

Module Runs.
Import Example.

(** C1: two streams, [{a}] replicated on i1, i2, i3 and [{b}] on i4, i5, i6,
    one failure tolerated, every RPC succeeding.  Once the three tasks of
    [{a}] have run, its success budget has gone from 2 to -1 and the pending
    counter from 2 to 0: [done] is signalled and [Push] returns success, while
    [{b}] has not been sent to any ingester (its tasks have not moved and its
    success budget is still 2). *)
Theorem Push_succeeds_before_second_stream_has_quorum :
  let r := Push_start (C := collab (limits 0 false) 0) PerLoop ctx_t 0 0 ring3
             [stream_a; stream_b] (distributor0 _ _ 1000) in
  let sched := steps 6 "i1" ++ steps 6 "i2" ++ steps 6 "i3" ++ [RecvDone] in
  Push_result r.2 all_ok sched = Some (Some EmptyResponse, None) /\
  map fst (Push_rpcs r.2 all_ok sched) = ["i1"; "i2"; "i3"]%string /\
  (fun f => (map successBucket (f_streams f), pending (f_tracker f),
             t_pc <$> f_tasks f !! "i4"%string,
             t_pc <$> f_tasks f !! "i5"%string,
             t_pc <$> f_tasks f !! "i6"%string))
    <$> Push_fanout r.2 all_ok sched
  = Some ([-1; 2]%Z, 0%Z, Some PcCall, Some PcCall, Some PcCall).
Proof. vm_compute. repeat split. Qed.

(** C2: one stream on i1, i2, i3 with one failure tolerated; i1 fails, i2 and
    i3 succeed.  When the failure of i1 is the first completion, the failure
    budget goes from 1 to 0, the tracker is marked failed and the error is
    sent: [Push] returns the error of i1.  After the two successes both
    budgets of the stream are 0. *)
Theorem Push_fails_on_the_one_tolerated_failure :
  let r := Push_start (C := collab (limits 0 false) 0) PerLoop ctx_t 0 0 ring3
             [stream_a] (distributor0 _ _ 1000) in
  let sched := steps 6 "i1" ++ [RecvErr] ++ steps 6 "i2" ++ steps 6 "i3" in
  Push_result r.2 i1_fails sched = Some (None, Some (Err "i1: unavailable")) /\
  (fun f => map (fun t => (successBucket t, failureBucket t)) (f_streams f))
    <$> Push_fanout r.2 i1_fails sched
  = Some [(0, 0)%Z].
Proof. vm_compute. repeat split. Qed.

(** C6: the same request and replies, with the three tasks run to their end
    in either order before [Push] looks at its channels: one value has been
    sent on [err] and one on [done], and both channels hold a value. *)
Theorem Push_tracker_gets_done_and_error :
  let r := Push_start (C := collab (limits 0 false) 0) PerLoop ctx_t 0 0 ring3
             [stream_a] (distributor0 _ _ 1000) in
  let first_i1 := steps 6 "i1" ++ steps 6 "i2" ++ steps 6 "i3" in
  let last_i1 := steps 6 "i3" ++ steps 6 "i2" ++ steps 6 "i1" in
  f_tracker <$> Push_fanout r.2 i1_fails first_i1
  = Some {| done := mkChan [tt] 1; err := mkChan [Err "i1: unavailable"] 1;
            pending := 0; failed := true |} /\
  f_tracker <$> Push_fanout r.2 i1_fails last_i1
  = Some {| done := mkChan [tt] 1; err := mkChan [Err "i1: unavailable"] 1;
            pending := 0; failed := true |}.
Proof. vm_compute. repeat split. Qed.

(** C7: two streams [{a}] and [{b}] routed to the one ingester i1.  Both
    trackers hold the address of the range variable, which is left with the
    last stream of the request, so the payload of the RPC is [{b}] twice. *)
Theorem sendToIngester_payload_repeats_last_stream :
  let r := Push_start (C := collab (limits 0 false) 0) PerLoop ctx_t 0 0 ring1
             [stream_a; stream_b] (distributor0 _ _ 1000) in
  Push_rpcs r.2 all_ok (steps 1 "i1") = [("i1"%string, [stream_b; stream_b])] /\
  (fun f => map stream (f_streams f)) <$> Push_fanout r.2 all_ok [] = Some [0; 0].
Proof. vm_compute. repeat split. Qed.

(** With a range variable per iteration the same request is sent as it
    should be. *)
Lemma sendToIngester_payload_per_iteration :
  let r := Push_start (C := collab (limits 0 false) 0) PerIteration ctx_t 0 0 ring1
             [stream_a; stream_b] (distributor0 _ _ 1000) in
  Push_rpcs r.2 all_ok (steps 1 "i1") = [("i1"%string, [stream_a; stream_b])].
Proof. vm_compute. reflexivity. Qed.

(** C3, as the spec has it, fails: the labels of the first stream do not
    parse, an entry of the second stream is too far in the future; [Push]
    returns the second error with its response, not the first. *)
Lemma Push_does_not_return_first_validation_error :
  let r := Push_start (C := collab (limits 0 false) 0) PerLoop ctx_t 0 0 ring1
             mixed_request (distributor0 _ _ 1000) in
  let sched := steps 6 "i1" ++ [RecvDone] in
  head (validation_errors (calls r.1))
  = Some (Errorf 400 "error parsing labels %s with error: %s"
            [ArgString "not_a_labelset"; ArgError (Err "syntax error")]) /\
  Push_result r.2 all_ok sched
  = Some (Some EmptyResponse, Some (Errorf 400 "too_far_in_future" [ArgString "{a}"])) /\
  Push_result r.2 all_ok sched
  <> Some (Some EmptyResponse, head (validation_errors (calls r.1))).
Proof. vm_compute. repeat split. discriminate. Qed.

Lemma Push_returns_last_validation_error_witness :
  let r := Push_start (C := collab (limits 0 false) 0) PerLoop ctx_t 0 0 ring1
             mixed_request (distributor0 _ _ 1000) in
  let sched := steps 6 "i1" ++ [RecvDone] in
  Push_result r.2 all_ok sched
  = Some (Some EmptyResponse, Some (Errorf 400 "too_far_in_future" [ArgString "{a}"])) /\
  Some (Errorf 400 "too_far_in_future" [ArgString "{a}"])
  = last (validation_errors (calls r.1)).
Proof.
  cbn zeta. split; [vm_compute; reflexivity|].
  apply (Push_returns_last_validation_error (C := collab (limits 0 false) 0)
           PerLoop ctx_t 0 0 ring1 mixed_request (distributor0 _ _ 1000)
           all_ok (steps 6 "i1" ++ [RecvDone]) EmptyResponse).
  vm_compute. reflexivity.
Defined.

(** S4 in small: 10 bytes in the bucket, 11 bytes of valid lines. *)
Lemma Push_rate_limited_witness :
  let r := Push_start (C := collab (limits 0 false) 10) PerLoop ctx_t 0 0 ring1
             [stream_a; stream_b] (distributor0 _ _ 10) in
  r.2 = Returned None
          (Some (Errorf 429 (@RateLimitedErrorMsg (collab (limits 0 false) 10))
                   [ArgString "t"; ArgInt 10; ArgInt 2; ArgInt 11])) /\
  metrics r.1 DiscardedSamples RateLimited "t" = 2 /\
  metrics r.1 DiscardedBytes RateLimited "t" = 11 /\
  (forall rpc sched, Push_rpcs r.2 rpc sched = []).
Proof.
  cbn zeta.
  destruct (Push_rate_limited (C := collab (limits 0 false) 10) PerLoop ctx_t 0 0 ring1
              [stream_a; stream_b] (distributor0 _ _ 10) "t" 10)
    as (H1 & H2 & H3 & H4 & _).
  - reflexivity.
  - vm_compute. discriminate.
  - vm_compute. reflexivity.
  - split; [exact H1 | split; [exact H2 | split; [exact H3 | exact H4]]].
Defined.

Lemma Push_ring_lookup_error_witness :
  let r := Push_start (C := collab (limits 0 false) 0) PerLoop ctx_t 0 0 ring_down
             [stream_a; stream_b] (distributor0 _ _ 1000) in
  r.2 = Returned None
          (Some (Err "at least 2 live replicas required, could only find 1")) /\
  (forall rpc sched, Push_rpcs r.2 rpc sched = []).
Proof.
  cbn zeta.
  destruct (Push_ring_lookup_error (C := collab (limits 0 false) 0) PerLoop ctx_t 0 0
              ring_down [stream_a; stream_b] (distributor0 _ _ 1000) "t" 989
              [ex_TokenFor "t" "{a}"] (ex_TokenFor "t" "{b}") []
              (Err "at least 2 live replicas required, could only find 1"))
    as (H1 & _ & H3).
  - reflexivity.
  - vm_compute. discriminate.
  - vm_compute. reflexivity.
  - vm_compute. reflexivity.
  - intros k Hk. apply list_elem_of_singleton in Hk as ->.
    eexists. vm_compute. reflexivity.
  - vm_compute. reflexivity.
  - split; [exact H1 | exact H3].
Defined.

(** Lines of 5 and 7 bytes under a limit of 3 bytes with truncation. *)
Lemma Push_validates_truncated_lines_witness :
  let log := calls (Push_start (C := collab (limits 3 true) 0) PerLoop ctx_t 0 0 ring1
                      [two_long_lines] (distributor0 _ _ 1000)).1 in
  validated_entries log = [mkEntry 1 "abc"; mkEntry 2 "abc"] /\
  Forall (fun e => len (Line e) <= 3) (validated_entries log) /\
  (forall labels e er, CallValidateEntry labels e (Some er) ∈ log ->
     ~ (exists a, er = Errorf StatusBadRequest LineTooLong a)).
Proof.
  cbn zeta. split; [vm_compute; reflexivity|].
  apply (Push_validates_truncated_lines (C := collab (limits 3 true) 0) PerLoop ctx_t 0 0
           ring1 [two_long_lines] (distributor0 _ _ 1000) "t"
           (fun er => exists a, er = Errorf StatusBadRequest LineTooLong a)).
  - reflexivity.
  - reflexivity.
  - discriminate.
  - intros labels e er Hv [a ->]. revert Hv.
    cbn. unfold ex_ValidateEntry. cbn.
    repeat case_match; discriminate.
Defined.

(** C9, as the spec has it, fails: tenant [t] has had [{ a }] cached; for
    tenant [u], whose limits reject these labels, the hit returns the cached
    form and no error, where a fresh parse, validation and canonicalisation
    returns the empty string and the validation error. *)
Lemma label_cache_hit_differs_from_fresh_parse :
  let cache := parse_all (C := collab (limits 0 false) 0)
                 [(vcontext 0 false "t", "{ a }"%string, stream_a)] [] in
  lru_lookup "{ a }" cache = Some "{a}"%string /\
  (parseStreamLabels (C := collab (limits 0 false) 0) strict_limits "{ a }"
     stream_b cache).1 = ("{a}"%string, None) /\
  fresh_parse (C := collab (limits 0 false) 0) strict_limits "{ a }" stream_b
  = (""%string, Some (Errorf 400 "label value too long" [ArgString "{a}"])) /\
  (parseStreamLabels (C := collab (limits 0 false) 0) strict_limits "{ a }"
     stream_b cache).1
  <> fresh_parse (C := collab (limits 0 false) 0) strict_limits "{ a }" stream_b.
Proof. vm_compute. repeat split. discriminate. Qed.

(** The raw string [{ a }] is cached under its canonical form [{a}]. *)
Lemma label_cache_hit_is_fresh_parse_witness :
  let cs := [(vcontext 0 false "t", "{ a }"%string, stream_a)] in
  let cache := parse_all (C := collab (limits 0 false) 0) cs [] in
  lru_lookup "{ a }" cache = Some "{a}"%string /\
  (parseStreamLabels (C := collab (limits 0 false) 0) (vcontext 3 true "u") "{ a }"
     stream_b cache).1 = ("{a}"%string, None) /\
  (forall vContext' s' v',
      fresh_parse (C := collab (limits 0 false) 0) vContext' "{ a }" s' = (v', None) ->
      v' = "{a}"%string).
Proof.
  cbn zeta. split; [vm_compute; reflexivity|].
  destruct (label_cache_hit_is_fresh_parse (C := collab (limits 0 false) 0)
              [(vcontext 0 false "t", "{ a }"%string, stream_a)]
              (vcontext 3 true "u") "{ a }" stream_b "{a}")
    as (H1 & _ & _ & H4 & _).
  - vm_compute. reflexivity.
  - split; [exact H1 | exact H4].
Defined.

End Runs.

(** * Properties of [truncateLines], the label cache, the ring loop and the fan-out *)

(** ** truncateLines, for every stream *)

Lemma truncate_entry_slice (m : nat) (e : Entry) :
  m <> 0 -> truncate_entry m e = mkEntry (Timestamp e) (slice_to m (Line e)).
Proof.
  intros Hm. unfold truncate_entry, too_long.
  destruct (Nat.eqb_spec m 0) as [|_]; [contradiction|]. cbn [negb andb].
  destruct (Nat.ltb_spec m (len (Line e))) as [Hlt|Hge]; [reflexivity|].
  rewrite slice_to_all by exact Hge. destruct e; reflexivity.
Qed.

Lemma truncated_count_filter (m : nat) (es : list Entry) :
  m <> 0 ->
  truncated_count m es = length (List.filter (fun e => m <? len (Line e)) es).
Proof.
  intros Hm. unfold truncated_count. f_equal.
  apply filter_ext. intros e. unfold too_long.
  destruct (Nat.eqb_spec m 0) as [|_]; [contradiction|]. reflexivity.
Qed.

(** With truncation enabled and a positive limit, [truncateLines] keeps the
    labels, the number and the timestamps of the entries, cuts every line to
    its first [maxLineSize] bytes (a line within the limit is its own prefix)
    and advances the mutated-samples counter by the number of lines that
    were longer than the limit. *)
Theorem truncateLines_cuts_each_line (vContext : validationContext) (s : Stream)
    (c : counters) :
  maxLineSizeTruncate vContext = true ->
  maxLineSize vContext <> 0 ->
  let r := truncateLines vContext s c in
  Labels r.1 = Labels s /\
  length (Entries r.1) = length (Entries s) /\
  (forall i e, Entries s !! i = Some e ->
     Entries r.1 !! i
     = Some (mkEntry (Timestamp e) (slice_to (maxLineSize vContext) (Line e)))) /\
  r.2 MutatedSamples LineTooLong (userID vContext)
  = c MutatedSamples LineTooLong (userID vContext)
    + length (List.filter (fun e => maxLineSize vContext <? len (Line e)) (Entries s)).
Proof.
  intros Ht Hm. cbn zeta. rewrite truncateLines_enabled by exact Ht. cbn [fst snd Labels Entries].
  split; [reflexivity|]. split; [apply length_map|]. split.
  - intros i e Hi. rewrite list_lookup_fmap, Hi. cbn.
    rewrite truncate_entry_slice by exact Hm. reflexivity.
  - rewrite counter_add_other by discriminate. rewrite counter_add_same.
    rewrite truncated_count_filter by exact Hm. reflexivity.
Qed.

Lemma truncate_entries_short (m : nat) (es : list Entry) :
  m = 0 \/ Forall (fun e => len (Line e) <= m) es ->
  map (truncate_entry m) es = es /\ truncated_count m es = 0 /\
  last_truncated_bytes m 0 es = 0.
Proof.
  intros H.
  assert (Forall (fun e => too_long m e = false) es) as Hno.
  { destruct H as [->|H].
    - apply Forall_forall. intros e _. reflexivity.
    - eapply Forall_impl; [exact H|]. intros e He. cbn beta in He. unfold too_long.
      destruct (Nat.ltb_spec m (len (Line e))); [lia|]. apply andb_false_r. }
  clear H. unfold truncated_count, last_truncated_bytes.
  induction Hno as [|e es He Hes (IH1 & IH2 & IH3)]; [repeat split|].
  cbn [map List.filter fold_left]. unfold truncate_entry at 1. rewrite He.
  split; [f_equal; exact IH1|]. split; assumption.
Qed.

Lemma counter_add_zero m reason tenant (c : counters) m' r' t' :
  counter_add m reason tenant 0 c m' r' t' = c m' r' t'.
Proof. unfold counter_add. destruct (decide _); lia. Qed.

(** [truncateLines] changes nothing, neither the stream nor any counter,
    when truncation is disabled, when the limit is 0 (no limit), or when no
    line is longer than the limit. *)
Theorem truncateLines_leaves_short_lines (vContext : validationContext) (s : Stream)
    (c : counters) :
  maxLineSizeTruncate vContext = false \/ maxLineSize vContext = 0 \/
  Forall (fun e => len (Line e) <= maxLineSize vContext) (Entries s) ->
  (truncateLines vContext s c).1 = s /\
  forall m r t, (truncateLines vContext s c).2 m r t = c m r t.
Proof.
  intros H. destruct (maxLineSizeTruncate vContext) eqn:Ht.
  - destruct H as [H|H]; [discriminate|].
    rewrite truncateLines_enabled by exact Ht.
    destruct (truncate_entries_short _ _ H) as (-> & -> & ->).
    split; [destruct s; reflexivity|]. intros m r t. cbn [snd].
    rewrite !counter_add_zero. reflexivity.
  - rewrite truncateLines_disabled by exact Ht. split; reflexivity.
Qed.

(** Truncating twice is truncating once: on a stream that [truncateLines]
    returned, a second call under the same limits returns the same stream
    and advances no counter. *)
Theorem truncateLines_idempotent (vContext : validationContext) (s : Stream)
    (c c' : counters) :
  (truncateLines vContext (truncateLines vContext s c).1 c').1
  = (truncateLines vContext s c).1 /\
  forall m r t,
    (truncateLines vContext (truncateLines vContext s c).1 c').2 m r t = c' m r t.
Proof.
  destruct (maxLineSizeTruncate vContext) eqn:Ht.
  - rewrite !truncateLines_enabled by exact Ht. cbn [fst snd Entries Labels].
    destruct (truncate_entries_short (maxLineSize vContext)
                (map (truncate_entry (maxLineSize vContext)) (Entries s)))
      as (-> & -> & ->).
    { destruct (Nat.eq_dec (maxLineSize vContext) 0) as [H0|H0]; [left; exact H0|].
      right. apply Forall_forall. intros e He.
      apply list_elem_of_In, in_map_iff in He as (e0 & <- & _).
      apply truncate_entry_len. exact H0. }
    split; [reflexivity|]. intros m r t. rewrite !counter_add_zero. reflexivity.
  - rewrite !truncateLines_disabled by exact Ht. split; reflexivity.
Qed.

Section LabelCache.
Context `{C : Collaborators}.

(** ** parseStreamLabels and the cache *)

Lemma lru_lookup_head (key v : string) (c : lruCache) :
  lru_lookup key ((key, v) :: c) = Some v.
Proof. unfold lru_lookup. cbn. rewrite bool_decide_eq_true_2 by reflexivity. reflexivity. Qed.

Lemma lru_lookup_Add (key v : string) (c : lruCache) :
  lru_lookup key (lru_Add maxLabelCacheSize key v c) = Some v.
Proof.
  unfold lru_Add. destruct (_ <? _)%N eqn:Hfull; [|apply lru_lookup_head].
  apply N.ltb_lt in Hfull. cbn [length] in Hfull.
  destruct (lru_remove key c) as [|x rest] eqn:Hr.
  - cbn in Hfull. unfold maxLabelCacheSize in Hfull. lia.
  - cbn [removelast]. apply lru_lookup_head.
Qed.

(** An error of [parseStreamLabels] comes with the empty string, for a key
    that is not cached, and leaves the cache as it was. *)
Theorem parseStreamLabels_error_not_cached (vContext : validationContext)
    (key : string) (s : Stream) (cache : lruCache) (e : error) :
  (parseStreamLabels vContext key s cache).1.2 = Some e ->
  parseStreamLabels vContext key s cache = (("", Some e), cache) /\
  lru_lookup key cache = None /\
  (forall ls, ParseLabels key = inl ls -> ValidateLabels vContext ls s = Some e) /\
  (forall pe, ParseLabels key = inr pe ->
     e = Errorf 400 InvalidLabelsErrorMsg [ArgString key; ArgError pe]).
Proof.
  unfold parseStreamLabels, lru_Get.
  destruct (lru_lookup key cache) as [v|] eqn:Hl; [discriminate|].
  destruct (ParseLabels key) as [ls|pe].
  - destruct (ValidateLabels vContext ls s) as [e'|] eqn:Hv; [|discriminate].
    cbn. intros [= ->]. repeat split; try reflexivity.
    + intros ls' [= <-]. exact Hv.
    + intros pe [=].
  - cbn. intros [= <-]. repeat split; try reflexivity.
    + intros ls [=].
    + intros pe' [= <-]. reflexivity.
Qed.

(** What [parseStreamLabels] has returned without error for a key, it returns
    again for that key from the cache it left, whatever the limits and the
    stream of the second call. *)
Theorem parseStreamLabels_then_hit (vContext vContext' : validationContext)
    (key : string) (s s' : Stream) (cache cache' : lruCache) (labels : string) :
  parseStreamLabels vContext key s cache = ((labels, None), cache') ->
  (parseStreamLabels vContext' key s' cache').1 = (labels, None).
Proof.
  intros H. apply parseStreamLabels_hit. revert H.
  unfold parseStreamLabels, lru_Get.
  destruct (lru_lookup key cache) as [v|] eqn:Hl.
  - intros [= <- <-]. apply lru_lookup_head.
  - destruct (ParseLabels key) as [ls|pe]; [|discriminate].
    destruct (ValidateLabels vContext ls s) as [e'|]; [discriminate|].
    intros [= <- <-]. apply lru_lookup_Add.
Qed.

End LabelCache.

Section NothingSurvives.
Context `{C : Collaborators}.

(** ** The entry loop compacts in place *)

Lemma entry_loop_size (vContext : validationContext) (labels : string)
    (rest : list Entry) :
  forall (kept junk : list Entry) (i : nat) (st : entryState),
    e_entries st = kept ++ junk ++ rest ->
    e_n st = length kept ->
    i = length kept + length junk ->
    let st' := entry_loop vContext labels (length rest) i st in
    e_n st' = e_n st + length (List.filter (accepts vContext labels) rest) /\
    length (e_entries st') = length (e_entries st).
Proof.
  induction rest as [|e rest IH]; intros kept junk i st Harr Hn Hi; cbn zeta.
  - cbn. split; lia.
  - cbn [length entry_loop].
    assert (e_entries st !! i = Some e) as ->.
    { rewrite Harr, app_assoc. apply list_lookup_middle. rewrite length_app. lia. }
    unfold entry_body. cbn [List.filter]. unfold accepts at 1.
    destruct (ValidateEntry vContext labels e) as [er|] eqn:Hv.
    + destruct (IH kept (junk ++ [e]) (S i)
                  (mkEntryState (e_entries st) (e_n st) (e_size st) (e_count st)
                     (Some er) (e_calls st ++ [CallValidateEntry labels e (Some er)])))
        as [H1 H2]; cbn [e_entries e_n].
      * rewrite Harr, <- !app_assoc. reflexivity.
      * exact Hn.
      * rewrite length_app. cbn. lia.
      * cbn zeta in H1, H2. cbn [e_entries e_n] in H1, H2. split; assumption.
    + assert (exists junk', <[e_n st := e]> (e_entries st) = (kept ++ [e]) ++ junk' ++ rest /\
                            S i = length (kept ++ [e]) + length junk') as (junk' & Harr' & Hi').
      { destruct junk as [|j junk].
        - exists []. rewrite Harr, Hn. cbn [app]. rewrite insert_middle, <- app_assoc.
          split; [reflexivity|]. rewrite length_app. cbn in *. lia.
        - exists (junk ++ [e]). rewrite Harr, Hn. cbn [app].
          rewrite insert_middle, <- !app_assoc.
          split; [reflexivity|]. rewrite !length_app. cbn in *. lia. }
      destruct (IH (kept ++ [e]) junk' (S i)
                  (mkEntryState (<[e_n st := e]> (e_entries st)) (S (e_n st))
                     (e_size st + len (Line e)) (S (e_count st))
                     (e_err st) (e_calls st ++ [CallValidateEntry labels e None])))
        as [H1 H2]; cbn [e_entries e_n].
      * exact Harr'.
      * rewrite length_app, Hn. cbn. lia.
      * exact Hi'.
      * cbn zeta in H1, H2. cbn [e_entries e_n] in H1, H2.
        rewrite H1, H2, length_insert. cbn [length]. split; lia.
Qed.

(** The loop over the entries of a stream, started as [Push] starts it: the
    array keeps its length; its first [n] cells hold exactly the entries that
    [ValidateEntry] accepts, in their order; the two totals advance by the
    number and the byte size of these entries; the error kept is that of the
    last rejected entry, if any. *)
Theorem entry_loop_keeps_accepted_entries (vContext : validationContext)
    (labels : string) (l : list Entry) (size count : nat) (verr : option error)
    (log : list call) :
  let es := entry_loop vContext labels (length l) 0
              (mkEntryState l 0 size count verr log) in
  let kept := List.filter (accepts vContext labels) l in
  length (e_entries es) = length l /\
  e_n es = length kept /\
  take (e_n es) (e_entries es) = kept /\
  e_count es = count + length kept /\
  e_size es = size + entries_bytes kept /\
  e_err es = match last (omap (ValidateEntry vContext labels) l) with
             | Some e => Some e
             | None => verr
             end.
Proof.
  cbn zeta.
  destruct (entry_loop_spec vContext labels l [] [] 0
              (mkEntryState l 0 size count verr log) eq_refl eq_refl eq_refl)
    as (H1 & H2 & H3 & H4 & _).
  destruct (entry_loop_size vContext labels l [] [] 0
              (mkEntryState l 0 size count verr log) eq_refl eq_refl eq_refl)
    as (H5 & H6).
  cbn zeta in *. cbn [e_entries e_n e_size e_count e_err app] in *.
  repeat split; assumption.
Qed.

(** ** Requests of which no stream survives *)

Lemma prepare_loop_no_entries mode vContext tenant req :
  Forall (fun s => Entries s = []) req ->
  forall a (st : pushState),
    let st' := prepare_loop mode vContext tenant a req st in
    labelCache st' = labelCache st /\
    ingestionRateLimiter st' = ingestionRateLimiter st /\
    metrics st' = metrics st /\
    streams st' = streams st /\
    validationErr st' = validationErr st /\
    calls st' = calls st.
Proof.
  induction 1 as [|s req Hs Hreq IH]; intros a st; cbn zeta; [repeat split|].
  cbn [prepare_loop]. destruct mode.
  - rewrite iteration_empty by exact Hs.
    destruct (IH a (write_cell a s st)) as (H1 & H2 & H3 & H4 & H5 & H6).
    cbn zeta in *. rewrite H1, H2, H3, H4, H5, H6. repeat split.
  - cbn [alloc]. rewrite iteration_empty by exact Hs.
    destruct (IH (next_addr st) (write_cell (next_addr st) s (alloc st).2))
      as (H1 & H2 & H3 & H4 & H5 & H6).
    cbn zeta in *. cbn [alloc snd] in *. rewrite H1, H2, H3, H4, H5, H6. repeat split.
Qed.

(** A request whose streams all have no entries (or which has no stream) is
    answered with the empty response and no error; [parseStreamLabels] and
    [ValidateEntry] are never called (of the validator [Push] only reads the
    limits of the tenant), the label cache, the rate limiter and the
    counters are left as they were, and no RPC is issued. *)
Theorem Push_streams_without_entries mode ctx now1 now2 ring req (d : Distributor)
    tenant :
  TenantID ctx = inl tenant ->
  Forall (fun s => Entries s = []) req ->
  let r := Push_start mode ctx now1 now2 ring req d in
  r.2 = Returned (Some EmptyResponse) None /\
  calls r.1 = [] /\
  labelCache r.1 = d_labelCache d /\
  ingestionRateLimiter r.1 = d_ingestionRateLimiter d /\
  metrics r.1 = d_metrics d /\
  (forall rpc sched, Push_rpcs r.2 rpc sched = []).
Proof.
  intros Ht Hreq. cbn zeta. unfold Push_start. rewrite Ht.
  destruct (length req =? 0); [repeat split|].
  assert (let st := prepared mode now1 tenant req d in
          labelCache st = d_labelCache d /\
          ingestionRateLimiter st = d_ingestionRateLimiter d /\
          metrics st = d_metrics d /\ streams st = [] /\
          validationErr st = None /\ calls st = []) as (H1 & H2 & H3 & H4 & H5 & H6).
  { unfold prepared. destruct mode; cbn [alloc];
      apply (prepare_loop_no_entries _ _ _ _ Hreq). }
  rewrite H4. cbn [length Nat.eqb fst snd]. rewrite H1, H2, H3, H5, H6. repeat split.
Qed.

End NothingSurvives.

Section UnparsableLabels.
Context `{C : Collaborators}.

(** ** Requests whose labels do not parse *)

Lemma truncateLines_stream_indep vContext (s : Stream) (c c' : counters) :
  (truncateLines vContext s c).1 = (truncateLines vContext s c').1.
Proof. unfold truncateLines. destruct (maxLineSizeTruncate vContext); reflexivity. Qed.

Lemma truncateLines_Labels vContext (s : Stream) (c : counters) :
  Labels (truncateLines vContext s c).1 = Labels s.
Proof. unfold truncateLines. destruct (maxLineSizeTruncate vContext); reflexivity. Qed.

Lemma truncateLines_length vContext (s : Stream) (c : counters) :
  length (Entries (truncateLines vContext s c).1) = length (Entries s).
Proof.
  destruct (maxLineSizeTruncate vContext) eqn:Ht.
  - rewrite truncateLines_enabled by exact Ht. apply length_map.
  - rewrite truncateLines_disabled by exact Ht. reflexivity.
Qed.

Lemma truncateLines_discarded vContext (s : Stream) (c : counters) m r t :
  m = DiscardedSamples \/ m = DiscardedBytes ->
  (truncateLines vContext s c).2 m r t = c m r t.
Proof.
  intros Hm. unfold truncateLines. destruct (maxLineSizeTruncate vContext); [|reflexivity].
  cbn [negb snd]. rewrite !counter_add_other; [reflexivity| |];
    destruct Hm as [-> | ->]; discriminate.
Qed.

Lemma parseStreamLabels_unparsable vContext key (s : Stream) (cache : lruCache) e :
  cache_valid cache -> ParseLabels key = inr e ->
  parseStreamLabels vContext key s cache
  = (("", Some (Errorf StatusBadRequest InvalidLabelsErrorMsg [ArgString key; ArgError e])),
     cache).
Proof.
  intros Hc Hp. unfold parseStreamLabels, lru_Get.
  destruct (lru_lookup key cache) as [v|] eqn:Hl.
  - apply lru_lookup_elem, Hc in Hl as (ls & _ & _ & Hls & _). congruence.
  - rewrite Hp. reflexivity.
Qed.

Lemma prepare_loop_unparsable mode vContext tenant req :
  Forall (fun s => Entries s <> [] /\ exists e, ParseLabels (Labels s) = inr e) req ->
  forall a (st : pushState),
    cache_valid (labelCache st) ->
    let st' := prepare_loop mode vContext tenant a req st in
    labelCache st' = labelCache st /\
    ingestionRateLimiter st' = ingestionRateLimiter st /\
    streams st' = streams st /\
    metrics st' DiscardedSamples InvalidLabels tenant
    = metrics st DiscardedSamples InvalidLabels tenant
      + sum_list (map (fun s => length (Entries s)) req) /\
    metrics st' DiscardedBytes InvalidLabels tenant
    = metrics st DiscardedBytes InvalidLabels tenant
      + sum_list (map (fun s => entries_bytes (truncated_entries vContext s)) req) /\
    validationErr st' = match last req with
                        | Some s => labels_error (Labels s)
                        | None => validationErr st
                        end.
Proof.
  induction 1 as [|s req [Hs [e He]] Hreq IH]; intros a st Hc; cbn zeta.
  { cbn. repeat split; lia. }
  assert (forall a' (st1 : pushState),
             labelCache st1 = labelCache st -> metrics st1 = metrics st ->
             ingestionRateLimiter st1 = ingestionRateLimiter st ->
             streams st1 = streams st ->
             exists v st2,
               iteration vContext tenant a' s st1 = (v, st2) /\
               labelCache st2 = labelCache st /\
               ingestionRateLimiter st2 = ingestionRateLimiter st /\
               streams st2 = streams st /\
               metrics st2 DiscardedSamples InvalidLabels tenant
               = metrics st DiscardedSamples InvalidLabels tenant + length (Entries s) /\
               metrics st2 DiscardedBytes InvalidLabels tenant
               = metrics st DiscardedBytes InvalidLabels tenant
                 + entries_bytes (truncated_entries vContext s) /\
               validationErr st2 = labels_error (Labels s)) as Hit.
  { intros a' st1 E1 E2 E3 E4.
    destruct (truncateLines vContext s (metrics st1)) as [s1 m1] eqn:Ht.
    assert (s1 = (truncateLines vContext s (metrics st1)).1) as Hs1 by (rewrite Ht; reflexivity).
    assert (m1 = (truncateLines vContext s (metrics st1)).2) as Hm1 by (rewrite Ht; reflexivity).
    assert (Labels s1 = Labels s) as HL by (rewrite Hs1; apply truncateLines_Labels).
    eexists _, _. split.
    { eapply iteration_drop; [exact Hs|exact Ht|].
      rewrite HL, E1. apply parseStreamLabels_unparsable; [exact Hc|exact He]. }
    cbn [labelCache ingestionRateLimiter streams metrics validationErr].
    unfold labels_error. rewrite He.
    repeat split; try assumption.
    - rewrite counter_add_other by discriminate. rewrite counter_add_same.
      rewrite Hm1, truncateLines_discarded by (left; reflexivity).
      rewrite Hs1, truncateLines_length, E2. reflexivity.
    - rewrite counter_add_same. rewrite counter_add_other by discriminate.
      rewrite Hm1, truncateLines_discarded by (right; reflexivity).
      rewrite Hs1. unfold truncated_entries.
      rewrite (truncateLines_stream_indep vContext s (metrics st1) counters_zero), E2.
      reflexivity. }
  cbn [prepare_loop map sum_list sum_list_with]. rewrite last_cons.
  destruct mode.
  - destruct (Hit a st eq_refl eq_refl eq_refl eq_refl)
      as (v & st2 & -> & E1 & E2 & E3 & E4 & E5 & E6).
    destruct (IH a (write_cell a v st2)) as (H1 & H2 & H3 & H4 & H5 & H6).
    { cbn [write_cell labelCache]. rewrite E1. exact Hc. }
    cbn zeta in *. cbn [write_cell labelCache ingestionRateLimiter streams metrics validationErr] in *.
    rewrite H1, H2, H3, H4, H5, H6, E1, E2, E3, E4, E5, E6.
    clear IH Hit. unfold id. repeat split; try lia; destruct (last req); reflexivity.
  - cbn [alloc].
    destruct (Hit (next_addr st) (alloc st).2 eq_refl eq_refl eq_refl eq_refl)
      as (v & st2 & Hiter & E1 & E2 & E3 & E4 & E5 & E6).
    cbn [alloc snd] in Hiter. rewrite Hiter.
    destruct (IH (next_addr st) (write_cell (next_addr st) v st2)) as (H1 & H2 & H3 & H4 & H5 & H6).
    { cbn [write_cell labelCache]. rewrite E1. exact Hc. }
    cbn zeta in *. cbn [write_cell labelCache ingestionRateLimiter streams metrics validationErr] in *.
    rewrite H1, H2, H3, H4, H5, H6, E1, E2, E3, E4, E5, E6.
    clear IH Hit. unfold id. repeat split; try lia; destruct (last req); reflexivity.
Qed.

(** When the labels of every stream of a request fail to parse (and every
    stream has entries), no stream survives: [Push] answers with the empty
    response and the 400 error of the last stream, advances the
    invalid-labels discarded-samples counter by the number of entries of the
    request and the discarded-bytes counter by their byte size after
    truncation, leaves the label cache and the rate limiter as they were, and
    issues no RPC. *)
Theorem Push_unparsable_labels mode ctx now1 now2 ring req (d : Distributor) tenant :
  TenantID ctx = inl tenant ->
  cache_valid (d_labelCache d) ->
  req <> [] ->
  Forall (fun s => Entries s <> [] /\ exists e, ParseLabels (Labels s) = inr e) req ->
  let vContext := getValidationContextForTime now1 tenant in
  let r := Push_start mode ctx now1 now2 ring req d in
  (exists s, last req = Some s /\
             r.2 = Returned (Some EmptyResponse) (labels_error (Labels s)) /\
             labels_error (Labels s) <> None) /\
  metrics r.1 DiscardedSamples InvalidLabels tenant
  = d_metrics d DiscardedSamples InvalidLabels tenant
    + sum_list (map (fun s => length (Entries s)) req) /\
  metrics r.1 DiscardedBytes InvalidLabels tenant
  = d_metrics d DiscardedBytes InvalidLabels tenant
    + sum_list (map (fun s => entries_bytes (truncated_entries vContext s)) req) /\
  labelCache r.1 = d_labelCache d /\
  ingestionRateLimiter r.1 = d_ingestionRateLimiter d /\
  (forall rpc sched, Push_rpcs r.2 rpc sched = []).
Proof.
  intros Ht Hc Hne Hreq. cbn zeta. unfold Push_start. rewrite Ht.
  destruct req as [|s0 req0] eqn:Hr; [contradiction|]. rewrite <- Hr in *.
  assert ((length req =? 0) = false) as -> by (rewrite Hr; reflexivity).
  assert (let st := prepared mode now1 tenant req d in
          labelCache st = d_labelCache d /\
          ingestionRateLimiter st = d_ingestionRateLimiter d /\
          streams st = [] /\
          metrics st DiscardedSamples InvalidLabels tenant
          = d_metrics d DiscardedSamples InvalidLabels tenant
            + sum_list (map (fun s => length (Entries s)) req) /\
          metrics st DiscardedBytes InvalidLabels tenant
          = d_metrics d DiscardedBytes InvalidLabels tenant
            + sum_list (map (fun s => entries_bytes
                 (truncated_entries (getValidationContextForTime now1 tenant) s)) req) /\
          validationErr st = match last req with
                             | Some s => labels_error (Labels s)
                             | None => None
                             end) as (H1 & H2 & H3 & H4 & H5 & H6).
  { unfold prepared. destruct mode; cbn [alloc];
      apply (prepare_loop_unparsable _ _ _ _ Hreq); exact Hc. }
  rewrite H3. cbn [length Nat.eqb fst snd]. rewrite H1, H2, H4, H5, H6.
  split; [|repeat split].
  destruct (last req) as [s|] eqn:Hlast.
  - exists s. split; [reflexivity|]. split; [reflexivity|].
    assert (s ∈ req) as Hin.
    { apply last_Some in Hlast as [l' ->]. apply elem_of_app. right. left. }
    rewrite Forall_forall in Hreq. destruct (Hreq s Hin) as [_ [e He]].
    unfold labels_error. rewrite He. discriminate.
  - apply last_None in Hlast. contradiction.
Qed.

End UnparsableLabels.

Section RingLoop.

Lemma routed_to_app a (p1 p2 : list (nat * string)) :
  routed_to a (p1 ++ p2) = routed_to a p1 ++ routed_to a p2.
Proof. unfold routed_to. rewrite List.filter_app, map_app. reflexivity. Qed.

Lemma add_ingester_grouped i pairs (st : ringState) (ing : InstanceDesc) :
  grouped pairs st -> grouped (pairs ++ [(i, Addr ing)]) (add_ingester i st ing).
Proof.
  intros Hg a. destruct (Hg a) as (Hs & Hd & Ha).
  rewrite routed_to_app. unfold add_ingester. cbn [streamsByIngester descByIngester].
  destruct (decide (Addr ing = a)) as [<-|Hne].
  - rewrite !lookup_insert_eq.
    assert (routed_to (Addr ing) [(i, Addr ing)] = [i]) as ->.
    { unfold routed_to. cbn. rewrite bool_decide_eq_true_2 by reflexivity. reflexivity. }
    split; [|split].
    + destruct (Hg (Addr ing)) as (Hs' & _ & _). rewrite Hs'.
      destruct (routed_to (Addr ing) pairs) as [|x l]; reflexivity.
    + split; [intros _|intros _; eauto].
      destruct (routed_to (Addr ing) pairs); discriminate.
    + intros d [= <-]. reflexivity.
  - rewrite !lookup_insert_ne by exact Hne.
    assert (routed_to a [(i, Addr ing)] = []) as ->.
    { unfold routed_to. cbn. rewrite bool_decide_eq_false_2 by exact Hne. reflexivity. }
    rewrite app_nil_r. split; [exact Hs|]. split; [exact Hd|exact Ha].
Qed.

Lemma fold_add_ingester_grouped i (ings : list InstanceDesc) :
  forall pairs (st : ringState),
    grouped pairs st ->
    grouped (pairs ++ map (fun ing => (i, Addr ing)) ings)
      (fold_left (add_ingester i) ings st).
Proof.
  induction ings as [|ing ings IH]; intros pairs st Hg.
  - cbn. rewrite app_nil_r. exact Hg.
  - cbn [fold_left map].
    replace (pairs ++ (i, Addr ing) :: map (fun ing0 => (i, Addr ing0)) ings)
      with ((pairs ++ [(i, Addr ing)]) ++ map (fun ing0 => (i, Addr ing0)) ings)
      by (rewrite <- app_assoc; reflexivity).
    apply IH, add_ingester_grouped, Hg.
Qed.

Lemma fold_add_ingester_streams i (ings : list InstanceDesc) : forall (st : ringState),
  r_streams (fold_left (add_ingester i) ings st) = r_streams st.
Proof.
  induction ings as [|ing ings IH]; intros st; [reflexivity|].
  cbn [fold_left]. rewrite IH. reflexivity.
Qed.

Lemma grouped_streams pairs (st : ringState) l :
  grouped pairs st ->
  grouped pairs {| r_streams := l; streamsByIngester := streamsByIngester st;
                   descByIngester := descByIngester st |}.
Proof. intros Hg a. exact (Hg a). Qed.

(** The ring loop groups the indices of the keys by the addresses of their
    replication sets. *)
Lemma ring_loop_grouped ring (ks : list Z) : forall i pairs (st rs : ringState),
  grouped pairs st ->
  ring_loop ring i ks st = inl rs ->
  grouped (pairs ++ ring_pairs ring i ks) rs.
Proof.
  induction ks as [|key ks IH]; intros i pairs st rs Hg Hloop.
  - cbn in *. injection Hloop as <-. rewrite app_nil_r. exact Hg.
  - cbn [ring_loop ring_pairs] in *.
    destruct (ring key) as [rset|e]; [|discriminate].
    rewrite app_assoc. eapply IH; [|exact Hloop].
    apply fold_add_ingester_grouped, grouped_streams, Hg.
Qed.

(** The ring loop stores in tracker [i] the budgets of the replication set of
    key [i], and leaves the trackers beyond the keys as they are. *)
Lemma ring_loop_buckets ring (ks : list Z) : forall i (st rs : ringState),
  ring_loop ring i ks st = inl rs ->
  length (r_streams rs) = length (r_streams st) /\
  (forall j, j < i \/ i + length ks <= j -> r_streams rs !! j = r_streams st !! j) /\
  (forall j key t, ks !! j = Some key -> r_streams st !! (i + j) = Some t ->
     exists rset, ring key = inl rset /\
                  r_streams rs !! (i + j) = Some (store_buckets rset t)).
Proof.
  induction ks as [|key ks IH]; intros i st rs Hloop.
  - cbn in *. injection Hloop as <-. split; [reflexivity|]. split; [reflexivity|].
    intros j key t Hj. rewrite lookup_nil in Hj. discriminate.
  - cbn [ring_loop] in Hloop.
    destruct (ring key) as [rset|e] eqn:Hring; [|discriminate].
    apply IH in Hloop as (Hlen & Hout & Hin).
    rewrite fold_add_ingester_streams in Hlen, Hout, Hin. cbn [r_streams] in Hlen, Hout, Hin.
    rewrite length_alter in Hlen.
    split; [exact Hlen|]. split.
    + intros j Hj. cbn [length] in Hj. rewrite Hout by lia.
      apply list_lookup_alter_ne. lia.
    + intros [|j] key' t Hj Ht.
      * cbn in Hj. injection Hj as <-. exists rset. split; [exact Hring|].
        rewrite Hout by lia. rewrite Nat.add_0_r in *.
        rewrite list_lookup_alter_eq, Ht. reflexivity.
      * cbn in Hj.
        replace (i + S j) with (S i + j) in * by lia.
        apply (Hin j key' t Hj). rewrite list_lookup_alter_ne by lia. exact Ht.
Qed.

End RingLoop.

Section Routing.

Lemma routed_to_same_index a i (ings : list InstanceDesc) :
  Forall (fun j => j = i) (routed_to a (map (fun ing => (i, Addr ing)) ings)) /\
  (routed_to a (map (fun ing => (i, Addr ing)) ings) <> [] <-> a ∈ map Addr ings).
Proof.
  unfold routed_to. induction ings as [|ing ings [IH1 IH2]]; cbn [map List.filter].
  - split; [constructor|]. split; [contradiction|]. intros H. inversion H.
  - cbn [snd]. destruct (decide (Addr ing = a)) as [Heq|Hne].
    + rewrite bool_decide_eq_true_2 by exact Heq. cbn [map fst]. split.
      * constructor; [reflexivity|exact IH1].
      * split; [intros _; rewrite Heq; left|discriminate].
    + rewrite bool_decide_eq_false_2 by exact Hne. split; [exact IH1|].
      rewrite IH2. split.
      * intros H. right. exact H.
      * intros H. apply elem_of_cons in H as [H|H]; [congruence|exact H].
Qed.

(** The indices routed to an address are those of the keys whose replication
    set has that address, and they come in increasing order. *)
Lemma routed_to_ring_pairs ring a (ks : list Z) : forall i,
  Forall (fun key => exists rset, ring key = inl rset) ks ->
  StronglySorted le (routed_to a (ring_pairs ring i ks)) /\
  (forall j, j ∈ routed_to a (ring_pairs ring i ks) <->
     exists k key rset, j = i + k /\ ks !! k = Some key /\ ring key = inl rset /\
                        a ∈ map Addr (Instances rset)).
Proof.
  induction ks as [|key ks IH]; intros i Hks.
  - cbn. split; [constructor|]. intros j. split.
    + intros H. inversion H.
    + intros (k & key & rset & _ & Hk & _). rewrite lookup_nil in Hk. discriminate.
  - apply Forall_cons in Hks as [[rset Hring] Hks].
    destruct (IH (S i) Hks) as [IHs IHm].
    destruct (routed_to_same_index a i (Instances rset)) as [Hsame Hne].
    cbn [ring_pairs]. rewrite Hring, routed_to_app. split.
    + apply StronglySorted_app_2; [| |exact IHs].
      * intros x1 x2 H1 H2. rewrite Forall_forall in Hsame. rewrite (Hsame _ H1).
        apply IHm in H2 as (k & _ & _ & -> & _). lia.
      * clear Hne. induction Hsame as [|x l Hx Hl IHl]; constructor; [exact IHl|].
        eapply Forall_impl; [exact Hl|]. intros y Hy. cbn beta in Hy. lia.
    + intros j. rewrite elem_of_app, IHm. split.
      * intros [H|(k & key' & rset' & -> & Hk & Hr & Ha)].
        -- exists 0, key, rset. rewrite Forall_forall in Hsame. rewrite (Hsame _ H).
           split; [lia|]. split; [reflexivity|]. split; [exact Hring|].
           apply Hne. intros Hnil. rewrite Hnil in H. inversion H.
        -- exists (S k), key', rset'. split; [lia|]. auto.
      * intros ([|k] & key' & rset' & -> & Hk & Hr & Ha).
        -- cbn in Hk. injection Hk as <-. rewrite Hring in Hr. injection Hr as <-.
           left. apply Hne in Ha.
           destruct (routed_to a (map (fun ing => (i, Addr ing)) (Instances rset)))
             as [|x l] eqn:Hl; [contradiction|].
           apply Forall_cons in Hsame as [-> _]. rewrite Nat.add_0_r. left.
        -- right. exists k, key', rset'. split; [lia|]. auto.
Qed.

Lemma ring_loop_all_found ring (ks : list Z) : forall i (st rs : ringState),
  ring_loop ring i ks st = inl rs ->
  Forall (fun key => exists rset, ring key = inl rset) ks.
Proof.
  induction ks as [|key ks IH]; intros i st rs Hloop; [constructor|].
  cbn [ring_loop] in Hloop. destruct (ring key) as [rset|e] eqn:Hring; [|discriminate].
  constructor; [eauto|]. eapply IH. exact Hloop.
Qed.

End Routing.

Section FanOutStart.
Context `{C : Collaborators}.

(** ** What the fan-out starts from *)

Lemma iteration_keys_length vContext tenant a (s : Stream) (st : pushState) :
  length (keys st) = length (streams st) ->
  length (keys (iteration vContext tenant a s st).2)
  = length (streams (iteration vContext tenant a s st).2).
Proof.
  intros Hinv. apply iteration_cases.
  - intros _. exact Hinv.
  - intros s1 m1 labels e cache' He Ht Hp.
    rewrite (iteration_drop _ _ _ _ _ _ _ _ _ _ He Ht Hp). exact Hinv.
  - intros s1 m1 labels cache' He Ht Hp.
    rewrite (iteration_keep _ _ _ _ _ _ _ _ _ He Ht Hp). cbn [snd keys streams].
    rewrite !length_app, Hinv. reflexivity.
Qed.

Lemma prepared_keys_length mode now1 tenant req (d : Distributor) :
  length (keys (prepared mode now1 tenant req d))
  = length (streams (prepared mode now1 tenant req d)).
Proof.
  apply (prepared_invariant (fun st => length (keys st) = length (streams st))).
  - intros st H. exact H.
  - intros a v st H. exact H.
  - intros a s st H. apply iteration_keys_length. exact H.
  - reflexivity.
Qed.

(** The fan-out that [Push] starts: every routing key has been looked up;
    tracker [i] carries the budgets of the replication set of key [i]; the
    pending counter is the number of trackers and nothing has been sent;
    there is one task per address of these replication sets, not yet run,
    with a descriptor of that address and with the trackers of the keys
    replicated on that address, in the order of the request. *)
Lemma Push_fanout_start mode ctx now1 now2 ring req (d : Distributor) f :
  (Push_start mode ctx now1 now2 ring req d).2 = FanOut f ->
  let ks := keys (Push_start mode ctx now1 now2 ring req d).1 in
  length (f_streams f) = length ks /\
  (forall i key, ks !! i = Some key ->
     exists rset t,
       ring key = inl rset /\ f_streams f !! i = Some t /\
       successBucket t = int32 (Z.of_nat (length (Instances rset)) - MaxErrors rset) /\
       failureBucket t = int32 (MaxErrors rset)) /\
  f_tracker f = {| done := mkChan [] 0; err := mkChan [] 0;
                   pending := int32 (Z.of_nat (length ks)); failed := false |} /\
  f_rpcs f = [] /\ f_result f = None /\
  (forall a,
     match routed_to a (ring_pairs ring 0 ks) with
     | [] => f_tasks f !! a = None
     | l => exists ing, f_tasks f !! a = Some (mkTask ing l PcCall) /\ Addr ing = a
     end) /\
  (forall a,
     StronglySorted le (routed_to a (ring_pairs ring 0 ks)) /\
     forall i, i ∈ routed_to a (ring_pairs ring 0 ks) <->
       exists key rset, ks !! i = Some key /\ ring key = inl rset /\
                        a ∈ map Addr (Instances rset)).
Proof.
  unfold Push_start.
  destruct (TenantID ctx) as [tenant|e]; [|discriminate].
  destruct (length req =? 0); [discriminate|].
  destruct (length (streams (prepared mode now1 tenant req d)) =? 0); [discriminate|].
  destruct (AllowN _ _ _ _) as [ok lim].
  destruct ok; cbn [negb]; [|discriminate].
  destruct (ring_loop _ _ _ _) as [rs|e] eqn:Hloop; [|discriminate].
  cbn [snd fst]. intros [= <-]. cbn zeta.
  cbn [allowed keys streams] in *.
  pose proof (prepared_keys_length mode now1 tenant req d) as Hkl.
  set (st := prepared mode now1 tenant req d) in *.
  destruct (ring_loop_buckets _ _ _ _ _ Hloop) as (Hlen & _ & Hin).
  cbn [r_streams] in Hlen, Hin.
  pose proof (ring_loop_all_found _ _ _ _ _ Hloop) as Hfound.
  assert (grouped (ring_pairs ring 0 (keys st)) rs) as Hg.
  { refine (ring_loop_grouped ring (keys st) 0 [] _ rs _ Hloop).
    intros a. cbn. rewrite !lookup_empty. split; [reflexivity|].
    split; [|discriminate]. split; [intros [x Hx]; discriminate|contradiction]. }
  cbn [f_streams f_tracker f_rpcs f_result f_tasks].
  split; [rewrite Hlen; symmetry; exact Hkl|].
  split.
  { intros i key Hi.
    destruct (lookup_lt_is_Some_2 (streams st) i) as [t Ht].
    { rewrite <- Hkl. eapply lookup_lt_Some. exact Hi. }
    destruct (Hin i key t Hi Ht) as (rset & Hring & Hrs).
    exists rset, (store_buckets rset t). cbn in Hrs. repeat split; assumption. }
  split; [rewrite Hkl; reflexivity|].
  split; [reflexivity|]. split; [reflexivity|].
  split.
  { intros a. destruct (Hg a) as (Hs & Hd & Ha).
    unfold start_tasks. rewrite map_lookup_imap, Hs.
    destruct (routed_to a (ring_pairs ring 0 (keys st))) as [|x l] eqn:Hr; [reflexivity|].
    cbn. destruct Hd as [_ Hd]. destruct Hd as [ing Hing]; [discriminate|].
    rewrite Hing. cbn. exists ing. split; [reflexivity|]. apply Ha. exact Hing. }
  intros a. destruct (routed_to_ring_pairs ring a (keys st) 0 Hfound) as [Hs Hm].
  split; [exact Hs|]. intros i. rewrite Hm. split.
  - intros (k & key & rset & -> & H). exists key, rset. exact H.
  - intros (key & rset & H). exists i, key, rset. split; [reflexivity|exact H].
Qed.

End FanOutStart.

Section FanOutFacts.
Context `{C : Collaborators}.

(** When [Push] starts its fan-out there is one tracker per routing key;
    every key has a replication set in the ring, and the tracker of key [i]
    carries the budgets of that set: the number of its instances less its
    [MaxErrors] for the successes, its [MaxErrors] for the failures; the
    pending counter is the number of trackers, both channels are empty, the
    failed flag is down and no RPC has been sent. *)
Theorem Push_fanout_trackers mode ctx now1 now2 ring req (d : Distributor) f :
  (Push_start mode ctx now1 now2 ring req d).2 = FanOut f ->
  let ks := keys (Push_start mode ctx now1 now2 ring req d).1 in
  length (f_streams f) = length ks /\
  (forall i key, ks !! i = Some key ->
     exists rset t,
       ring key = inl rset /\ f_streams f !! i = Some t /\
       successBucket t = int32 (Z.of_nat (length (Instances rset)) - MaxErrors rset) /\
       failureBucket t = int32 (MaxErrors rset)) /\
  f_tracker f = {| done := mkChan [] 0; err := mkChan [] 0;
                   pending := int32 (Z.of_nat (length ks)); failed := false |} /\
  f_rpcs f = [] /\ f_result f = None.
Proof.
  intros Hf. destruct (Push_fanout_start _ _ _ _ _ _ _ _ Hf) as (H1 & H2 & H3 & H4 & H5 & _).
  cbn zeta. repeat (split; [assumption|]). assumption.
Qed.

Lemma routed_to_repeat a i (ings : list InstanceDesc) :
  routed_to a (map (fun ing => (i, Addr ing)) ings)
  = repeat i (length (List.filter (fun ing => bool_decide (Addr ing = a)) ings)).
Proof.
  unfold routed_to. induction ings as [|ing ings IH]; [reflexivity|].
  cbn [map List.filter snd]. destruct (bool_decide (Addr ing = a)); cbn; [f_equal|]; exact IH.
Qed.

(** How often the index of a key is routed to an address: once for each
    instance of the replication set of the key at that address. *)
Lemma routed_to_count ring a (ks : list Z) : forall i k key rset,
  Forall (fun key => exists rset, ring key = inl rset) ks ->
  ks !! k = Some key -> ring key = inl rset ->
  count_occ Nat.eq_dec (routed_to a (ring_pairs ring i ks)) (i + k)
  = length (List.filter (fun ing => bool_decide (Addr ing = a)) (Instances rset)).
Proof.
  induction ks as [|key0 ks IH]; intros i k key rset Hks Hk Hring.
  - rewrite lookup_nil in Hk. discriminate.
  - pose proof Hks as Hks0. apply Forall_cons in Hks as [[rset0 Hring0] Hks].
    cbn [ring_pairs]. rewrite Hring0, routed_to_app, count_occ_app, routed_to_repeat.
    destruct k as [|k].
    + cbn in Hk. injection Hk as <-. rewrite Hring in Hring0. injection Hring0 as <-.
      rewrite Nat.add_0_r, count_occ_repeat_eq by reflexivity.
      rewrite (proj1 (count_occ_not_In Nat.eq_dec _ i)); [lia|].
      intros Hin. apply list_elem_of_In in Hin.
      apply (routed_to_ring_pairs ring a ks (S i) Hks) in Hin as (k' & _ & _ & Hi & _). lia.
    + cbn in Hk. rewrite count_occ_repeat_neq by lia.
      replace (i + S k) with (S i + k) by lia.
      rewrite (IH (S i) k key rset Hks Hk Hring). reflexivity.
Qed.

(** When [Push] starts its fan-out, an address has a task exactly when it is
    the address of an instance of the replication set of some routing key;
    the task has not run and its descriptor carries that address; its list
    of trackers is in nondecreasing order of index, holds the indices of the
    keys whose replication set has an instance at that address and no
    others, and holds the index of a key once for each instance of its
    replication set at that address (once, when the set lists the address
    once): this fixes the list. *)
Theorem Push_fanout_tasks mode ctx now1 now2 ring req (d : Distributor) f a :
  (Push_start mode ctx now1 now2 ring req d).2 = FanOut f ->
  let ks := keys (Push_start mode ctx now1 now2 ring req d).1 in
  (is_Some (f_tasks f !! a) <->
     exists i key rset, ks !! i = Some key /\ ring key = inl rset /\
                        a ∈ map Addr (Instances rset)) /\
  (forall t, f_tasks f !! a = Some t ->
     Addr (t_ingester t) = a /\ t_pc t = PcCall /\
     StronglySorted le (t_streams t) /\
     (forall i, i ∈ t_streams t <->
        exists key rset, ks !! i = Some key /\ ring key = inl rset /\
                         a ∈ map Addr (Instances rset)) /\
     (forall i key rset, ks !! i = Some key -> ring key = inl rset ->
        count_occ Nat.eq_dec (t_streams t) i
        = length (List.filter (fun ing => bool_decide (Addr ing = a)) (Instances rset)))).
Proof.
  intros Hf.
  destruct (Push_fanout_start _ _ _ _ _ _ _ _ Hf) as (_ & Hfound & _ & _ & _ & Ht & Hr).
  cbn zeta in *. specialize (Ht a). destruct (Hr a) as [Hs Hm]. clear Hr.
  assert (Forall (fun key => exists rset, ring key = inl rset)
            (keys (Push_start mode ctx now1 now2 ring req d).1)) as Hall.
  { apply Forall_forall. intros key Hin. apply list_elem_of_lookup in Hin as [i Hi].
    destruct (Hfound i key Hi) as (rset & _ & Hring & _). eauto. }
  pose proof (fun i key rset =>
                routed_to_count ring a _ 0 i key rset Hall) as Hc. cbn [Nat.add] in Hc.
  destruct (routed_to a (ring_pairs ring 0 _)) as [|x l] eqn:Hl.
  - rewrite Ht. split.
    + split.
      * intros [t Hx]. discriminate.
      * intros (i & key & rset & H). exfalso.
        assert (i ∈ @nil nat) as Hi by (apply Hm; eauto). inversion Hi.
    + intros t Hx. discriminate.
  - destruct Ht as (ing & Ht & Ha). rewrite Ht. split.
    + split; [|eauto]. intros _.
      destruct (proj1 (Hm x)) as (key & rset & H); [left|]. eauto.
    + intros t [= <-]. cbn [t_ingester t_pc t_streams].
      split; [exact Ha|]. split; [reflexivity|]. split; [exact Hs|].
      split; [exact Hm|exact Hc].
Qed.

End FanOutFacts.

Section NoBlocking.
Context `{C : Collaborators}.

Lemma task_step_chans_inv rpc a (f : fanout) :
  chans_inv f -> chans_inv (task_step rpc a f).
Proof.
  intros [Hd He]. unfold task_step, executePushRequest, chan_send.
  repeat case_match; try (split; assumption);
    simplify_eq; unfold chans_inv; cbn; rewrite ?length_app; cbn; split; lia.
Qed.

Lemma step_chans_inv rpc (f : fanout) ev : chans_inv f -> chans_inv (step rpc f ev).
Proof.
  intros Hinv. destruct ev; cbn [step].
  - apply task_step_chans_inv. exact Hinv.
  - destruct Hinv as [Hd He]. unfold chan_recv.
    repeat case_match; try (split; assumption);
      simplify_eq; unfold chans_inv; cbn in *; split; try lia;
      match goal with H : buf _ = _ |- _ => rewrite H end; cbn; lia.
  - destruct Hinv as [Hd He]. unfold chan_recv.
    repeat case_match; try (split; assumption);
      simplify_eq; unfold chans_inv; cbn in *; split; try lia;
      match goal with H : buf _ = _ |- _ => rewrite H end; cbn; lia.
  - destruct (f_result f); exact Hinv.
Qed.

Lemma run_chans_inv rpc sched : forall (f : fanout),
  chans_inv f -> chans_inv (run rpc sched f).
Proof.
  induction sched as [|ev sched IH]; intros f Hinv; [exact Hinv|].
  cbn [run fold_left]. fold (run rpc sched (step rpc f ev)).
  apply IH, step_chans_inv, Hinv.
Qed.

(** No send of a task ever finds its channel full, under any schedule (of at
    most 2^31 steps): the buffer of one value is enough, and no task is ever
    left waiting for [Push] to read. *)
Theorem Push_sends_never_block mode ctx now1 now2 ring req (d : Distributor) f rpc
    sched a :
  (Push_start mode ctx now1 now2 ring req d).2 = FanOut f ->
  (Z.of_nat (length req) < 2 ^ 31)%Z ->
  (Z.of_nat (length sched) <= 2 ^ 31)%Z ->
  ~ blocked a (run rpc sched f).
Proof.
  intros Hf Hreq Hsched.
  destruct (Push_start_fanout_inv _ _ _ _ _ _ _ _ _ Hf Hreq Hsched) as [Hd He].
  apply (run_done_inv rpc sched) in Hd. apply (run_err_inv rpc sched) in He.
  assert (chans_inv (run rpc sched f)) as [Hbd Hbe].
  { apply run_chans_inv. revert Hf. unfold Push_start.
    repeat case_match; try discriminate. intros [= <-]. split; cbn; lia. }
  destruct Hd as (_ & _ & _ & Hsent & Hle).
  destruct He as (_ & _ & Hsent' & Hle').
  intros (t & Ht & [(i & Hpc & Hfull)|(e & i & Hpc & Hfull)]).
  - assert (sends (done (f_tracker (run rpc sched f))) = 0) as Hs.
    { destruct (decide (sends (done (f_tracker (run rpc sched f))) = 1)) as [H1|H1]; [|lia].
      specialize (Hsent H1 _ _ Ht). rewrite Hpc in Hsent. discriminate. }
    unfold chan_send in Hfull.
    destruct (Nat.ltb_spec (length (buf (done (f_tracker (run rpc sched f))))) 1);
      [discriminate|lia].
  - assert (sends (err (f_tracker (run rpc sched f))) = 0) as Hs.
    { destruct (decide (sends (err (f_tracker (run rpc sched f))) = 1)) as [H1|H1]; [|lia].
      specialize (Hsent' H1 _ _ Ht). rewrite Hpc in Hsent'. discriminate. }
    unfold chan_send in Hfull.
    destruct (Nat.ltb_spec (length (buf (err (f_tracker (run rpc sched f))))) 1);
      [discriminate|lia].
Qed.

End NoBlocking.

Section RpcLog.
Context `{C : Collaborators}.

(** ** The RPCs of the fan-out *)

(** The step of a task that has not made its call. *)
Lemma task_step_call rpc a (f : fanout) t :
  f_tasks f !! a = Some t -> t_pc t = PcCall ->
  let payload := payload_of (f_store f) (f_streams f) (t_streams t) in
  let o := rpc (t_ingester t) payload in
  f_tasks (task_step rpc a f)
  = <[a := mkTask (t_ingester t) (t_streams t) (PcBucket (rpc_error o) 0)]> (f_tasks f) /\
  f_rpcs (task_step rpc a f)
  = f_rpcs f ++ match o with
                | Replied _ => [(Addr (t_ingester t), payload)]
                | NoClient _ => []
                end /\
  f_appends (task_step rpc a f)
  = match o with
    | Replied _ => bump (Addr (t_ingester t)) (f_appends f)
    | NoClient _ => f_appends f
    end /\
  f_append_failures (task_step rpc a f)
  = match o with
    | Replied (Some _) => bump (Addr (t_ingester t)) (f_append_failures f)
    | _ => f_append_failures f
    end.
Proof.
  intros Ha Hpc. cbn zeta. unfold task_step. rewrite Ha, Hpc.
  unfold executePushRequest.
  destruct (rpc _ _) as [e|[e|]]; cbn; rewrite ?app_nil_r; repeat split.
Qed.

(** The step of a task that has made its call: the log and the counters stay,
    and the task does not come back to its call. *)
Lemma task_step_after_call rpc a (f : fanout) t :
  f_tasks f !! a = Some t -> t_pc t <> PcCall ->
  f_rpcs (task_step rpc a f) = f_rpcs f /\
  f_appends (task_step rpc a f) = f_appends f /\
  f_append_failures (task_step rpc a f) = f_append_failures f /\
  (f_tasks (task_step rpc a f) = f_tasks f \/
   exists p, p <> PcCall /\
             f_tasks (task_step rpc a f)
             = <[a := mkTask (t_ingester t) (t_streams t) p]> (f_tasks f)).
Proof.
  intros Ha Hpc. unfold task_step. rewrite Ha.
  destruct (t_pc t) eqn:Ht; [contradiction| | | | | |];
    unfold chan_send; repeat case_match; cbn;
    repeat split; try (left; reflexivity);
    right; eexists; (split; [|reflexivity]); discriminate.
Qed.

Lemma task_step_absent rpc a (f : fanout) :
  f_tasks f !! a = None -> task_step rpc a f = f.
Proof. intros Ha. unfold task_step. rewrite Ha. reflexivity. Qed.

Lemma bump_lookup k (m : gmap string nat) a :
  default 0 (bump k m !! a)
  = if decide (k = a) then S (default 0 (m !! a)) else default 0 (m !! a).
Proof.
  unfold bump. destruct (decide (k = a)) as [->|Hne].
  - rewrite lookup_insert_eq. reflexivity.
  - rewrite lookup_insert_ne by exact Hne. reflexivity.
Qed.

Lemma task_step_rpc_inv rpc a (f : fanout) :
  rpc_inv rpc f -> rpc_inv rpc (task_step rpc a f).
Proof.
  intros (I1 & I2 & I3 & I4 & I5 & I6).
  destruct (f_tasks f !! a) as [t|] eqn:Ha;
    [|rewrite task_step_absent by exact Ha; repeat split; assumption].
  pose proof (I1 _ _ Ha) as Haddr.
  assert (t_pc t = PcCall \/ t_pc t <> PcCall) as [Hpc|Hpc]
    by (destruct (t_pc t); [left; reflexivity|right; discriminate..]).
  - destruct (task_step_call rpc a f t Ha Hpc) as (Ht & Hr & Hap & Hfa).
    cbn zeta in *.
    set (payload := payload_of (f_store f) (f_streams f) (t_streams t)) in *.
    assert (a ∉ map fst (f_rpcs f)) as Hfresh.
    { intros Hin. destruct (I3 _ Hin) as (t' & Ht' & Hne). congruence. }
    unfold rpc_inv. rewrite Ht, Hr, Hap, Hfa, Haddr.
    destruct (rpc (t_ingester t) payload) as [e|r] eqn:Ho.
    + rewrite app_nil_r. repeat split; try assumption.
      * intros b tb Hb. destruct (decide (a = b)) as [<-|Hne].
        -- rewrite lookup_insert_eq in Hb. injection Hb as <-. exact Haddr.
        -- rewrite lookup_insert_ne in Hb by exact Hne. eapply I1. exact Hb.
      * intros b Hb. destruct (decide (a = b)) as [<-|Hne]; [contradiction|].
        rewrite lookup_insert_ne by exact Hne. apply I3. exact Hb.
      * intros b tb Hb Hpcb Hav. destruct (decide (a = b)) as [<-|Hne].
        -- destruct (Hav (t_ingester t) payload Haddr) as [r Hr']. congruence.
        -- rewrite lookup_insert_ne in Hb by exact Hne. eapply I4; eauto.
    + rewrite map_app, NoDup_app. cbn [map fst].
      repeat split.
      * intros b tb Hb. destruct (decide (a = b)) as [<-|Hne].
        -- rewrite lookup_insert_eq in Hb. injection Hb as <-. exact Haddr.
        -- rewrite lookup_insert_ne in Hb by exact Hne. eapply I1. exact Hb.
      * exact I2.
      * intros x Hx Hx'. apply list_elem_of_singleton in Hx' as ->. contradiction.
      * apply NoDup_singleton.
      * intros b Hb. apply elem_of_app in Hb as [Hb|Hb].
        -- destruct (decide (a = b)) as [<-|Hne]; [contradiction|].
           rewrite lookup_insert_ne by exact Hne. apply I3. exact Hb.
        -- apply list_elem_of_singleton in Hb as ->. rewrite lookup_insert_eq.
           eexists. split; [reflexivity|]. discriminate.
      * intros b tb Hb Hpcb Hav. apply elem_of_app.
        destruct (decide (a = b)) as [<-|Hne]; [right; left|].
        rewrite lookup_insert_ne in Hb by exact Hne. left. eapply I4; eauto.
      * intros b. rewrite bump_lookup, I5.
        destruct (decide (a = b)) as [<-|Hne].
        -- rewrite bool_decide_eq_false_2 by exact Hfresh.
           rewrite bool_decide_eq_true_2; [reflexivity|]. apply elem_of_app. right. left.
        -- destruct (bool_decide (b ∈ map fst (f_rpcs f))) eqn:Hb.
           ++ apply bool_decide_eq_true in Hb. rewrite bool_decide_eq_true_2; [reflexivity|].
              apply elem_of_app. left. exact Hb.
           ++ apply bool_decide_eq_false in Hb. rewrite bool_decide_eq_false_2; [reflexivity|].
              intros Hin. apply elem_of_app in Hin as [Hin|Hin]; [contradiction|].
              apply list_elem_of_singleton in Hin. congruence.
      * intros b. specialize (I6 b).
        destruct r as [e|]; rewrite ?bump_lookup; destruct (decide (a = b)); lia.
  - destruct (task_step_after_call rpc a f t Ha Hpc) as (Hr & Hap & Hfa & Ht).
    unfold rpc_inv. rewrite Hr, Hap, Hfa.
    destruct Ht as [->|(p & Hp & ->)]; [repeat split; assumption|].
    repeat split; try assumption.
    + intros b tb Hb. destruct (decide (a = b)) as [<-|Hne].
      * rewrite lookup_insert_eq in Hb. injection Hb as <-. exact Haddr.
      * rewrite lookup_insert_ne in Hb by exact Hne. eapply I1. exact Hb.
    + intros b Hb. destruct (decide (a = b)) as [<-|Hne].
      * rewrite lookup_insert_eq. eexists. split; [reflexivity|exact Hp].
      * rewrite lookup_insert_ne by exact Hne. apply I3. exact Hb.
    + intros b tb Hb Hpcb Hav. destruct (decide (a = b)) as [<-|Hne].
      * eapply I4; eauto.
      * rewrite lookup_insert_ne in Hb by exact Hne. eapply I4; eauto.
Qed.

End RpcLog.

Section RpcLogRuns.
Context `{C : Collaborators}.

Lemma step_select_frame rpc (f : fanout) ev :
  (forall a, ev <> Task a) ->
  f_tasks (step rpc f ev) = f_tasks f /\ f_rpcs (step rpc f ev) = f_rpcs f /\
  f_appends (step rpc f ev) = f_appends f /\
  f_append_failures (step rpc f ev) = f_append_failures f /\
  f_streams (step rpc f ev) = f_streams f /\ f_store (step rpc f ev) = f_store f.
Proof.
  intros Hev. destruct ev; cbn [step]; [destruct (Hev a); reflexivity| | |];
    repeat case_match; repeat split.
Qed.

Lemma step_rpc_inv rpc (f : fanout) ev : rpc_inv rpc f -> rpc_inv rpc (step rpc f ev).
Proof.
  intros Hinv. destruct ev as [a| | |e]; [apply task_step_rpc_inv; exact Hinv| | |].
  all: match goal with |- rpc_inv _ (step _ _ ?ev) =>
         destruct (step_select_frame rpc f ev) as (H1 & H2 & H3 & H4 & _);
           [discriminate|] end.
  all: unfold rpc_inv; rewrite H1, H2, H3, H4; exact Hinv.
Qed.

Lemma run_rpc_inv rpc sched : forall (f : fanout),
  rpc_inv rpc f -> rpc_inv rpc (run rpc sched f).
Proof.
  induction sched as [|ev sched IH]; intros f Hinv; [exact Hinv|].
  cbn [run fold_left]. fold (run rpc sched (step rpc f ev)).
  apply IH, step_rpc_inv, Hinv.
Qed.

(** The tasks of a request stay the same tasks: same addresses, same
    ingesters, same trackers. *)
Lemma task_step_same_tasks rpc a (f : fanout) b :
  (fun t => (t_ingester t, t_streams t)) <$> f_tasks (task_step rpc a f) !! b
  = (fun t => (t_ingester t, t_streams t)) <$> f_tasks f !! b.
Proof.
  destruct (f_tasks f !! a) as [t|] eqn:Ha;
    [|rewrite task_step_absent by exact Ha; reflexivity].
  assert (t_pc t = PcCall \/ t_pc t <> PcCall) as [Hpc|Hpc]
    by (destruct (t_pc t); [left; reflexivity|right; discriminate..]).
  - destruct (task_step_call rpc a f t Ha Hpc) as (-> & _).
    destruct (decide (a = b)) as [<-|Hne].
    + rewrite lookup_insert_eq, Ha. reflexivity.
    + rewrite lookup_insert_ne by exact Hne. reflexivity.
  - destruct (task_step_after_call rpc a f t Ha Hpc) as (_ & _ & _ & [->|(p & _ & ->)]);
      [reflexivity|].
    destruct (decide (a = b)) as [<-|Hne].
    + rewrite lookup_insert_eq, Ha. reflexivity.
    + rewrite lookup_insert_ne by exact Hne. reflexivity.
Qed.

Lemma run_same_tasks rpc sched b : forall (f : fanout),
  (fun t => (t_ingester t, t_streams t)) <$> f_tasks (run rpc sched f) !! b
  = (fun t => (t_ingester t, t_streams t)) <$> f_tasks f !! b.
Proof.
  induction sched as [|ev sched IH]; intros f; [reflexivity|].
  cbn [run fold_left]. fold (run rpc sched (step rpc f ev)). rewrite IH.
  destruct ev as [a| | |e]; [apply task_step_same_tasks| | |].
  all: match goal with |- context [step _ _ ?ev] =>
         destruct (step_select_frame rpc f ev) as (-> & _); [discriminate|] end.
  all: reflexivity.
Qed.

Lemma task_step_past_call rpc a b (f : fanout) :
  past_call b f -> past_call b (task_step rpc a f).
Proof.
  intros (tb & Hb & Hpcb).
  destruct (f_tasks f !! a) as [t|] eqn:Ha;
    [|rewrite task_step_absent by exact Ha; exists tb; auto].
  assert (t_pc t = PcCall \/ t_pc t <> PcCall) as [Hpc|Hpc]
    by (destruct (t_pc t); [left; reflexivity|right; discriminate..]).
  - destruct (task_step_call rpc a f t Ha Hpc) as (Ht & _). unfold past_call. rewrite Ht.
    destruct (decide (a = b)) as [<-|Hne]; [congruence|].
    rewrite lookup_insert_ne by exact Hne. exists tb. auto.
  - destruct (task_step_after_call rpc a f t Ha Hpc) as (_ & _ & _ & [Ht|(p & Hp & Ht)]);
      unfold past_call; rewrite Ht; [exists tb; auto|].
    destruct (decide (a = b)) as [<-|Hne].
    + rewrite lookup_insert_eq. eexists. split; [reflexivity|exact Hp].
    + rewrite lookup_insert_ne by exact Hne. exists tb. auto.
Qed.

Lemma task_step_makes_call rpc a (f : fanout) :
  is_Some (f_tasks f !! a) -> past_call a (task_step rpc a f).
Proof.
  intros [t Ha].
  assert (t_pc t = PcCall \/ t_pc t <> PcCall) as [Hpc|Hpc]
    by (destruct (t_pc t); [left; reflexivity|right; discriminate..]).
  - destruct (task_step_call rpc a f t Ha Hpc) as (Ht & _). unfold past_call. rewrite Ht.
    rewrite lookup_insert_eq. eexists. split; [reflexivity|]. discriminate.
  - apply task_step_past_call. exists t. auto.
Qed.

Lemma run_past_call rpc sched b : forall (f : fanout),
  past_call b f -> past_call b (run rpc sched f).
Proof.
  induction sched as [|ev sched IH]; intros f Hp; [exact Hp|].
  cbn [run fold_left]. fold (run rpc sched (step rpc f ev)). apply IH.
  destruct ev as [a| | |e]; [apply task_step_past_call; exact Hp| | |].
  all: match goal with |- past_call _ (step _ _ ?ev) =>
         destruct (step_select_frame rpc f ev) as (H1 & _); [discriminate|] end.
  all: unfold past_call; rewrite H1; exact Hp.
Qed.

Lemma run_makes_call rpc a sched : forall (f : fanout),
  is_Some (f_tasks f !! a) -> Task a ∈ sched -> past_call a (run rpc sched f).
Proof.
  induction sched as [|ev sched IH]; intros f Ha Hin; [inversion Hin|].
  cbn [run fold_left]. fold (run rpc sched (step rpc f ev)).
  apply elem_of_cons in Hin as [<-|Hin].
  - apply run_past_call. cbn [step]. apply task_step_makes_call. exact Ha.
  - apply IH; [|exact Hin].
    pose proof (run_same_tasks rpc [ev] a f) as Hsame. cbn in Hsame.
    destruct Ha as [t Ha]. rewrite Ha in Hsame.
    destruct (f_tasks (step rpc f ev) !! a); [eauto|discriminate].
Qed.

(** When the fan-out starts, no call has been made. *)
Lemma Push_start_rpc_inv mode ctx now1 now2 ring req (d : Distributor) f rpc :
  (Push_start mode ctx now1 now2 ring req d).2 = FanOut f -> rpc_inv rpc f.
Proof.
  intros Hf.
  destruct (Push_fanout_start _ _ _ _ _ _ _ _ Hf) as (_ & _ & _ & Hr & _ & Ht & _).
  assert (forall a t, f_tasks f !! a = Some t -> Addr (t_ingester t) = a /\ t_pc t = PcCall)
    as Htasks.
  { intros a t Ha. specialize (Ht a).
    destruct (routed_to a _) as [|x l]; [congruence|].
    destruct Ht as (ing & Hing & Hadd). rewrite Ha in Hing. injection Hing as ->.
    split; [exact Hadd|reflexivity]. }
  unfold rpc_inv. rewrite Hr. cbn [map].
  assert (f_appends f = ∅ /\ f_append_failures f = ∅) as [-> ->].
  { revert Hf. unfold Push_start. repeat case_match; try discriminate.
    intros [= <-]. split; reflexivity. }
  split; [intros a t Ha; apply (Htasks a t Ha)|].
  split; [constructor|].
  split; [intros a Ha; inversion Ha|].
  split; [intros a t Ha Hpc; destruct (Htasks a t Ha) as [_ Hc]; contradiction|].
  split.
  - intros a. rewrite lookup_empty. case_bool_decide as Hx; [inversion Hx|reflexivity].
  - intros a. rewrite lookup_empty. cbn. lia.
Qed.

(** For every schedule, an address is sent at most one RPC, and only an
    address that has a task of the request; the counter of appends of an
    address stands at 1 when an RPC was sent to it and at 0 otherwise, and its
    counter of failed appends never exceeds it. *)
Theorem Push_one_rpc_per_address mode ctx now1 now2 ring req (d : Distributor) f rpc
    sched :
  (Push_start mode ctx now1 now2 ring req d).2 = FanOut f ->
  let f' := run rpc sched f in
  NoDup (map fst (f_rpcs f')) /\
  (forall a, a ∈ map fst (f_rpcs f') -> is_Some (f_tasks f !! a)) /\
  (forall a, default 0 (f_appends f' !! a)
             = if bool_decide (a ∈ map fst (f_rpcs f')) then 1 else 0) /\
  (forall a, default 0 (f_append_failures f' !! a) <= default 0 (f_appends f' !! a)).
Proof.
  intros Hf. cbn zeta.
  destruct (run_rpc_inv rpc sched f (Push_start_rpc_inv _ _ _ _ _ _ _ _ _ Hf))
    as (_ & I2 & I3 & _ & I5 & I6).
  split; [exact I2|]. split; [|split; assumption].
  intros a Ha. destruct (I3 a Ha) as (t & Ht & _).
  pose proof (run_same_tasks rpc sched a f) as Hsame. rewrite Ht in Hsame.
  destruct (f_tasks f !! a); [eauto|discriminate].
Qed.

(** A task that is scheduled at all makes its call, whatever else happens
    before or after, [Push] having returned or not: when the pool has a
    client for its address, the RPC is in the log. *)
Theorem Push_scheduled_task_sends mode ctx now1 now2 ring req (d : Distributor) f rpc
    sched a :
  (Push_start mode ctx now1 now2 ring req d).2 = FanOut f ->
  is_Some (f_tasks f !! a) ->
  (forall ing p, Addr ing = a -> exists r, rpc ing p = Replied r) ->
  Task a ∈ sched ->
  a ∈ map fst (f_rpcs (run rpc sched f)).
Proof.
  intros Hf Ha Hav Hin.
  destruct (run_rpc_inv rpc sched f (Push_start_rpc_inv _ _ _ _ _ _ _ _ _ Hf))
    as (_ & _ & _ & I4 & _).
  destruct (run_makes_call rpc a sched f Ha Hin) as (t & Ht & Hpc).
  eapply I4; eauto.
Qed.

End RpcLogRuns.

Section ErrorSource.
Context `{C : Collaborators}.

(** ** The error that [Push] returns from the fan-out *)

Lemma payload_of_ext (st : gmap addr Stream) (tr1 tr2 : list streamTracker) ptrs :
  stream <$> tr1 = stream <$> tr2 -> payload_of st tr1 ptrs = payload_of st tr2 ptrs.
Proof.
  intros Heq. unfold payload_of. apply list_fmap_ext. intros _ i _.
  assert (stream <$> tr1 !! i = stream <$> tr2 !! i) as Hi
    by (rewrite <- !list_lookup_fmap, Heq; reflexivity).
  destruct (tr1 !! i), (tr2 !! i); cbn in Hi; simplify_eq; [rewrite Hi|]; reflexivity.
Qed.

Lemma insert_same_stream (l : list streamTracker) j s s' :
  l !! j = Some s -> stream s' = stream s -> stream <$> <[j := s']> l = stream <$> l.
Proof.
  intros Hj Hs. rewrite list_fmap_insert, Hs. apply list_insert_id.
  rewrite list_lookup_fmap, Hj. reflexivity.
Qed.

Lemma task_step_stream_addrs rpc a (f : fanout) :
  stream <$> f_streams (task_step rpc a f) = stream <$> f_streams f.
Proof.
  unfold task_step, executePushRequest, chan_send.
  repeat case_match; cbn; try reflexivity;
    (eapply insert_same_stream; [eassumption|reflexivity]).
Qed.

Lemma step_calls_frame rpc (f0 f : fanout) ev :
  calls_frame f0 f -> calls_frame f0 (step rpc f ev).
Proof.
  intros (F1 & F2 & F3). destruct ev as [a| | |e].
  - cbn [step]. split; [|split].
    + destruct (task_step_frame rpc a f) as (_ & _ & ->). exact F1.
    + rewrite task_step_stream_addrs. exact F2.
    + intros b. rewrite task_step_same_tasks. apply F3.
  - destruct (step_select_frame rpc f RecvErr) as (H1 & _ & _ & _ & H5 & H6); [discriminate|].
    unfold calls_frame. rewrite H1, H5, H6. auto.
  - destruct (step_select_frame rpc f RecvDone) as (H1 & _ & _ & _ & H5 & H6); [discriminate|].
    unfold calls_frame. rewrite H1, H5, H6. auto.
  - destruct (step_select_frame rpc f (CtxDone e)) as (H1 & _ & _ & _ & H5 & H6);
      [discriminate|].
    unfold calls_frame. rewrite H1, H5, H6. auto.
Qed.

Lemma err_src_mono (R R' S : error -> Prop) (f : fanout) :
  (forall e, R e -> R' e) -> err_src R S f -> err_src R' S f.
Proof.
  intros HR (E1 & E2 & E3). split; [|split].
  - intros a t e Ha He. eapply HR, E1; eauto.
  - intros e He. apply HR, E2, He.
  - intros e He. destruct (E3 e He) as [H|H]; [left; apply HR, H|right; exact H].
Qed.

Lemma err_src_insert (R : error -> Prop) (tasks : gmap string task) a t :
  (forall b tb e, tasks !! b = Some tb -> pc_error (t_pc tb) = Some e -> R e) ->
  (forall e, pc_error (t_pc t) = Some e -> R e) ->
  forall b tb e, <[a := t]> tasks !! b = Some tb -> pc_error (t_pc tb) = Some e -> R e.
Proof.
  intros Hall Ht b tb e Hb He. destruct (decide (a = b)) as [<-|Hne].
  - rewrite lookup_insert_eq in Hb. injection Hb as <-. apply Ht. exact He.
  - rewrite lookup_insert_ne in Hb by exact Hne. eapply Hall; eauto.
Qed.

(** A step of a task keeps the sources of the errors, when the error of the
    call it makes, if it makes one, is of [R]. *)
Lemma task_step_err_src rpc (R S : error -> Prop) a (f : fanout) :
  (forall t e, f_tasks f !! a = Some t -> t_pc t = PcCall ->
     rpc_error (rpc (t_ingester t) (payload_of (f_store f) (f_streams f) (t_streams t)))
     = Some e -> R e) ->
  err_src R S f -> err_src R S (task_step rpc a f).
Proof.
  intros Hcall (E1 & E2 & E3). unfold task_step.
  destruct (f_tasks f !! a) as [t|] eqn:Ha; [|repeat split; assumption].
  pose proof (fun e => E1 a t e Ha) as Et.
  specialize (Hcall t).
  destruct (t_pc t) eqn:Hpc.
  - (* the RPC *)
    unfold executePushRequest.
    set (payload := payload_of (f_store f) (f_streams f) (t_streams t)) in *.
    assert (forall e, rpc_error (rpc (t_ingester t) payload) = Some e -> R e)
      as Hnew by (intros e He; apply Hcall; auto).
    destruct (rpc (t_ingester t) payload) as [e|r]; cbn;
      (split; [apply err_src_insert; [exact E1|]|split; assumption]);
      cbn; intros e' He'; apply Hnew; [|destruct r]; simplify_eq; reflexivity.
  - repeat case_match; cbn;
      (split; [apply err_src_insert; [exact E1|]|split; assumption]);
      cbn; intros e' He'; simplify_eq; try (apply (Et _ eq_refl)); apply Et; reflexivity.
  - repeat case_match; cbn;
      (split; [apply err_src_insert; [exact E1|]|split; assumption]);
      cbn; intros e' He'; discriminate.
  - unfold chan_send. repeat case_match; try (repeat split; assumption); simplify_eq; cbn;
      (split; [apply err_src_insert; [exact E1|]|split; assumption]);
      cbn; intros e' He'; discriminate.
  - repeat case_match; cbn;
      (split; [apply err_src_insert; [exact E1|]|split; assumption]);
      cbn; intros e' He'; simplify_eq; apply Et; reflexivity.
  - unfold chan_send. repeat case_match; try (repeat split; assumption); simplify_eq; cbn.
    split; [apply err_src_insert; [exact E1|]|split; [|exact E3]].
    + cbn. intros e' He'. simplify_eq. apply Et. reflexivity.
    + intros e' He'. apply elem_of_app in He' as [He'|He']; [apply E2; exact He'|].
      apply list_elem_of_singleton in He' as ->. apply Et. reflexivity.
  - repeat split; assumption.
Qed.

Lemma step_err_src rpc (R S : error -> Prop) (f : fanout) ev :
  (forall a t e, ev = Task a -> f_tasks f !! a = Some t -> t_pc t = PcCall ->
     rpc_error (rpc (t_ingester t) (payload_of (f_store f) (f_streams f) (t_streams t)))
     = Some e -> R e) ->
  (forall e, ev = CtxDone e -> S e) ->
  err_src R S f -> err_src R S (step rpc f ev).
Proof.
  intros Hcall Hev Hinv. destruct ev as [a| | |e]; cbn [step].
  - apply task_step_err_src; [|exact Hinv]. intros t e. apply Hcall. reflexivity.
  - destruct (f_result f) eqn:Hr; [exact Hinv|].
    unfold chan_recv.
    destruct (buf (err (f_tracker f))) as [|e l] eqn:Hb; [exact Hinv|].
    destruct Hinv as (E1 & E2 & E3).
    cbn. split; [exact E1|]. split.
    + intros e' He'. apply E2. rewrite Hb. right. exact He'.
    + cbn. intros e' [= <-]. left. apply E2. rewrite Hb. left.
  - destruct (f_result f) eqn:Hr; [exact Hinv|].
    unfold chan_recv.
    destruct (buf (done (f_tracker f))) as [|u l] eqn:Hb; [exact Hinv|].
    destruct Hinv as (E1 & E2 & E3).
    cbn. split; [exact E1|]. split; [exact E2|]. cbn. discriminate.
  - destruct (f_result f) eqn:Hr; [exact Hinv|].
    destruct Hinv as (E1 & E2 & E3).
    cbn. split; [exact E1|]. split; [exact E2|].
    cbn. intros e' [= <-]. right. apply Hev. reflexivity.
Qed.

(** The call a task makes in a state framed by [f0] is the call of that task
    of [f0]. *)
Lemma calls_frame_call rpc (f0 f : fanout) a t e :
  calls_frame f0 f -> f_tasks f !! a = Some t ->
  rpc_error (rpc (t_ingester t) (payload_of (f_store f) (f_streams f) (t_streams t)))
  = Some e ->
  exists t0, f_tasks f0 !! a = Some t0 /\
    rpc_error (rpc (t_ingester t0) (payload_of (f_store f0) (f_streams f0) (t_streams t0)))
    = Some e.
Proof.
  intros (F1 & F2 & F3) Ha He. specialize (F3 a). rewrite Ha in F3.
  destruct (f_tasks f0 !! a) as [t0|]; [|discriminate]. cbn in F3.
  injection F3 as Hi Hs. exists t0. split; [reflexivity|].
  rewrite <- Hi, <- Hs, <- F1, <- (payload_of_ext _ _ _ _ F2). exact He.
Qed.

Lemma run_err_src rpc (f0 : fanout) (S : error -> Prop) sched : forall pre (f : fanout),
  (forall e, CtxDone e ∈ sched -> S e) ->
  calls_frame f0 f ->
  err_src (call_failure rpc f0 pre) S f ->
  err_src (call_failure rpc f0 (pre ++ sched)) S (run rpc sched f).
Proof.
  induction sched as [|ev sched IH]; intros pre f Hs Hfr Hinv.
  - rewrite app_nil_r. exact Hinv.
  - cbn [run fold_left]. fold (run rpc sched (step rpc f ev)).
    replace (pre ++ ev :: sched) with ((pre ++ [ev]) ++ sched)
      by (rewrite <- app_assoc; reflexivity).
    apply IH.
    + intros e He. apply Hs. right. exact He.
    + apply step_calls_frame. exact Hfr.
    + apply step_err_src.
      * intros a t e -> Ha _ He.
        destruct (calls_frame_call rpc f0 f a t e Hfr Ha He) as (t0 & Ht0 & He0).
        exists a, t0. split; [exact Ht0|]. split; [|exact He0].
        apply elem_of_app. right. left.
      * intros e ->. apply Hs. left.
      * eapply err_src_mono; [|exact Hinv].
        intros e (a & t & Ha & Hin & He). exists a, t. split; [exact Ha|].
        split; [|exact He]. apply elem_of_app. left. exact Hin.
Qed.

(** Once [Push] has started its tasks, an error that it returns without a
    response is either the error that [executePushRequest] returned to one
    of the tasks of the request that has run, called with the ingester and
    the payload of that task, or the error of the caller's context, the
    context being done. *)
Theorem Push_error_is_rpc_or_context_error mode ctx now1 now2 ring req
    (d : Distributor) f rpc sched e :
  (Push_start mode ctx now1 now2 ring req d).2 = FanOut f ->
  f_result (run rpc sched f) = Some (None, Some e) ->
  (exists a t, f_tasks f !! a = Some t /\ Task a ∈ sched /\
     rpc_error (rpc (t_ingester t) (payload_of (f_store f) (f_streams f) (t_streams t)))
     = Some e) \/
  CtxDone e ∈ sched.
Proof.
  intros Hf.
  assert (err_src (call_failure rpc f []) (fun e => CtxDone e ∈ sched) f) as Hinit.
  { revert Hf. unfold Push_start. repeat case_match; try discriminate.
    intros [= <-]. split; [|split]; cbn.
    - intros a t e' Ha. apply start_tasks_PcCall in Ha. rewrite Ha. discriminate.
    - intros e' He'. inversion He'.
    - discriminate. }
  intros Hres.
  assert (calls_frame f f) as Hfr by (repeat split).
  destruct (run_err_src rpc f _ sched [] f (fun e H => H) Hfr Hinit) as (_ & _ & E3).
  apply E3. exact Hres.
Qed.

End ErrorSource.

Section SelectIndependence.
Context `{C : Collaborators}.

(** ** What [Push] does at its [select] does not reach the tasks *)

Lemma task_step_tasks_view rpc a (f : fanout) :
  (forall t, f_tasks f !! a = Some t ->
     (at_SendDone (t_pc t) = true -> buf (done (f_tracker f)) = []) /\
     (at_SendErr (t_pc t) = true -> buf (err (f_tracker f)) = [])) ->
  tasks_view (task_step rpc a f) = tasks_view (task_step rpc a (tasks_view f)).
Proof.
  intros Hbuf. unfold task_step. cbn [tasks_view f_tasks].
  destruct (f_tasks f !! a) as [t|] eqn:Ha; [|reflexivity].
  destruct (Hbuf t eq_refl) as [Hd He].
  destruct (t_pc t) eqn:Hpc; cbn in Hd, He.
  - unfold executePushRequest. cbn. destruct (rpc _ _); reflexivity.
  - cbn. repeat case_match; reflexivity.
  - cbn. repeat case_match; reflexivity.
  - unfold chan_send. cbn. rewrite (Hd eq_refl). reflexivity.
  - cbn. repeat case_match; reflexivity.
  - unfold chan_send. cbn. rewrite (He eq_refl). reflexivity.
  - reflexivity.
Qed.

Lemma step_select_tasks_view rpc (f : fanout) ev :
  is_Task ev = false -> tasks_view (step rpc f ev) = tasks_view f.
Proof.
  intros Hev. destruct ev; [discriminate| | |]; cbn [step]; unfold chan_recv;
    repeat case_match; simplify_eq; reflexivity.
Qed.

Lemma done_inv_weaken (k k' : Z) (f : fanout) :
  (k' <= k)%Z -> done_inv k f -> done_inv k' f.
Proof.
  intros Hk (Hr & H1 & H2 & H3 & H4). repeat split; try assumption; try lia; apply H2; assumption.
Qed.

(** A task about to send finds its channel empty. *)
Lemma send_finds_room (k : Z) (f : fanout) a t :
  done_inv k f -> err_inv f -> chans_inv f ->
  f_tasks f !! a = Some t ->
  (at_SendDone (t_pc t) = true -> buf (done (f_tracker f)) = []) /\
  (at_SendErr (t_pc t) = true -> buf (err (f_tracker f)) = []).
Proof.
  intros (_ & _ & _ & Hsent & Hle) (_ & _ & Hsent' & Hle') [Hbd Hbe] Ha. split.
  - intros Hat.
    assert (sends (done (f_tracker f)) = 0) as Hs.
    { destruct (decide (sends (done (f_tracker f)) = 1)) as [H1|H1]; [|lia].
      rewrite (Hsent H1 _ _ Ha) in Hat. discriminate. }
    destruct (buf (done (f_tracker f))); [reflexivity|cbn in Hbd; lia].
  - intros Hat.
    assert (sends (err (f_tracker f)) = 0) as Hs.
    { destruct (decide (sends (err (f_tracker f)) = 1)) as [H1|H1]; [|lia].
      rewrite (Hsent' H1 _ _ Ha) in Hat. discriminate. }
    destruct (buf (err (f_tracker f))); [reflexivity|cbn in Hbe; lia].
Qed.

Lemma run_tasks_view rpc sched : forall (f g : fanout) (k : Z),
  (Z.of_nat (length sched) <= k)%Z ->
  done_inv k f -> err_inv f -> chans_inv f ->
  done_inv k g -> err_inv g -> chans_inv g ->
  tasks_view f = tasks_view g ->
  tasks_view (run rpc sched f) = tasks_view (run rpc (List.filter is_Task sched) g).
Proof.
  induction sched as [|ev sched IH]; intros f g k Hk Fd Fe Fc Gd Ge Gc Hv; [exact Hv|].
  cbn [length] in Hk.
  cbn [run fold_left List.filter]. fold (run rpc sched (step rpc f ev)).
  assert (0 < k)%Z as Hpos by lia.
  destruct (is_Task ev) eqn:Hev.
  - destruct ev as [a| | |]; try discriminate.
    cbn [run fold_left]. fold (run rpc (List.filter is_Task sched) (step rpc g (Task a))).
    apply (IH _ _ (k - 1)%Z); [lia| | | | | | |].
    + apply step_done_inv; assumption.
    + apply step_err_inv; assumption.
    + apply step_chans_inv; assumption.
    + apply step_done_inv; assumption.
    + apply step_err_inv; assumption.
    + apply step_chans_inv; assumption.
    + cbn [step].
      rewrite (task_step_tasks_view rpc a f)
        by (intros t Ht; eapply send_finds_room; eauto).
      rewrite (task_step_tasks_view rpc a g)
        by (intros t Ht; eapply send_finds_room; eauto).
      rewrite Hv. reflexivity.
  - apply (IH _ _ (k - 1)%Z); [lia| | | | | | |].
    + apply step_done_inv; assumption.
    + apply step_err_inv; assumption.
    + apply step_chans_inv; assumption.
    + eapply done_inv_weaken; [|exact Gd]. lia.
    + exact Ge.
    + exact Gc.
    + rewrite step_select_tasks_view by exact Hev. exact Hv.
Qed.

(** Whether and when [Push] reads its channels, and whether and when the
    caller's context is done, changes nothing for the tasks: under a schedule
    (of at most 2^31 steps) the RPCs sent and their order, the budgets, the
    pending counter, the failed flag and the counters are what they are under
    the schedule of the tasks alone. *)
Theorem Push_select_does_not_reach_tasks mode ctx now1 now2 ring req (d : Distributor)
    f rpc sched :
  (Push_start mode ctx now1 now2 ring req d).2 = FanOut f ->
  (Z.of_nat (length req) < 2 ^ 31)%Z ->
  (Z.of_nat (length sched) <= 2 ^ 31)%Z ->
  let f1 := run rpc sched f in
  let f2 := run rpc (List.filter is_Task sched) f in
  f_rpcs f1 = f_rpcs f2 /\ f_streams f1 = f_streams f2 /\ f_tasks f1 = f_tasks f2 /\
  pending (f_tracker f1) = pending (f_tracker f2) /\
  failed (f_tracker f1) = failed (f_tracker f2) /\
  sends (done (f_tracker f1)) = sends (done (f_tracker f2)) /\
  sends (err (f_tracker f1)) = sends (err (f_tracker f2)) /\
  f_appends f1 = f_appends f2 /\ f_append_failures f1 = f_append_failures f2.
Proof.
  intros Hf Hreq Hsched. cbn zeta.
  destruct (Push_start_fanout_inv _ _ _ _ _ _ _ _ _ Hf Hreq Hsched) as [Hd He].
  assert (chans_inv f) as Hc.
  { revert Hf. unfold Push_start. repeat case_match; try discriminate.
    intros [= <-]. split; cbn; lia. }
  pose proof (run_tasks_view rpc sched f f _ (Z.le_refl _) Hd He Hc Hd He Hc eq_refl) as Hv.
  repeat split.
  - exact (f_equal f_rpcs Hv).
  - exact (f_equal f_streams Hv).
  - exact (f_equal f_tasks Hv).
  - exact (f_equal (fun x => pending (f_tracker x)) Hv).
  - exact (f_equal (fun x => failed (f_tracker x)) Hv).
  - exact (f_equal (fun x => sends (done (f_tracker x))) Hv).
  - exact (f_equal (fun x => sends (err (f_tracker x))) Hv).
  - exact (f_equal f_appends Hv).
  - exact (f_equal f_append_failures Hv).
Qed.

End SelectIndependence.

Section Accounting.
Context `{C : Collaborators}.

(** ** Every entry is accounted for *)

Lemma iteration_accounts vContext tenant a (s : Stream) (st : pushState) :
  let st' := (iteration vContext tenant a s st).2 in
  metrics st' DiscardedSamples InvalidLabels tenant + length (validated_entries (calls st'))
  = metrics st DiscardedSamples InvalidLabels tenant + length (validated_entries (calls st))
    + length (Entries s).
Proof.
  cbn zeta. apply iteration_cases.
  - intros ->. cbn. lia.
  - intros s1 m1 labels e cache' He Ht Hp.
    rewrite (iteration_drop _ _ _ _ _ _ _ _ _ _ He Ht Hp). cbn [snd metrics calls].
    rewrite counter_add_other by discriminate. rewrite counter_add_same.
    unfold validated_entries. rewrite omap_app. cbn [omap list_omap]. rewrite app_nil_r.
    assert (m1 = (truncateLines vContext s (metrics st)).2) as -> by (rewrite Ht; reflexivity).
    assert (s1 = (truncateLines vContext s (metrics st)).1) as -> by (rewrite Ht; reflexivity).
    rewrite truncateLines_discarded by (left; reflexivity).
    rewrite truncateLines_length. lia.
  - intros s1 m1 labels cache' He Ht Hp.
    rewrite (iteration_keep _ _ _ _ _ _ _ _ _ He Ht Hp). cbn [snd metrics calls].
    unfold validated_entries at 1. rewrite !omap_app.
    fold (validated_entries (map (entry_call vContext labels) (Entries s1))).
    fold (validated_entries (calls st)).
    rewrite validated_entries_entry_calls. cbn [omap list_omap]. rewrite app_nil_r.
    rewrite length_app.
    assert (m1 = (truncateLines vContext s (metrics st)).2) as -> by (rewrite Ht; reflexivity).
    assert (s1 = (truncateLines vContext s (metrics st)).1) as -> by (rewrite Ht; reflexivity).
    rewrite truncateLines_discarded by (left; reflexivity).
    rewrite truncateLines_length. lia.
Qed.

Lemma prepare_loop_accounts mode vContext tenant req : forall a (st : pushState),
  let st' := prepare_loop mode vContext tenant a req st in
  metrics st' DiscardedSamples InvalidLabels tenant + length (validated_entries (calls st'))
  = metrics st DiscardedSamples InvalidLabels tenant + length (validated_entries (calls st))
    + sum_list (map (fun s => length (Entries s)) req).
Proof.
  induction req as [|s req IH]; intros a st; cbn zeta; [cbn; lia|].
  cbn [prepare_loop map].
  change (sum_list (length (Entries s) :: map (fun s0 => length (Entries s0)) req))
    with (length (Entries s) + sum_list (map (fun s0 => length (Entries s0)) req)).
  destruct mode.
  - pose proof (iteration_accounts vContext tenant a s st) as Hit. cbn zeta in Hit.
    destruct (iteration vContext tenant a s st) as [v st2]. cbn [snd] in Hit.
    specialize (IH a (write_cell a v st2)). cbn zeta in IH.
    cbn [write_cell metrics calls] in IH. lia.
  - cbn [alloc].
    pose proof (iteration_accounts vContext tenant (next_addr st) s (alloc st).2) as Hit.
    cbn zeta in Hit. cbn [alloc snd metrics calls] in Hit.
    destruct (iteration vContext tenant (next_addr st) s _) as [v st2]. cbn [snd] in Hit.
    specialize (IH (next_addr st) (write_cell (next_addr st) v st2)). cbn zeta in IH.
    cbn [write_cell metrics calls] in IH. lia.
Qed.

(** Every entry of a request (of a tenant) is either handed to
    [ValidateEntry] or counted as discarded for invalid labels: the entries
    validated and the advance of that counter add up to the entries of the
    request. *)
Theorem Push_accounts_for_every_entry mode ctx now1 now2 ring req (d : Distributor)
    tenant :
  TenantID ctx = inl tenant ->
  let r := Push_start mode ctx now1 now2 ring req d in
  metrics r.1 DiscardedSamples InvalidLabels tenant + length (validated_entries (calls r.1))
  = d_metrics d DiscardedSamples InvalidLabels tenant
    + sum_list (map (fun s => length (Entries s)) req).
Proof.
  intros Ht. cbn zeta.
  assert (let st := prepared mode now1 tenant req d in
          metrics st DiscardedSamples InvalidLabels tenant
          + length (validated_entries (calls st))
          = d_metrics d DiscardedSamples InvalidLabels tenant
            + sum_list (map (fun s => length (Entries s)) req)) as Hp.
  { unfold prepared. destruct mode; cbn [alloc].
    - rewrite prepare_loop_accounts. cbn. lia.
    - rewrite prepare_loop_accounts. cbn. lia. }
  cbn zeta in Hp. unfold Push_start. rewrite Ht.
  destruct req as [|s0 req0] eqn:Hreq; [cbn; lia|]. rewrite <- Hreq in *.
  assert ((length req =? 0) = false) as -> by (rewrite Hreq; reflexivity).
  destruct (length (streams (prepared mode now1 tenant req d)) =? 0); [exact Hp|].
  destruct (AllowN _ _ _ _) as [ok lim].
  destruct ok; cbn [negb].
  - destruct (ring_loop _ _ _ _); exact Hp.
  - cbn [fst rate_limited metrics calls].
    rewrite !counter_add_other by discriminate. exact Hp.
Qed.

End Accounting.

Section Acknowledgement.
Context `{C : Collaborators}.

(** ** No success without an acknowledgement *)

Lemma task_step_rpcs_grow rpc a (f : fanout) x :
  x ∈ f_rpcs f -> x ∈ f_rpcs (task_step rpc a f).
Proof.
  intros Hx. destruct (f_tasks f !! a) as [t|] eqn:Ha;
    [|rewrite task_step_absent by exact Ha; exact Hx].
  assert (t_pc t = PcCall \/ t_pc t <> PcCall) as [Hpc|Hpc]
    by (destruct (t_pc t); [left; reflexivity|right; discriminate..]).
  - destruct (task_step_call rpc a f t Ha Hpc) as (_ & -> & _).
    apply elem_of_app. left. exact Hx.
  - destruct (task_step_after_call rpc a f t Ha Hpc) as (-> & _). exact Hx.
Qed.

Lemma task_step_ack_inv rpc n a (f : fanout) :
  ack_inv rpc n f -> ack_inv rpc n (task_step rpc a f).
Proof.
  intros [(Hp & Hs & Hr & Ht)|(ing & p & Hin & Hack)].
  2:{ right. exists ing, p. split; [apply task_step_rpcs_grow; exact Hin|exact Hack]. }
  destruct (f_tasks f !! a) as [t|] eqn:Ha;
    [|rewrite task_step_absent by exact Ha; left; auto].
  pose proof (Ht a t Ha) as Hpath.
  assert (forall p', on_success_path p' = false ->
            forall b tb, <[a := mkTask (t_ingester t) (t_streams t) p']> (f_tasks f) !! b = Some tb ->
                         on_success_path (t_pc tb) = false) as Hins.
  { intros p' Hp' b tb Hb. destruct (decide (a = b)) as [<-|Hne].
    - rewrite lookup_insert_eq in Hb. injection Hb as <-. exact Hp'.
    - rewrite lookup_insert_ne in Hb by exact Hne. eapply Ht. exact Hb. }
  unfold task_step. rewrite Ha.
  destruct (t_pc t) as [|[e|] i|i|i|e i|e i|] eqn:Hpc; try discriminate.
  - (* the RPC *)
    set (payload := payload_of (f_store f) (f_streams f) (t_streams t)).
    destruct (rpc (t_ingester t) payload) as [e|[e|]] eqn:Ho.
    + left. cbn. repeat split; try assumption. apply Hins. reflexivity.
    + left. cbn. repeat split; try assumption. apply Hins. reflexivity.
    + right. exists (t_ingester t), payload. split; [|exact Ho].
      cbn. apply elem_of_app. right. left.
  - left. repeat case_match; cbn; repeat split; try assumption; apply Hins; reflexivity.
  - left. repeat case_match; cbn; repeat split; try assumption; apply Hins; reflexivity.
  - left. unfold chan_send. repeat case_match; cbn; repeat split; try assumption;
      try (apply Hins; reflexivity); exact Ht.
  - left. repeat split; assumption.
Qed.

Lemma step_ack_inv rpc n (f : fanout) ev :
  chans_inv f -> ack_inv rpc n f -> ack_inv rpc n (step rpc f ev).
Proof.
  intros [Hbd _] Hinv. destruct ev as [a| | |e]; cbn [step].
  - apply task_step_ack_inv. exact Hinv.
  - destruct (f_result f) eqn:Hres; [exact Hinv|].
    unfold chan_recv. destruct (buf (err (f_tracker f))) as [|e l]; [exact Hinv|].
    destruct Hinv as [(Hp & Hs & Hr & Ht)|Hack]; [left|right; exact Hack].
    cbn. repeat split; try assumption. discriminate.
  - destruct (f_result f) eqn:Hres; [exact Hinv|].
    unfold chan_recv. destruct (buf (done (f_tracker f))) as [|u l] eqn:Hb; [exact Hinv|].
    destruct Hinv as [(Hp & Hs & Hr & Ht)|Hack]; [|right; exact Hack].
    cbn in Hbd. lia.
  - destruct (f_result f) eqn:Hres; [exact Hinv|].
    destruct Hinv as [(Hp & Hs & Hr & Ht)|Hack]; [left|right; exact Hack].
    cbn. repeat split; try assumption. discriminate.
Qed.

Lemma run_ack_inv rpc n sched : forall (f : fanout),
  chans_inv f -> ack_inv rpc n f -> ack_inv rpc n (run rpc sched f).
Proof.
  induction sched as [|ev sched IH]; intros f Hc Hinv; [exact Hinv|].
  cbn [run fold_left]. fold (run rpc sched (step rpc f ev)).
  apply IH; [apply step_chans_inv; exact Hc|apply step_ack_inv; assumption].
Qed.

(** After admission [Push] returns a response, and a value is sent on [done],
    only when at least one ingester has acknowledged an RPC of the request. *)
Theorem Push_response_needs_acknowledgement mode ctx now1 now2 ring req
    (d : Distributor) f rpc sched :
  (Push_start mode ctx now1 now2 ring req d).2 = FanOut f ->
  let f' := run rpc sched f in
  (exists resp e, f_result f' = Some (Some resp, e)) \/ 0 < sends (done (f_tracker f')) ->
  exists ing p, (Addr ing, p) ∈ f_rpcs f' /\ rpc ing p = Replied None.
Proof.
  intros Hf. cbn zeta.
  assert (chans_inv f /\ ack_inv rpc (pending (f_tracker f)) f) as [Hc Hinit].
  { revert Hf. unfold Push_start. repeat case_match; try discriminate.
    intros [= <-]. split; [split; cbn; lia|]. left. cbn.
    repeat split; try discriminate.
    intros a t Ha. apply start_tasks_PcCall in Ha. rewrite Ha. reflexivity. }
  intros Hsucc.
  destruct (run_ack_inv rpc _ sched f Hc Hinit) as [(_ & Hs & Hr & _)|Hack]; [|exact Hack].
  destruct Hsucc as [(resp & e & Hres)|Hsent]; [|lia].
  destruct (Hr resp e Hres).
Qed.

End Acknowledgement.

(** ** The further properties on concrete requests *)

Module MoreRuns.
Import Example Example2.

(** The fan-out of a concrete request, computed. *)
Ltac computed_fanout :=
  lazymatch goal with
  | |- exists f, ?s = FanOut f /\ _ =>
      let v := eval vm_compute in s in
      lazymatch v with
      | FanOut ?f0 => exists f0; split; [vm_compute; reflexivity|]
      end
  end.

(** Lines of 5 and 7 bytes under a limit of 3 bytes. *)
Lemma truncateLines_cuts_each_line_witness :
  let r := truncateLines (vcontext 3 true "t") two_long_lines counters_zero in
  Entries r.1 = [mkEntry 1 "abc"; mkEntry 2 "abc"] /\
  r.2 MutatedSamples LineTooLong "t" = 2.
Proof.
  cbn zeta.
  destruct (truncateLines_cuts_each_line (vcontext 3 true "t") two_long_lines
              counters_zero) as (_ & _ & _ & H4).
  - reflexivity.
  - vm_compute. discriminate.
  - split; [vm_compute; reflexivity|exact H4].
Defined.

(** The same lines under a limit of 10 bytes. *)
Lemma truncateLines_leaves_short_lines_witness :
  (truncateLines (vcontext 10 true "t") two_long_lines counters_zero).1 = two_long_lines /\
  forall m r t,
    (truncateLines (vcontext 10 true "t") two_long_lines counters_zero).2 m r t = 0.
Proof.
  apply (truncateLines_leaves_short_lines (vcontext 10 true "t") two_long_lines
           counters_zero).
  right. right. repeat (constructor; [cbn; lia|]). constructor.
Defined.

(** Labels of five bytes for a tenant that accepts two. *)
Lemma parseStreamLabels_error_not_cached_witness :
  parseStreamLabels (C := collab strict_limits 0) strict_limits "{abc}"
    (mkStream "{abc}" []) [("{a}", "{a}")]
  = (("", Some (Errorf 400 "label value too long" [ArgString "{abc}"])),
     [("{a}", "{a}")]) /\
  lru_lookup "{abc}" [("{a}", "{a}")] = None.
Proof.
  destruct (parseStreamLabels_error_not_cached (C := collab strict_limits 0)
              strict_limits "{abc}" (mkStream "{abc}" []) [("{a}", "{a}")]
              (Errorf 400 "label value too long" [ArgString "{abc}"]))
    as (H1 & H2 & _).
  - vm_compute. reflexivity.
  - split; [exact H1|exact H2].
Defined.

(** Labels accepted once are returned to the strict tenant too. *)
Lemma parseStreamLabels_then_hit_witness :
  parseStreamLabels (C := collab (limits 0 false) 0) (limits 0 false) "{ a }" stream_a []
  = (("{a}", None), [("{ a }", "{a}")]) /\
  (parseStreamLabels (C := collab (limits 0 false) 0) strict_limits "{ a }" stream_b
     [("{ a }", "{a}")]).1
  = ("{a}", None).
Proof.
  split; [vm_compute; reflexivity|].
  apply (parseStreamLabels_then_hit (C := collab (limits 0 false) 0) (limits 0 false)
           strict_limits "{ a }" stream_a stream_b [] [("{ a }", "{a}")] "{a}").
  vm_compute. reflexivity.
Defined.

Lemma Push_start_cache_valid_witness :
  cache_valid (C := collab (limits 0 false) 0)
    (labelCache (Push_start (C := collab (limits 0 false) 0) PerLoop ctx_t 0 0 ring1
                   mixed_request (distributor0 _ _ 1000)).1) /\
  labelCache (Push_start (C := collab (limits 0 false) 0) PerLoop ctx_t 0 0 ring1
                mixed_request (distributor0 _ _ 1000)).1
  = [("{a}", "{a}")].
Proof.
  split; [|vm_compute; reflexivity].
  apply (Push_start_cache_valid (C := collab (limits 0 false) 0) PerLoop ctx_t 0 0 ring1
           mixed_request (distributor0 _ _ 1000)).
  intros k v H. inversion H.
Defined.

Lemma Push_streams_without_entries_witness :
  let r := Push_start (C := collab (limits 0 false) 0) PerLoop ctx_t 0 0 ring3
             empty_streams (distributor0 _ _ 1000) in
  r.2 = Returned (Some EmptyResponse) None /\ calls r.1 = [] /\ labelCache r.1 = [].
Proof.
  cbn zeta.
  destruct (Push_streams_without_entries (C := collab (limits 0 false) 0) PerLoop ctx_t
              0 0 ring3 empty_streams (distributor0 _ _ 1000) "t")
    as (H1 & H2 & H3 & _).
  - reflexivity.
  - repeat constructor.
  - split; [exact H1|]. split; [exact H2|exact H3].
Defined.

(** Three entries of 6 bytes in all, none of them kept. *)
Lemma Push_unparsable_labels_witness :
  let r := Push_start (C := collab (limits 0 false) 0) PerLoop ctx_t 0 0 ring3
             unparsable (distributor0 _ _ 1000) in
  r.2 = Returned (Some EmptyResponse)
          (Some (Errorf 400 "error parsing labels %s with error: %s"
                   [ArgString "y"; ArgError (Err "syntax error")])) /\
  metrics r.1 DiscardedSamples InvalidLabels "t" = 3 /\
  metrics r.1 DiscardedBytes InvalidLabels "t" = 6.
Proof.
  cbn zeta.
  destruct (Push_unparsable_labels (C := collab (limits 0 false) 0) PerLoop ctx_t
              0 0 ring3 unparsable (distributor0 _ _ 1000) "t")
    as ((s & Hs & H1 & _) & H2 & H3 & _).
  - reflexivity.
  - intros k v H. inversion H.
  - discriminate.
  - repeat constructor; try discriminate; eexists; reflexivity.
  - injection Hs as <-. split; [exact H1|]. split; [exact H2|exact H3].
Defined.

(** Two streams on a ring of six ingesters: two trackers with budgets 2 and
    1, a pending counter of 2. *)
Lemma Push_fanout_trackers_witness :
  exists f,
    (Push_start (C := collab (limits 0 false) 0) PerLoop ctx_t 0 0 ring3
       [stream_a; stream_b] (distributor0 _ _ 1000)).2 = FanOut f /\
    length (f_streams f) = 2 /\ f_rpcs f = [] /\ f_result f = None.
Proof.
  computed_fanout.
  lazymatch goal with
  | |- length (f_streams ?f) = _ /\ _ =>
      destruct (Push_fanout_trackers (C := collab (limits 0 false) 0) PerLoop ctx_t 0 0
                  ring3 [stream_a; stream_b] (distributor0 _ _ 1000) f)
        as (H1 & _ & _ & H4 & H5)
  end.
  - vm_compute. reflexivity.
  - split; [vm_compute; reflexivity|]. split; [exact H4|exact H5].
Defined.

(** The task of i5 carries the second stream of the request, once. *)
Lemma Push_fanout_tasks_witness :
  exists f,
    (Push_start (C := collab (limits 0 false) 0) PerLoop ctx_t 0 0 ring3
       [stream_a; stream_b] (distributor0 _ _ 1000)).2 = FanOut f /\
    f_tasks f !! "i5" = Some (mkTask (ingester "i5") [1] PcCall) /\
    (forall t, f_tasks f !! "i5" = Some t ->
       StronglySorted le (t_streams t) /\ count_occ Nat.eq_dec (t_streams t) 1 = 1).
Proof.
  computed_fanout. split; [vm_compute; reflexivity|].
  intros t Ht.
  lazymatch type of Ht with
  | f_tasks ?f !! _ = _ =>
      destruct (Push_fanout_tasks (C := collab (limits 0 false) 0) PerLoop ctx_t 0 0
                  ring3 [stream_a; stream_b] (distributor0 _ _ 1000) f "i5") as (_ & H)
  end.
  - vm_compute. reflexivity.
  - destruct (H t Ht) as (_ & _ & Hs & _ & Hc). split; [exact Hs|].
    rewrite (Hc 1 (ex_TokenFor "t" "{b}")
               (mkReplicationSet [ingester "i4"; ingester "i5"; ingester "i6"] 1)).
    + reflexivity.
    + vm_compute. reflexivity.
    + vm_compute. reflexivity.
Defined.

Lemma Push_sends_at_most_once_witness :
  exists f,
    (Push_start (C := collab (limits 0 false) 0) PerLoop ctx_t 0 0 ring3
       [stream_a] (distributor0 _ _ 1000)).2 = FanOut f /\
    sends (done (f_tracker (run i1_fails busy_schedule f))) <= 1 /\
    sends (err (f_tracker (run i1_fails busy_schedule f))) <= 1.
Proof.
  computed_fanout.
  apply (Push_sends_at_most_once (C := collab (limits 0 false) 0) PerLoop ctx_t 0 0
           ring3 [stream_a] (distributor0 _ _ 1000) _ i1_fails busy_schedule).
  - vm_compute. reflexivity.
  - vm_compute. reflexivity.
  - vm_compute. discriminate.
Defined.

Lemma Push_sends_never_block_witness :
  exists f,
    (Push_start (C := collab (limits 0 false) 0) PerLoop ctx_t 0 0 ring3
       [stream_a] (distributor0 _ _ 1000)).2 = FanOut f /\
    ~ blocked "i3" (run i1_fails busy_schedule f).
Proof.
  computed_fanout.
  apply (Push_sends_never_block (C := collab (limits 0 false) 0) PerLoop ctx_t 0 0
           ring3 [stream_a] (distributor0 _ _ 1000) _ i1_fails busy_schedule "i3").
  - vm_compute. reflexivity.
  - vm_compute. reflexivity.
  - vm_compute. discriminate.
Defined.

Lemma Push_one_rpc_per_address_witness :
  exists f,
    (Push_start (C := collab (limits 0 false) 0) PerLoop ctx_t 0 0 ring3
       [stream_a] (distributor0 _ _ 1000)).2 = FanOut f /\
    map fst (f_rpcs (run i1_fails busy_schedule f)) = ["i1"; "i2"; "i3"] /\
    NoDup (map fst (f_rpcs (run i1_fails busy_schedule f))).
Proof.
  computed_fanout. split; [vm_compute; reflexivity|].
  lazymatch goal with
  | |- NoDup (map fst (f_rpcs (run _ _ ?f))) =>
      destruct (Push_one_rpc_per_address (C := collab (limits 0 false) 0) PerLoop ctx_t
                  0 0 ring3 [stream_a] (distributor0 _ _ 1000) f i1_fails busy_schedule)
        as (H & _)
  end.
  - vm_compute. reflexivity.
  - exact H.
Defined.

Lemma Push_scheduled_task_sends_witness :
  exists f,
    (Push_start (C := collab (limits 0 false) 0) PerLoop ctx_t 0 0 ring3
       [stream_a] (distributor0 _ _ 1000)).2 = FanOut f /\
    "i2" ∈ map fst (f_rpcs (run i1_fails [RecvDone; Task "i2"; Task "i1"] f)).
Proof.
  computed_fanout.
  apply (Push_scheduled_task_sends (C := collab (limits 0 false) 0) PerLoop ctx_t 0 0
           ring3 [stream_a] (distributor0 _ _ 1000) _ i1_fails
           [RecvDone; Task "i2"; Task "i1"] "i2").
  - vm_compute. reflexivity.
  - vm_compute. eexists. reflexivity.
  - intros ing p _. unfold i1_fails. destruct (bool_decide _); eexists; reflexivity.
  - right. left.
Defined.

Lemma Push_error_is_rpc_or_context_error_witness :
  exists f,
    (Push_start (C := collab (limits 0 false) 0) PerLoop ctx_t 0 0 ring3
       [stream_a] (distributor0 _ _ 1000)).2 = FanOut f /\
    f_result (run i1_fails busy_schedule f) = Some (None, Some (Err "i1: unavailable")) /\
    ((exists a t, f_tasks f !! a = Some t /\ Task a ∈ busy_schedule /\
        rpc_error (i1_fails (t_ingester t)
                     (payload_of (f_store f) (f_streams f) (t_streams t)))
        = Some (Err "i1: unavailable")) \/
     CtxDone (Err "i1: unavailable") ∈ busy_schedule).
Proof.
  computed_fanout. split; [vm_compute; reflexivity|].
  let v := eval vm_compute in
    (Push_start (C := collab (limits 0 false) 0) PerLoop ctx_t 0 0 ring3
       [stream_a] (distributor0 _ _ 1000)).2 in
  lazymatch v with
  | FanOut ?f0 =>
      apply (Push_error_is_rpc_or_context_error (C := collab (limits 0 false) 0) PerLoop
               ctx_t 0 0 ring3 [stream_a] (distributor0 _ _ 1000) f0 i1_fails
               busy_schedule (Err "i1: unavailable"))
  end.
  - vm_compute. reflexivity.
  - vm_compute. reflexivity.
Defined.

Lemma Push_select_does_not_reach_tasks_witness :
  exists f,
    (Push_start (C := collab (limits 0 false) 0) PerLoop ctx_t 0 0 ring3
       [stream_a] (distributor0 _ _ 1000)).2 = FanOut f /\
    f_rpcs (run i1_fails busy_schedule f)
    = f_rpcs (run i1_fails (List.filter is_Task busy_schedule) f).
Proof.
  computed_fanout.
  lazymatch goal with
  | |- f_rpcs (run _ _ ?f) = _ =>
      destruct (Push_select_does_not_reach_tasks (C := collab (limits 0 false) 0) PerLoop
                  ctx_t 0 0 ring3 [stream_a] (distributor0 _ _ 1000) f i1_fails
                  busy_schedule) as (H & _)
  end.
  - vm_compute. reflexivity.
  - vm_compute. reflexivity.
  - vm_compute. discriminate.
  - exact H.
Defined.

(** One entry discarded with its labels, two handed to the validator. *)
Lemma Push_accounts_for_every_entry_witness :
  let r := Push_start (C := collab (limits 0 false) 0) PerLoop ctx_t 0 0 ring1
             mixed_request (distributor0 _ _ 1000) in
  metrics r.1 DiscardedSamples InvalidLabels "t" + length (validated_entries (calls r.1))
  = 3 /\
  metrics r.1 DiscardedSamples InvalidLabels "t" = 1.
Proof.
  cbn zeta. split; [|vm_compute; reflexivity].
  apply (Push_accounts_for_every_entry (C := collab (limits 0 false) 0) PerLoop ctx_t
           0 0 ring1 mixed_request (distributor0 _ _ 1000) "t").
  reflexivity.
Defined.

Lemma Push_response_needs_acknowledgement_witness :
  exists f,
    (Push_start (C := collab (limits 0 false) 0) PerLoop ctx_t 0 0 ring3
       [stream_a] (distributor0 _ _ 1000)).2 = FanOut f /\
    exists ing p,
      (Addr ing, p) ∈ f_rpcs (run i1_fails (steps 6 "i2" ++ steps 6 "i3" ++ [RecvDone]) f)
      /\ i1_fails ing p = Replied None.
Proof.
  computed_fanout.
  apply (Push_response_needs_acknowledgement (C := collab (limits 0 false) 0) PerLoop
           ctx_t 0 0 ring3 [stream_a] (distributor0 _ _ 1000) _ i1_fails
           (steps 6 "i2" ++ steps 6 "i3" ++ [RecvDone])).
  - vm_compute. reflexivity.
  - left. exists EmptyResponse, None. vm_compute. reflexivity.
Defined.

End MoreRuns.
